(** * OracleCI: the d-separation oracle of tigramite

    Shallow embedding of
    [tigramite/independence_tests/oracle_conditional_independence.py].

    Python dictionaries are [gmap]s, Python lists are [list]s, integers are
    [Z].  A Python call either returns, raises, or keeps running: the three
    outcomes are the constructors of [res]; every [while] loop of the source
    is a fixpoint on a step budget and answers [OutOfFuel] when the budget
    is used up before the loop condition turns false. *)

From Stdlib Require Import ZArith QArith List Bool Ascii String Lia.
From stdpp Require Import base decidable option list gmap strings sorting.

Local Open Scope Z_scope.

(** ** Outcomes of a call *)

Inductive exn : Type :=
  | ValueError
  | KeyError
  | IndexError
  | NameError
  | TypeError
  | NotImplementedError.

Inductive res (A : Type) : Type :=
  | Ok (a : A)
  | Raise (e : exn)
  | OutOfFuel.

Arguments Ok {A} a.
Arguments Raise {A} e.
Arguments OutOfFuel {A}.

Definition res_bind {A B : Type} (m : res A) (k : A -> res B) : res B :=
  match m with
  | Ok a => k a
  | Raise e => Raise e
  | OutOfFuel => OutOfFuel
  end.

Declare Scope res_scope.
Delimit Scope res_scope with res.
Notation "x <-- m ;; k" := (res_bind m (fun x => k))
  (at level 100, m at next level, right associativity) : res_scope.
Local Open Scope res_scope.

#[local] Set Warnings "-clear-no-such-hyp".

Definition is_Ok {A : Type} (m : res A) : bool :=
  match m with Ok _ => true | _ => false end.

(** [for a in l: st = body(st, a)] where the body may raise. *)
Fixpoint for_each {A S : Type} (body : S -> A -> res S) (l : list A) (st : S)
  : res S :=
  match l with
  | [] => Ok st
  | a :: l' => st' <-- body st a ;; for_each body l' st'
  end.

(** ** Python helpers *)

(** [range(lo, hi)] over the integers. *)
Definition py_range (lo hi : Z) : list Z :=
  map (fun k : nat => lo + Z.of_nat k) (seq 0 (Z.to_nat (hi - lo))).

(** [l[i]] on a list: negative indices count from the end, anything outside
    [-len, len) raises [IndexError]. *)
Definition py_index {A : Type} (l : list A) (i : Z) : res A :=
  let n := Z.of_nat (length l) in
  if (0 <=? i) && (i <? n) then
    match l !! Z.to_nat i with Some a => Ok a | None => Raise IndexError end
  else if (- n <=? i) && (i <? 0) then
    match l !! Z.to_nat (n + i) with Some a => Ok a | None => Raise IndexError end
  else Raise IndexError.

(** [d[k]] on a dictionary. *)
Definition py_getitem `{Countable K} {V : Type} (d : gmap K V) (k : K) : res V :=
  match d !! k with Some v => Ok v | None => Raise KeyError end.

(** [x in l] on a list. *)
Definition py_in `{EqDecision A} (x : A) (l : list A) : bool :=
  bool_decide (x ∈ l).

(** [list(OrderedDict.fromkeys(l))]: first occurrences, in order. *)
Fixpoint fromkeys_acc `{EqDecision A} (seen l : list A) : list A :=
  match l with
  | [] => []
  | a :: l' =>
      if py_in a seen then fromkeys_acc seen l'
      else a :: fromkeys_acc (seen ++ [a]) l'
  end.

Definition fromkeys `{EqDecision A} (l : list A) : list A := fromkeys_acc [] l.

(** [sorted(l)] for integers (insertion sort; the result is what matters). *)
Fixpoint insert_sorted (a : Z) (l : list Z) : list Z :=
  match l with
  | [] => [a]
  | b :: l' => if a <=? b then a :: l else b :: insert_sorted a l'
  end.

Definition sorted (l : list Z) : list Z := foldr insert_sorted [] l.

(** ** Data model *)

(** A node [(var, lag)] of the time series graph. *)
Definition node : Type := Z * Z.

(** One entry of [links[j]]: either [(i, tau)] or [((i, tau), coeff, func)].
    The function is never looked at and is dropped. *)
Inductive link_props : Type :=
  | Link2 (i tau : Z)
  | Link3 (i tau : Z) (coeff : Q).

(** The unpacking at the head of both loops over [self.links[j]]:
    a pair has coefficient 1. *)
Definition link_source (lp : link_props) : Z * Z :=
  match lp with Link2 i tau => (i, tau) | Link3 i tau _ => (i, tau) end.

Definition link_coeff (lp : link_props) : Q :=
  match lp with Link2 _ _ => 1%Q | Link3 _ _ c => c end.

(** [coeff != 0.] *)
Definition coeff_nonzero (c : Q) : bool := negb (Qeq_bool c 0%Q).

(** The fields of an [OracleCI] object that never change after [__init__]. *)
Record OracleCI : Type := mkOracleCI {
  links : gmap Z (list link_props);
  N : Z;
  observed_vars : list Z;
  selection_vars : list Z;
  verbosity : Z
}.

(** The fields that calls write to: the cache [self.dsepsets], the attribute
    [self.max_lag] left behind by [_is_dsep], and a ghost counter of the
    calls [run_test] made to [_is_dsep] (the instrumentation the
    determinism property is checked with).  The cache key is
    [str((X, Y, Z))], which is injective on lists of integer pairs, so the
    key is the triple itself. *)
Definition query : Type := list node * list node * list node.

Record OracleState : Type := mkState {
  dsepsets : gmap query bool;
  max_lag_attr : option Z;
  searches : nat
}.

Definition fresh_state : OracleState :=
  {| dsepsets := ∅; max_lag_attr := None; searches := 0%nat |}.

(** ** [_check_XYZ] *)

Definition lag_positive (n : node) : bool := 0 <? n.2.
Definition var_out_of_range (N : Z) (n : node) : bool := (N <=? n.1) || (n.1 <? 0).
Definition lag_nonzero (n : node) : bool := negb (n.2 =? 0).

Definition _check_XYZ (self : OracleCI) (X Y Zs : list node) : res query :=
  let N := N self in
  let X := fromkeys X in
  let Y := fromkeys Y in
  let Zs := fromkeys Zs in
  let Zs := filter (fun n => negb (py_in n X) && negb (py_in n Y)) Zs in
  let XYZ := X ++ Y ++ Zs in
  (* np.array(XYZ).shape != (dim, 2): an empty list has shape (0,) *)
  if bool_decide (XYZ = []) then Raise ValueError
  else if existsb lag_positive XYZ then Raise ValueError
  else if existsb (var_out_of_range N) XYZ then Raise ValueError
  else
    (* np.array(Y)[:, 1] on an empty Y: too many indices *)
    if bool_decide (Y = []) then Raise IndexError
    else if forallb lag_nonzero Y then Raise ValueError
    else Ok (X, Y, Zs).

(** ** [_get_lagged_parents], [_get_children], [_get_lagged_children] *)

Definition _get_lagged_parents (self : OracleCI) (var_lag : node)
    (exclude_contemp : bool) : res (list node) :=
  let '(var, lag) := var_lag in
  lps <-- py_getitem (links self) var ;;
  Ok (flat_map (fun lp =>
        let '(i, tau) := link_source lp in
        if coeff_nonzero (link_coeff lp) then
          if negb (exclude_contemp && (lag =? 0)) then [(i, lag + tau)] else []
        else []) lps).

Definition children_add (j : Z) (children : gmap Z (list node))
    (lp : link_props) : res (gmap Z (list node)) :=
  let '(i, tau) := link_source lp in
  if coeff_nonzero (link_coeff lp) then
    cs <-- py_getitem children i ;;
    Ok (<[i := cs ++ [(j, Z.abs tau)]]> children)
  else Ok children.

Definition _get_children (self : OracleCI) : res (gmap Z (list node)) :=
  let N := Z.of_nat (size (links self)) in
  let children : gmap Z (list node) :=
    list_to_map (map (fun j => (j, [])) (py_range 0 N)) in
  for_each (fun children j =>
              lps <-- py_getitem (links self) j ;;
              for_each (children_add j) lps children)
           (py_range 0 N) children.

Definition _get_lagged_children (var_lag : node)
    (children : gmap Z (list node)) (exclude_contemp : bool)
  : res (list node) :=
  let '(var, lag) := var_lag in
  cs <-- py_getitem children var ;;
  Ok (flat_map (fun child : node =>
        let '(k, tau) := child in
        if negb (exclude_contemp && (tau =? 0)) then [(k, lag + tau)] else [])
      cs).

(** ** [_get_non_blocked_ancestors] *)

Inductive mode : Type := non_repeating | max_lag_mode.

Definition is_non_repeating (m : mode) : bool :=
  match m with non_repeating => true | max_lag_mode => false end.

(** The nested helper [_repeating(link, seen_links)]. *)
Definition _repeating (link : node * node) (seen_links : list (node * node))
  : bool :=
  let '((i, taui), (j, tauj)) := link in
  existsb (fun seen_link : node * node =>
             let '((seen_i, seen_taui), (seen_j, seen_tauj)) := seen_link in
             (i =? seen_i) && (j =? seen_j)
             && (Z.abs (tauj - taui) =? Z.abs (seen_tauj - seen_taui)))
          seen_links.

(** [conds += [(selection_var, -tau_sel) for tau_sel in range(0, max_lag + 1)]]
    for every selection variable: the lines shared by both searches. *)
Definition add_selection_conds (self : OracleCI) (conds : list node)
    (max_lag : Z) : list node :=
  foldl (fun conds selection_var =>
           conds ++ map (fun tau_sel => (selection_var, - tau_sel))
                        (py_range 0 (max_lag + 1)))
        conds (selection_vars self).

(** What the loops of the ancestor search carry along. *)
Record anc_state : Type := mkAnc {
  ancestors : gmap node (list node);
  anc_max_lag : Z;
  next_level : list node;
  seen_links : list (node * node)
}.

(** The body of [for par in self._get_lagged_parents(varlag)]. *)
Definition anc_visit (md : mode) (conds : list node) (y varlag : node)
    (st : anc_state) (par : node) : res anc_state :=
  let '(i, tau) := par in
  anc_y <-- py_getitem (ancestors st) y ;;
  if negb (py_in par conds) && negb (py_in par anc_y) then
    if (is_non_repeating md && negb (_repeating (par, varlag) (seen_links st)))
       || (negb (is_non_repeating md)
           && (Z.abs tau <=? Z.abs (anc_max_lag st)))
    then Ok {| ancestors := <[y := anc_y ++ [par]]> (ancestors st);
               anc_max_lag := if is_non_repeating md
                              then Z.max (anc_max_lag st) (Z.abs tau)
                              else anc_max_lag st;
               next_level := next_level st ++ [par];
               seen_links := seen_links st ++ [(par, varlag)] |}
    else Ok st
  else Ok st.

(** The body of [for varlag in this_level]. *)
Definition anc_level (self : OracleCI) (md : mode) (conds : list node)
    (y : node) (st : anc_state) (varlag : node) : res anc_state :=
  pars <-- _get_lagged_parents self varlag false ;;
  for_each (anc_visit md conds y varlag) pars st.

(** [while len(this_level) > 0]. *)
Fixpoint anc_while (fuel : nat) (self : OracleCI) (md : mode)
    (conds : list node) (y : node) (this_level : list node) (st : anc_state)
  : res anc_state :=
  match this_level with
  | [] => Ok st
  | _ =>
      match fuel with
      | O => OutOfFuel
      | S fuel' =>
          st' <-- for_each (anc_level self md conds y) this_level
                    {| ancestors := ancestors st;
                       anc_max_lag := anc_max_lag st;
                       next_level := [];
                       seen_links := seen_links st |} ;;
          anc_while fuel' self md conds y (next_level st') st'
      end
  end.

(** The body of [for y in Y]. *)
Definition anc_seed (fuel : nat) (self : OracleCI) (md : mode)
    (conds : list node) (st : gmap node (list node) * Z) (y : node)
  : res (gmap node (list node) * Z) :=
  let '(ancs, max_lag) := st in
  let '(j, tau) := y in
  let max_lag := if is_non_repeating md then Z.max max_lag (Z.abs tau)
                 else max_lag in
  st' <-- anc_while fuel self md conds y [y]
            {| ancestors := ancs; anc_max_lag := max_lag;
               next_level := []; seen_links := [] |} ;;
  Ok (ancestors st', anc_max_lag st').

Definition _get_non_blocked_ancestors (fuel : nat) (self : OracleCI)
    (Y : list node) (conds : option (list node)) (md : mode)
    (max_lag : option Z) : res (gmap node (list node) * Z) :=
  let conds := match conds with Some c => c | None => [] end in
  let conds := filter (fun z => negb (py_in z Y)) conds in
  max_lag <-- (if is_non_repeating md then Ok 0
               else match max_lag with
                    | Some m => Ok m
                    | None => Raise ValueError
                    end) ;;
  let conds := add_selection_conds self conds max_lag in
  let ancs : gmap node (list node) := list_to_map (map (fun y => (y, [])) Y) in
  for_each (anc_seed fuel self md conds) Y (ancs, max_lag).

(** ** [_has_any_path] *)

(** The keys of the inner dictionaries of [pred] and [succ]: ['tail'],
    ['arrowhead'] and [None] (the start or end node). *)
Inductive mark : Type := Tail | Arrowhead | Start.

Global Instance mark_eq_dec : EqDecision mark.
Proof. solve_decision. Defined.

(** An inner dictionary [{'tail': (v, m), 'arrowhead': (v', m'), None: None}]:
    one optional entry per possible key. *)
Record marks : Type := mkMarks {
  m_tail : option (node * mark);
  m_arrowhead : option (node * mark);
  m_start : bool
}.

Definition marks_start : marks :=
  {| m_tail := None; m_arrowhead := None; m_start := true |}.

(** [m in d] *)
Definition marks_has (d : marks) (m : mark) : bool :=
  match m with
  | Tail => bool_decide (is_Some (m_tail d))
  | Arrowhead => bool_decide (is_Some (m_arrowhead d))
  | Start => m_start d
  end.

(** [a, b = d[m]]; the value under [None] is [None] and does not unpack. *)
Definition marks_get (d : marks) (m : mark) : res (node * mark) :=
  match m with
  | Tail => match m_tail d with Some e => Ok e | None => Raise KeyError end
  | Arrowhead =>
      match m_arrowhead d with Some e => Ok e | None => Raise KeyError end
  | Start => if m_start d then Raise TypeError else Raise KeyError
  end.

Definition marks_set_tail (d : marks) (e : node * mark) : marks :=
  {| m_tail := Some e; m_arrowhead := m_arrowhead d; m_start := m_start d |}.

Definition marks_set_arrowhead (d : marks) (e : node * mark) : marks :=
  {| m_tail := m_tail d; m_arrowhead := Some e; m_start := m_start d |}.

(** What a walk hands back: [found_connection, fringe, this_path]. *)
Record walk : Type := mkWalk {
  walk_found : option (node * mark);
  walk_fringe : list (node * mark);
  walk_path : gmap node marks
}.

Section has_any_path.

Variable self : OracleCI.
(** The variables the nested helpers close over. *)
Variable conds : list node.
Variable max_lag : Z.
Variable backdoor : bool.
Variable children : gmap Z (list node).
Variable x : node.

(** [w not in this_path or (m not in this_path[w] and None not in this_path[w])] *)
Definition unvisited (this_path : gmap node marks) (w : node) (m : mark)
  : bool :=
  match this_path !! w with
  | None => true
  | Some d => negb (marks_has d m) && negb (marks_has d Start)
  end.

(** The loop of [_walk_to_parents] over the parents [ws] of [v]. *)
Fixpoint walk_parents_loop (v : node) (ws : list node)
    (fringe : list (node * mark)) (this_path other_path : gmap node marks)
  : walk :=
  match ws with
  | [] => mkWalk None fringe this_path
  | w :: ws' =>
      let '(i, t) := w in
      if backdoor && bool_decide (w = x) then
        walk_parents_loop v ws' fringe this_path other_path
      else if negb (py_in w conds) && (t <=? 0) && (Z.abs t <=? max_lag) then
        let '(fringe, this_path) :=
          if unvisited this_path w Tail then
            (fringe ++ [(w, Tail)],
             match this_path !! w with
             | None =>
                 <[w := {| m_tail := Some (v, Arrowhead);
                           m_arrowhead := None; m_start := false |}]> this_path
             | Some d => <[w := marks_set_tail d (v, Arrowhead)]> this_path
             end)
          else (fringe, this_path) in
        if bool_decide (is_Some (other_path !! w)) then
          mkWalk (Some (w, Tail)) fringe this_path
        else walk_parents_loop v ws' fringe this_path other_path
      else walk_parents_loop v ws' fringe this_path other_path
  end.

Definition _walk_to_parents (v : node) (fringe : list (node * mark))
    (this_path other_path : gmap node marks) : res walk :=
  ws <-- _get_lagged_parents self v false ;;
  Ok (walk_parents_loop v ws fringe this_path other_path).

(** The loop of [_walk_to_children] over the children [ws] of [v]. *)
Fixpoint walk_children_loop (v : node) (ws : list node)
    (fringe : list (node * mark)) (this_path other_path : gmap node marks)
  : walk :=
  match ws with
  | [] => mkWalk None fringe this_path
  | w :: ws' =>
      let '(i, t) := w in
      if (t <=? 0) && (Z.abs t <=? max_lag) then
        let '(fringe, this_path) :=
          if unvisited this_path w Arrowhead then
            (fringe ++ [(w, Arrowhead)],
             match this_path !! w with
             | None =>
                 <[w := {| m_tail := None;
                           m_arrowhead := Some (v, Tail);
                           m_start := false |}]> this_path
             | Some d => <[w := marks_set_arrowhead d (v, Tail)]> this_path
             end)
          else (fringe, this_path) in
        match other_path !! w with
        | Some d =>
            if (marks_has d Tail && negb (py_in w conds))
               || (marks_has d Arrowhead && py_in w conds)
               || marks_has d Start
            then mkWalk (Some (w, Arrowhead)) fringe this_path
            else walk_children_loop v ws' fringe this_path other_path
        | None => walk_children_loop v ws' fringe this_path other_path
        end
      else walk_children_loop v ws' fringe this_path other_path
  end.

Definition _walk_to_children (v : node) (fringe : list (node * mark))
    (this_path other_path : gmap node marks) : res walk :=
  ws <-- _get_lagged_children v children false ;;
  Ok (walk_children_loop v ws fringe this_path other_path).

(** The [for v, mark in this_level] loop of [_walk_fringe]; every
    [if found_connection: break] hands the walk back as it is. *)
Fixpoint walk_level (this_level : list (node * mark))
    (fringe : list (node * mark)) (this_path other_path : gmap node marks)
  : res walk :=
  match this_level with
  | [] => Ok (mkWalk None fringe this_path)
  | (v, mk) :: rest =>
      if py_in v conds then
        if bool_decide (mk = Arrowhead) || bool_decide (mk = Start) then
          w <-- _walk_to_parents v fringe this_path other_path ;;
          match walk_found w with
          | Some _ => Ok w
          | None => walk_level rest (walk_fringe w) (walk_path w) other_path
          end
        else walk_level rest fringe this_path other_path
      else
        if bool_decide (mk = Tail) || bool_decide (mk = Start) then
          w <-- _walk_to_parents v fringe this_path other_path ;;
          match walk_found w with
          | Some _ => Ok w
          | None =>
              w' <-- _walk_to_children v (walk_fringe w) (walk_path w) other_path ;;
              match walk_found w' with
              | Some _ => Ok w'
              | None => walk_level rest (walk_fringe w') (walk_path w') other_path
              end
          end
        else if bool_decide (mk = Arrowhead) then
          w <-- _walk_to_children v fringe this_path other_path ;;
          match walk_found w with
          | Some _ => Ok w
          | None => walk_level rest (walk_fringe w) (walk_path w) other_path
          end
        else walk_level rest fringe this_path other_path
  end.

Definition _walk_fringe (this_level : list (node * mark))
    (fringe : list (node * mark)) (this_path other_path : gmap node marks)
  : res walk :=
  if backdoor && bool_decide (this_level = [(x, Start)]) then
    _walk_to_parents x fringe this_path other_path
  else walk_level this_level fringe this_path other_path.

(** *** [backtrace_path] *)

(** [if 'tail' in d[node]: mark = 'tail' else: mark = 'arrowhead'] *)
Definition first_mark (d : gmap node marks) (nd : node) : res mark :=
  ms <-- py_getitem d nd ;;
  Ok (if marks_has ms Tail then Tail else Arrowhead).

(** The mark assigned at the end of one round of either [while] loop. *)
Definition next_mark (d : gmap node marks) (nd : node) (mk : mark)
    (prev_node : node) (prev_mark : mark) : res mark :=
  match prev_mark with
  | Arrowhead =>
      Ok (if negb (py_in prev_node conds) then Tail else Arrowhead)
  | Tail =>
      ms <-- py_getitem d prev_node ;;
      Ok (if marks_has ms Tail
             && negb (bool_decide (m_tail ms = Some (nd, mk)))
          then Tail else Arrowhead)
  | Start => Ok mk
  end.

(** [while path[-1] != goal:] following the entries of [d]. *)
Fixpoint trace_while (fuel : nat) (d : gmap node marks) (goal : node)
    (path : list node) (nd : node) (mk : mark) : res (list node) :=
  match last path with
  | None => Raise IndexError
  | Some l =>
      if bool_decide (l = goal) then Ok path
      else
        match fuel with
        | O => OutOfFuel
        | S fuel' =>
            ms <-- py_getitem d nd ;;
            e <-- marks_get ms mk ;;
            let '(prev_node, prev_mark) := e in
            mk' <-- next_mark d nd mk prev_node prev_mark ;;
            trace_while fuel' d goal (path ++ [prev_node]) prev_node mk'
        end
  end.

Definition backtrace_path (fuel : nat) (found : node * mark)
    (pred succ : gmap node marks) (y : node) : res (list node) :=
  let '(nd, _) := found in
  mk <-- first_mark pred nd ;;
  path <-- trace_while fuel pred x [nd] nd mk ;;
  let path := rev path in
  mk <-- first_mark succ nd ;;
  trace_while fuel succ y path nd mk.

(** [while forward_fringe and reverse_fringe:].  The loop is left either
    with [found_connection] set, and then [pred] and [succ] are what
    [backtrace_path] reads, or with an empty fringe ([None]). *)
Fixpoint search_while (fuel : nat)
    (forward_fringe reverse_fringe : list (node * mark))
    (pred succ : gmap node marks)
  : res (option ((node * mark) * gmap node marks * gmap node marks)) :=
  match forward_fringe, reverse_fringe with
  | [], _ | _, [] => Ok None
  | _, _ =>
      match fuel with
      | O => OutOfFuel
      | S fuel' =>
          if (length forward_fringe <=? length reverse_fringe)%nat then
            w <-- _walk_fringe forward_fringe [] pred succ ;;
            match walk_found w with
            | Some fc => Ok (Some (fc, walk_path w, succ))
            | None =>
                search_while fuel' (walk_fringe w) reverse_fringe
                             (walk_path w) succ
            end
          else
            w <-- _walk_fringe reverse_fringe [] succ pred ;;
            match walk_found w with
            | Some fc => Ok (Some (fc, pred, walk_path w))
            | None =>
                search_while fuel' forward_fringe (walk_fringe w)
                             pred (walk_path w)
            end
      end
  end.

(** One round of [for y in Y] for the current [x]: the search, and on a
    connection [path = backtrace_path(); return path]. *)
Definition search_pair (fuel : nat) (y : node) : res (option (list node)) :=
  r <-- search_while fuel [(x, Start)] [(y, Start)]
          {[ x := marks_start ]} {[ y := marks_start ]} ;;
  match r with
  | Some (fc, pred, succ) =>
      path <-- backtrace_path fuel fc pred succ y ;;
      Ok (Some path)
  | None => Ok None
  end.

End has_any_path.

(** The two [for] loops over [X] and [Y]: the first path found is returned. *)
Fixpoint first_path {A : Type} (f : A -> res (option (list node)))
    (l : list A) : res (option (list node)) :=
  match l with
  | [] => Ok None
  | a :: l' =>
      r <-- f a ;;
      match r with
      | Some p => Ok (Some p)
      | None => first_path f l'
      end
  end.

(** [_has_any_path]: [Some path] for a path, [None] for [False]. *)
Definition _has_any_path (fuel : nat) (self : OracleCI) (X Y : list node)
    (conds : option (list node)) (max_lag : Z) (backdoor : bool)
  : res (option (list node)) :=
  let conds := match conds with Some c => c | None => [] end in
  let conds := filter (fun z => negb (py_in z Y) && negb (py_in z X)) conds in
  let conds := add_selection_conds self conds max_lag in
  children <-- _get_children self ;;
  first_path
    (fun x => first_path (search_pair self conds max_lag backdoor children x fuel) Y)
    X.

(** ** [_get_max_lag_from_XYZ] and [_is_dsep] *)

Definition _get_max_lag_from_XYZ (fuel : nat) (self : OracleCI)
    (X Y Zs : list node) : res Z :=
  rX <-- _get_non_blocked_ancestors fuel self X (Some Zs) non_repeating None ;;
  rY <-- _get_non_blocked_ancestors fuel self Y (Some Zs) non_repeating None ;;
  rZ <-- _get_non_blocked_ancestors fuel self Zs (Some Zs) non_repeating None ;;
  Ok (Z.max (Z.max rX.2 rY.2) rZ.2).

(** A method that writes to the object: the state after the call comes with
    the outcome, also when the call raises. *)
Definition method (A : Type) : Type := OracleState -> res A * OracleState.

Definition set_max_lag (m : Z) (st : OracleState) : OracleState :=
  {| dsepsets := dsepsets st; max_lag_attr := Some m; searches := searches st |}.

(** [if any_path:] on a value that is [False] or a list. *)
Definition truthy (any_path : option (list node)) : bool :=
  match any_path with
  | Some p => negb (bool_decide (p = []))
  | None => false
  end.

Definition _is_dsep (fuel : nat) (self : OracleCI) (X Y Zs : list node)
    (max_lag : option Z) : method bool :=
  fun st =>
    match (match max_lag with
           | Some m => Ok m
           | None => _get_max_lag_from_XYZ fuel self X Y Zs
           end) with
    | Ok max_lag =>
        let st := set_max_lag max_lag st in
        (any_path <-- _has_any_path fuel self X Y (Some Zs) max_lag false ;;
         Ok (if truthy any_path then false else true), st)
    | Raise e => (Raise e, st)
    | OutOfFuel => (OutOfFuel, st)
    end.

(** ** [run_test] and [get_measure] *)

(** A node as the caller writes it: a tuple of integers of any length. *)
Definition raw_node : Type := list Z.

(** [[(self.observed_vars[x[0]], x[1]) for x in X]] *)
Definition translate_node (self : OracleCI) (x : raw_node) : res node :=
  x0 <-- py_index x 0 ;;
  v <-- py_index (observed_vars self) x0 ;;
  x1 <-- py_index x 1 ;;
  Ok (v, x1).

Fixpoint translate (self : OracleCI) (X : list raw_node) : res (list node) :=
  match X with
  | [] => Ok []
  | x :: X' =>
      n <-- translate_node self x ;;
      ns <-- translate self X' ;;
      Ok (n :: ns)
  end.

(** The default [Z=None] cannot be iterated over. *)
Definition translate_opt (self : OracleCI) (Zs : option (list raw_node))
  : res (list node) :=
  match Zs with
  | Some Zs => translate self Zs
  | None => Raise TypeError
  end.

(** Lines 802-808: translation, then [self._check_XYZ]. *)
Definition canonical (self : OracleCI) (X Y : list raw_node)
    (Zs : option (list raw_node)) : res query :=
  X <-- translate self X ;;
  Y <-- translate self Y ;;
  Zs <-- translate_opt self Zs ;;
  _check_XYZ self X Y Zs.

Definition cache_store (k : query) (b : bool) (st : OracleState)
  : OracleState :=
  {| dsepsets := <[k := b]> (dsepsets st);
     max_lag_attr := max_lag_attr st;
     searches := searches st |}.

Definition count_search (st : OracleState) : OracleState :=
  {| dsepsets := dsepsets st;
     max_lag_attr := max_lag_attr st;
     searches := S (searches st) |}.

(** Lines 810-811 (and 856-857): answer from [self.dsepsets], running
    [_is_dsep] first when the key is not there yet. *)
Definition cached_dsep (fuel : nat) (self : OracleCI) (k : query)
  : method bool :=
  fun st =>
    match dsepsets st !! k with
    | Some b => (Ok b, st)
    | None =>
        let '(X, Y, Zs) := k in
        match _is_dsep fuel self X Y Zs None (count_search st) with
        | (Ok b, st') => (Ok b, cache_store k b st')
        | (Raise e, st') => (Raise e, st')
        | (OutOfFuel, st') => (OutOfFuel, st')
        end
    end.

Definition run_test (fuel : nat) (self : OracleCI) (X Y : list raw_node)
    (Zs : option (list raw_node)) (tau_max : Z) (cut_off : string)
    (verbosity : Z) : method (Q * Q) :=
  fun st =>
    match canonical self X Y Zs with
    | Ok k =>
        match cached_dsep fuel self k st with
        | (Ok b, st') => (Ok (if b then (0%Q, 1%Q) else (1%Q, 0%Q)), st')
        | (Raise e, st') => (Raise e, st')
        | (OutOfFuel, st') => (OutOfFuel, st')
        end
    | Raise e => (Raise e, st)
    | OutOfFuel => (OutOfFuel, st)
    end.

(** Line 854 calls [_check_XYZ] as a bare name.  The module binds no such
    name (the only [_check_XYZ] is the method of the class), so looking it
    up raises [NameError]. *)
Definition module_global__check_XYZ : res (list node -> list node -> list node -> res query) :=
  Raise NameError.

Definition get_measure (fuel : nat) (self : OracleCI) (X Y : list raw_node)
    (Zs : option (list raw_node)) (tau_max : Z) : method Q :=
  fun st =>
    match (X <-- translate self X ;;
           Y <-- translate self Y ;;
           Zs <-- translate_opt self Zs ;;
           check <-- module_global__check_XYZ ;;
           check X Y Zs) with
    | Ok k =>
        match cached_dsep fuel self k st with
        | (Ok b, st') => (Ok (if b then 0%Q else 1%Q), st')
        | (Raise e, st') => (Raise e, st')
        | (OutOfFuel, st') => (OutOfFuel, st')
        end
    | Raise e => (Raise e, st)
    | OutOfFuel => (OutOfFuel, st)
    end.

(** ** [_reverse_patt] and [get_links_from_graph] *)

(** [patt[0], patt[1], patt[2]] raises on a string shorter than three. *)
Definition _reverse_patt (patt : string) : res string :=
  match patt with
  | EmptyString => Ok EmptyString
  | String left_mark (String middle_mark (String right_mark _)) =>
      let new_right_mark :=
        if Ascii.eqb left_mark "<" then ">"%char else left_mark in
      let new_left_mark :=
        if Ascii.eqb right_mark ">" then "<"%char else right_mark in
      Ok (String new_left_mark (String middle_mark
            (String new_right_mark EmptyString)))
  | _ => Raise IndexError
  end.

(** The array [graph] as it is documented: its dtype test, its shape
    [(N, N, tau_max + 1)] and its cells.  Arrays of any other shape are
    [array3] below. *)
Record graph_array : Type := mkGraph {
  dtype_has_U3 : bool;
  g_N : Z;
  g_tau_maxplusone : Z;
  cell : Z -> Z -> Z -> string
}.

(** The index triples that [np.where(graph)] yields: the non-empty cells in
    row-major order. *)
Definition np_where (graph : graph_array) : list (Z * Z * Z) :=
  i ← py_range 0 (g_N graph);
  j ← py_range 0 (g_N graph);
  tau ← py_range 0 (g_tau_maxplusone graph);
  if bool_decide (cell graph i j tau = EmptyString) then []
  else [(i, j, tau)].

(** What the loop carries along: [links], [selection_vars], [latent_index]. *)
Record compile_state : Type := mkCompile {
  c_links : gmap Z (list link_props);
  c_selection_vars : list Z;
  c_latent_index : Z
}.

(** [links[k].append((i, tau))] *)
Definition links_append (lk : gmap Z (list link_props)) (k : Z)
    (i tau : Z) : res (gmap Z (list link_props)) :=
  l <-- py_getitem lk k ;;
  Ok (<[k := l ++ [Link2 i tau]]> lk).

(** Lines 945-961: what happens to a cell before its edge type is looked
    at.  [true] stands for [continue]. *)
Definition cell_skipped (graph : graph_array) (i j tau : Z) : res bool :=
  if tau =? 0 then
    r <-- _reverse_patt (cell graph j i 0) ;;
    if negb (bool_decide (cell graph i j 0 = r)) then Raise ValueError
    else Ok (j >? i)
  else
    if negb (py_in (cell graph i j tau) ["-->"; "<->"; "---"]%string)
    then Raise ValueError
    else Ok false.

(** Lines 963-979: the edge type decides what is added. *)
Definition add_edge (graph : graph_array) (i j tau : Z) (st : compile_state)
  : res compile_state :=
  let edge_type := cell graph i j tau in
  let latent_index := c_latent_index st in
  if bool_decide (edge_type = "-->"%string) then
    lk <-- links_append (c_links st) j i (- tau) ;;
    Ok (mkCompile lk (c_selection_vars st) latent_index)
  else if bool_decide (edge_type = "<--"%string) then
    lk <-- links_append (c_links st) i j (- tau) ;;
    Ok (mkCompile lk (c_selection_vars st) latent_index)
  else if bool_decide (edge_type = "<->"%string) then
    let lk := <[latent_index := []]> (c_links st) in
    lk <-- links_append lk i latent_index 0 ;;
    lk <-- links_append lk j latent_index (- tau) ;;
    Ok (mkCompile lk (c_selection_vars st) (latent_index + 1))
  else if bool_decide (edge_type = "---"%string) then
    let lk := <[latent_index := []]> (c_links st) in
    let selection_vars := c_selection_vars st ++ [latent_index] in
    lk <-- links_append lk latent_index i (- tau) ;;
    lk <-- links_append lk latent_index j 0 ;;
    Ok (mkCompile lk selection_vars (latent_index + 1))
  else Ok st.

(** The body of the loop over the triples [i, j, tau] of [np.where(graph)]. *)
Definition compile_cell (graph : graph_array) (st : compile_state)
    (c : Z * Z * Z) : res compile_state :=
  let '(i, j, tau) := c in
  skip <-- cell_skipped graph i j tau ;;
  if skip then Ok st else add_edge graph i j tau st.

Definition compile_init (graph : graph_array) : compile_state :=
  {| c_links := list_to_map (map (fun j => (j, [])) (py_range 0 (g_N graph)));
     c_selection_vars := [];
     c_latent_index := g_N graph |}.

(** The result is [(links, observed_vars, selection_vars)]. *)
Definition get_links_from_graph (graph : graph_array)
  : res (gmap Z (list link_props) * list Z * list Z) :=
  if negb (dtype_has_U3 graph) then Raise ValueError
  else
    let observed_vars := py_range 0 (g_N graph) in
    st <-- for_each (compile_cell graph) (np_where graph) (compile_init graph) ;;
    Ok (c_links st, observed_vars, c_selection_vars st).

(** *** [get_links_from_graph] on an array of any shape

    [graph_array] above is an array of the documented shape
    [(N, N, tau_max + 1)].  The code takes any three-dimensional array:
    [N, N, tau_maxplusone = graph.shape] binds [N] twice and leaves it at
    [graph.shape[1]], the loop over [np.where(graph)] lets [i] range over
    [graph.shape[0]], and numpy refuses [graph[j, i, 0]] with [IndexError]
    when [j] or [i] lies outside the shape. *)
Record array3 : Type := mkArray {
  a_dtype_has_U3 : bool;
  a_shape0 : Z;
  a_shape1 : Z;
  a_shape2 : Z;
  a_cell : Z -> Z -> Z -> string
}.

(** One index of [graph[i, j, tau]] along an axis of length [n]: negative
    indices count from the end, anything outside [-n, n) raises
    [IndexError]. *)
Definition np_axis (n i : Z) : res Z :=
  if (0 <=? i) && (i <? n) then Ok i
  else if (- n <=? i) && (i <? 0) then Ok (n + i)
  else Raise IndexError.

(** [graph[i, j, tau]] *)
Definition array_get (a : array3) (i j tau : Z) : res string :=
  i <-- np_axis (a_shape0 a) i ;;
  j <-- np_axis (a_shape1 a) j ;;
  tau <-- np_axis (a_shape2 a) tau ;;
  Ok (a_cell a i j tau).

(** The index triples that [np.where(graph)] yields: the non-empty cells in
    row-major order, [i] below [graph.shape[0]] and [j] below
    [graph.shape[1]]. *)
Definition array_where (a : array3) : list (Z * Z * Z) :=
  i ← py_range 0 (a_shape0 a);
  j ← py_range 0 (a_shape1 a);
  tau ← py_range 0 (a_shape2 a);
  if bool_decide (a_cell a i j tau = EmptyString) then []
  else [(i, j, tau)].

(** The array read with the one size [N = graph.shape[1]] that the code
    goes by after line 932. *)
Definition as_graph (a : array3) : graph_array :=
  {| dtype_has_U3 := a_dtype_has_U3 a; g_N := a_shape1 a;
     g_tau_maxplusone := a_shape2 a; cell := a_cell a |}.

(** Lines 945-961 on any array.  The cell [(i, j, tau)] itself comes from
    [np.where(graph)] and is there; the lookup of the mirror cell
    [graph[j, i, 0]] can fail. *)
Definition array_cell_skipped (a : array3) (i j tau : Z) : res bool :=
  if tau =? 0 then
    c <-- array_get a j i 0 ;;
    r <-- _reverse_patt c ;;
    if negb (bool_decide (a_cell a i j 0 = r)) then Raise ValueError
    else Ok (j >? i)
  else
    if negb (py_in (a_cell a i j tau) ["-->"; "<->"; "---"]%string)
    then Raise ValueError
    else Ok false.

Definition array_compile_cell (a : array3) (st : compile_state)
    (c : Z * Z * Z) : res compile_state :=
  let '(i, j, tau) := c in
  skip <-- array_cell_skipped a i j tau ;;
  if skip then Ok st else add_edge (as_graph a) i j tau st.

(** [get_links_from_graph] as it runs on any three-dimensional array:
    [observed_vars], the first keys of [links] and [latent_index] go by
    [graph.shape[1]], the loop by [np.where(graph)]. *)
Definition get_links_from_array (a : array3)
  : res (gmap Z (list link_props) * list Z * list Z) :=
  if negb (a_dtype_has_U3 a) then Raise ValueError
  else
    let observed_vars := py_range 0 (a_shape1 a) in
    st <-- for_each (array_compile_cell a) (array_where a)
             (compile_init (as_graph a)) ;;
    Ok (c_links st, observed_vars, c_selection_vars st).

(** The array of shape [(N, N, tau_max + 1)] with the cells of [graph]. *)
Definition square_array (graph : graph_array) : array3 :=
  {| a_dtype_has_U3 := dtype_has_U3 graph; a_shape0 := g_N graph;
     a_shape1 := g_N graph; a_shape2 := g_tau_maxplusone graph;
     a_cell := cell graph |}.

(** ** [__init__] *)

(** The three tests made on [observed_vars] and on [selection_vars]. *)
Definition check_vars (N : Z) (vars : list Z) : res unit :=
  if negb (forallb (fun v => py_in v (py_range 0 N)) vars) then Raise ValueError
  else if negb (bool_decide (vars = sorted vars)) then Raise ValueError
  else if negb (bool_decide (NoDup vars)) then Raise ValueError
  else Ok tt.

Definition __init__ (links : option (gmap Z (list link_props)))
    (observed_vars selection_vars : option (list Z))
    (graph : option graph_array) (verbosity : Z)
  : res (OracleCI * OracleState) :=
  r <-- match links with
        | Some l => Ok (l, observed_vars, selection_vars)
        | None =>
            match graph with
            | None => Raise ValueError
            | Some g =>
                r <-- get_links_from_graph g ;;
                let '(l, o, s) := r in Ok (l, Some o, Some s)
            end
        end ;;
  let '(links, observed_vars, selection_vars) := r in
  let N := Z.of_nat (size links) in
  observed_vars <-- match observed_vars with
                    | None => Ok (py_range 0 N)
                    | Some o => _ <-- check_vars N o ;; Ok o
                    end ;;
  selection_vars <-- match selection_vars with
                     | Some s => _ <-- check_vars N s ;; Ok s
                     | None => Ok []
                     end ;;
  Ok ({| links := links; N := N; observed_vars := observed_vars;
         selection_vars := selection_vars; verbosity := verbosity |},
      fresh_state).

(** ** Statements: what the properties below are phrased with *)

(** The pair [run_test] makes of a cached verdict. *)
Definition verdict_pair (b : bool) : Q * Q :=
  if b then (0%Q, 1%Q) else (1%Q, 0%Q).

(** The key a call of [run_test] was answered under: the canonical form of
    its query when the call returned, nothing otherwise. *)
Definition answered_key (self : OracleCI) (X Y : list raw_node)
    (Zs : option (list raw_node)) (r : res (Q * Q)) : list query :=
  match r, canonical self X Y Zs with
  | Ok _, Ok k => [k]
  | _, _ => []
  end.

(** Whether a call of [run_test] started a search that did not return: the
    query was accepted and the call gave no result. *)
Definition search_failed (self : OracleCI) (X Y : list raw_node)
    (Zs : option (list raw_node)) (r : res (Q * Q)) : nat :=
  if is_Ok (canonical self X Y Zs) && negb (is_Ok r) then 1%nat else 0%nat.

(** [served self st ks f st']: calls of [run_test] on the object, whatever
    their arguments and whatever their outcome, take it from [st] to [st'];
    [ks] lists the keys of the calls that returned, oldest first, and [f]
    counts the calls whose search did not return. *)
Inductive served (self : OracleCI)
  : OracleState → list query → nat → OracleState → Prop :=
  | served_nil st : served self st [] 0 st
  | served_call st st1 st2 fuel X Y Zs tau_max cut_off verbosity r ks f :
      run_test fuel self X Y Zs tau_max cut_off verbosity st = (r, st1) →
      served self st1 ks f st2 →
      served self st (answered_key self X Y Zs r ++ ks)
             (search_failed self X Y Zs r + f) st2.

(** The ways in which a query breaks the invariants of a query key, read on
    the nodes after the translation to the full variable set. *)
Inductive violation (self : OracleCI) (X Y : list raw_node)
    (Zs : list raw_node) : Prop :=
  | bad_shape x :
      x ∈ X ++ Y ++ Zs → (length x < 2)%nat → violation self X Y Zs
  | positive_lag X' Y' Z' n :
      translate self X = Ok X' → translate self Y = Ok Y' →
      translate self Zs = Ok Z' →
      n ∈ X' ++ Y' ++ Z' → 0 < n.2 → violation self X Y Zs
  | bad_index X' Y' Z' n :
      translate self X = Ok X' → translate self Y = Ok Y' →
      translate self Zs = Ok Z' →
      n ∈ X' ++ Y' ++ Z' → ¬ (0 <= n.1 < N self) → violation self X Y Zs
  | no_zero_lag X' Y' Z' :
      translate self X = Ok X' → translate self Y = Ok Y' →
      translate self Zs = Ok Z' →
      (∀ n, n ∈ fromkeys Y' → n.2 ≠ 0) → violation self X Y Zs.

(** While a graph is compiled the keys of [links] are the indices below
    [latent_index]. *)
Definition compile_inv (st : compile_state) : Prop :=
  0 <= c_latent_index st
  ∧ ∀ k, is_Some (c_links st !! k) ↔ 0 <= k < c_latent_index st.

(** ** Example objects *)

(** The graph [0 --> 1] at lag 0, written in both cells as the consistency
    test asks. *)
Definition graph_arrow : graph_array :=
  {| dtype_has_U3 := true; g_N := 2; g_tau_maxplusone := 1;
     cell := fun i j tau =>
       if (i =? 0) && (j =? 1) && (tau =? 0) then "-->"%string
       else if (i =? 1) && (j =? 0) && (tau =? 0) then "<--"%string
       else EmptyString |}.

(** The graph with the single lagged cell [graph[0, 0, 1] = "---"]. *)
Definition graph_selection : graph_array :=
  {| dtype_has_U3 := true; g_N := 1; g_tau_maxplusone := 2;
     cell := fun i j tau =>
       if (i =? 0) && (j =? 0) && (tau =? 1) then "---"%string
       else EmptyString |}.


(** An array of shape [(3, 1, 2)] with the one cell
    [graph[2, 0, 1] = "<->"]. *)
Definition array_tall : array3 :=
  {| a_dtype_has_U3 := true; a_shape0 := 3; a_shape1 := 1; a_shape2 := 2;
     a_cell := fun i j tau =>
       if (i =? 2) && (j =? 0) && (tau =? 1) then "<->"%string
       else EmptyString |}.

(** The same shape with [graph[2, 0, 1] = "-->"]. *)
Definition array_tall_arrow : array3 :=
  {| a_dtype_has_U3 := true; a_shape0 := 3; a_shape1 := 1; a_shape2 := 2;
     a_cell := fun i j tau =>
       if (i =? 2) && (j =? 0) && (tau =? 1) then "-->"%string
       else EmptyString |}.

(** [OracleCI(links={0: [(1, 0), (1, -1)], 1: []})] *)
Definition oracle_two_lags : OracleCI :=
  {| links := {[ 0 := [Link2 1 0; Link2 1 (-1)]; 1 := [] ]}; N := 2;
     observed_vars := [0; 1]; selection_vars := []; verbosity := 0 |}.

(** [OracleCI(links={0: [(1, -1)], 1: []}, selection_vars=[1])] *)
Definition oracle_selected : OracleCI :=
  {| links := {[ 0 := [Link2 1 (-1)]; 1 := [] ]}; N := 2;
     observed_vars := [0; 1]; selection_vars := [1]; verbosity := 0 |}.

(** [OracleCI(links={0: [], 1: [(0, -1)]})] *)
Definition oracle_chain : OracleCI :=
  {| links := {[ 0 := []; 1 := [Link2 0 (-1)] ]}; N := 2;
     observed_vars := [0; 1]; selection_vars := []; verbosity := 0 |}.

(** The state of [oracle_chain] after its first query. *)
Definition state_chain : OracleState :=
  {| dsepsets := {[ ([(0, -1)], [(1, 0)], []) := false ]};
     max_lag_attr := Some 1; searches := 1 |}.

(** The state of [oracle_chain] after a second query, with another key. *)
Definition state_chain_two : OracleState :=
  {| dsepsets := {[ ([(0, -1)], [(1, 0)], []) := false;
                    ([(1, -1)], [(1, 0)], []) := true ]};
     max_lag_attr := Some 2; searches := 2 |}.

(** Ten variables at lag 0: [0 -> 1], [1 -> 2], [1 -> 3], the collider
    [3 -> 4 <- 2] with a third parent [5 -> 4], the chain [7 -> 6 -> 5], and
    two more parents [8], [9] of [7]. *)
Definition links_ex : gmap Z (list link_props) :=
  {[ 0 := []; 1 := [Link2 0 0]; 2 := [Link2 1 0]; 3 := [Link2 1 0];
     4 := [Link2 3 0; Link2 2 0; Link2 5 0]; 5 := [Link2 6 0];
     6 := [Link2 7 0]; 7 := [Link2 8 0; Link2 9 0]; 8 := []; 9 := [] ]}.

Definition oracle_ex : OracleCI :=
  {| links := links_ex; N := 10; observed_vars := py_range 0 10;
     selection_vars := []; verbosity := 0 |}.

Definition children_ex : gmap Z (list node) :=
  Eval vm_compute in
    match _get_children oracle_ex with Ok c => c | _ => ∅ end.

(** What the search between [(0, 0)] and [(7, 0)] given [(4, 0)] leaves
    behind at the moment it finds the connection. *)
Definition search_ex
  : res (option ((node * mark) * gmap node marks * gmap node marks)) :=
  Eval vm_compute in
    search_while oracle_ex [(4, 0)] 0 false children_ex (0, 0) 6
      [((0, 0), Start)] [((7, 0), Start)]
      {[ (0, 0) := marks_start ]} {[ (7, 0) := marks_start ]}.

Definition pred_ex : gmap node marks :=
  match search_ex with Ok (Some (_, p, _)) => p | _ => ∅ end.

(** The states the first loop of [backtrace_path] runs through on
    [pred_ex]. *)
Definition trapped_ex (nd : node) (mk : mark) : Prop :=
  (nd, mk) ∈ [((6, 0), Tail); ((5, 0), Tail); ((4, 0), Arrowhead);
              ((2, 0), Arrowhead); ((1, 0), Tail); ((3, 0), Tail)].

(** ** [get_shortest_path] *)

(** The attributes [anc_all_x], [anc_all_y] and [anc_all_z] of the object:
    unset until a call with [compute_ancestors] writes them. *)
Record anc_attrs : Type := mkAncAttrs {
  anc_all_x : option (gmap node (list node));
  anc_all_y : option (gmap node (list node));
  anc_all_z : option (gmap node (list node))
}.

(** [[node for node in any_path if node[0] in self.observed_vars]], or
    [False] ([None]) when there is no path. *)
Definition observed_path (self : OracleCI) (any_path : option (list node))
  : option (list node) :=
  match any_path with
  | Some p =>
      if truthy any_path
      then Some (filter (fun nd : node => py_in nd.1 (observed_vars self)) p)
      else None
  | None => None
  end.

(** The three ancestor searches under [if compute_ancestors:], each writing
    its attribute as soon as it returns. *)
Definition compute_ancestors_attrs (fuel : nat) (self : OracleCI)
    (X Y Zs : list node) (max_lag : Z) (a : anc_attrs)
  : res unit * anc_attrs :=
  match _get_non_blocked_ancestors fuel self X (Some Zs) max_lag_mode
          (Some max_lag) with
  | Ok rx =>
      let a := {| anc_all_x := Some rx.1; anc_all_y := anc_all_y a;
                  anc_all_z := anc_all_z a |} in
      match _get_non_blocked_ancestors fuel self Y (Some Zs) max_lag_mode
              (Some max_lag) with
      | Ok ry =>
          let a := {| anc_all_x := anc_all_x a; anc_all_y := Some ry.1;
                      anc_all_z := anc_all_z a |} in
          match _get_non_blocked_ancestors fuel self Zs (Some Zs)
                  max_lag_mode (Some max_lag) with
          | Ok rz =>
              (Ok tt, {| anc_all_x := anc_all_x a; anc_all_y := anc_all_y a;
                         anc_all_z := Some rz.1 |})
          | Raise e => (Raise e, a)
          | OutOfFuel => (OutOfFuel, a)
          end
      | Raise e => (Raise e, a)
      | OutOfFuel => (OutOfFuel, a)
      end
  | Raise e => (Raise e, a)
  | OutOfFuel => (OutOfFuel, a)
  end.

(** [get_shortest_path]: the path restricted to the observed variables, or
    [None] for [False]. *)
Definition get_shortest_path (fuel : nat) (self : OracleCI)
    (X Y Zs : list raw_node) (max_lag : option Z)
    (compute_ancestors backdoor : bool) (st : OracleState) (a : anc_attrs)
  : res (option (list node)) * (OracleState * anc_attrs) :=
  match (X <-- translate self X ;;
         Y <-- translate self Y ;;
         Zs <-- translate self Zs ;;
         _check_XYZ self X Y Zs) with
  | Ok (X, Y, Zs) =>
      match (match max_lag with
             | Some m => Ok m
             | None => _get_max_lag_from_XYZ fuel self X Y Zs
             end) with
      | Ok max_lag =>
          let st := set_max_lag max_lag st in
          match _has_any_path fuel self X Y (Some Zs) max_lag backdoor with
          | Ok any_path =>
              let any_path_observed := observed_path self any_path in
              if compute_ancestors then
                match compute_ancestors_attrs fuel self X Y Zs max_lag a with
                | (Ok _, a) => (Ok any_path_observed, (st, a))
                | (Raise e, a) => (Raise e, (st, a))
                | (OutOfFuel, a) => (OutOfFuel, (st, a))
                end
              else (Ok any_path_observed, (st, a))
          | Raise e => (Raise e, (st, a))
          | OutOfFuel => (OutOfFuel, (st, a))
          end
      | Raise e => (Raise e, (st, a))
      | OutOfFuel => (OutOfFuel, (st, a))
      end
  | Raise e => (Raise e, (st, a))
  | OutOfFuel => (OutOfFuel, (st, a))
  end.

(** No attribute written yet. *)
Definition no_attrs : anc_attrs :=
  {| anc_all_x := None; anc_all_y := None; anc_all_z := None |}.

(** ** Statements: links, compiled graphs, ancestors *)

(** The graph with the single lagged cell [graph[0, 0, 1] = "<--"]. *)
Definition graph_lagged_reverse : graph_array :=
  {| dtype_has_U3 := true; g_N := 1; g_tau_maxplusone := 2;
     cell := fun i j tau =>
       if (i =? 0) && (j =? 0) && (tau =? 1) then "<--"%string
       else EmptyString |}.

(** A links dictionary of the form the class works on: its keys are
    [0 .. len(links) - 1], and every entry names a key as its source. *)
Definition links_closed (lk : gmap Z (list link_props)) : Prop :=
  (∀ k, is_Some (lk !! k) ↔ 0 <= k < Z.of_nat (size lk))
  ∧ ∀ k l lp, lk !! k = Some l → lp ∈ l → is_Some (lk !! (link_source lp).1).

(** Every entry points into the past or the present. *)
Definition links_lag_nonpos (lk : gmap Z (list link_props)) : Prop :=
  ∀ k l lp, lk !! k = Some l → lp ∈ l → (link_source lp).2 <= 0.

(** The entries of [links] while a graph is compiled: pairs [(i, tau)] with
    [i] below [latent_index] and [tau <= 0]. *)
Definition compile_entries (st : compile_state) : Prop :=
  ∀ k l lp, c_links st !! k = Some l → lp ∈ l →
    ∃ i t, lp = Link2 i t ∧ 0 <= i < c_latent_index st ∧ t <= 0.

(** The selection variables while a graph with [n] variables is compiled:
    synthetic indices, in increasing order. *)
Definition compile_selection (n : Z) (st : compile_state) : Prop :=
  n <= c_latent_index st
  ∧ StronglySorted Z.lt (c_selection_vars st)
  ∧ ∀ s, s ∈ c_selection_vars st → n <= s < c_latent_index st.

(** From [st] to [st'] nothing is lost while a graph with [n] variables is
    compiled: a parent list only gets longer, the parent list of a synthetic
    variable stays as it is, and a selection variable stays one. *)
Definition compile_grows (n : Z) (st st' : compile_state) : Prop :=
  (∀ k l, c_links st !! k = Some l →
     ∃ l', c_links st' !! k = Some l'
           ∧ (∀ lp, lp ∈ l → lp ∈ l') ∧ (n <= k → l' = l))
  ∧ ∀ s, s ∈ c_selection_vars st → s ∈ c_selection_vars st'.

(** The graph [0 <-> 1] at lag 0, written in both cells. *)
Definition graph_bidirected : graph_array :=
  {| dtype_has_U3 := true; g_N := 2; g_tau_maxplusone := 1;
     cell := fun i j tau =>
       if ((i =? 0) && (j =? 1) || (i =? 1) && (j =? 0)) && (tau =? 0)
       then "<->"%string else EmptyString |}.

(** The entry [lp] of [links[j]] makes [(j, t)] a child of [i]. *)
Definition child_entry (i j t : Z) (lp : link_props) : Prop :=
  coeff_nonzero (link_coeff lp) = true
  ∧ (link_source lp).1 = i ∧ Z.abs (link_source lp).2 = t.

(** The table [children] after the entries [processed] of [links] have been
    gone through: it has the keys [0 .. n - 1], and its entries are the
    processed entries of [links], turned round. *)
Definition children_of (n : Z) (processed : list (Z * link_props))
    (children : gmap Z (list node)) : Prop :=
  (∀ i, is_Some (children !! i) ↔ 0 <= i < n)
  ∧ ∀ i j t, (∃ cs, children !! i = Some cs ∧ (j, t) ∈ cs)
             ↔ ∃ lp, (j, lp) ∈ processed ∧ child_entry i j t lp.

(** [w] is a lagged parent of [v], and the ancestors of a node. *)
Definition parent_of (self : OracleCI) (w v : node) : Prop :=
  ∃ ps, _get_lagged_parents self v false = Ok ps ∧ w ∈ ps.

Definition ancestor_of (self : OracleCI) : relation node :=
  tc (parent_of self).

(** What the ancestor search keeps true of the lists it builds, for the
    conditions [conds] it tests against and a bound [m] on the lags: no list
    has a node twice, and every node in the list of [y] is an ancestor of
    [y], is no condition, and lies within the bound. *)
Definition ancestors_sound (self : OracleCI) (conds : list node) (m : Z)
    (ancs : gmap node (list node)) : Prop :=
  ∀ y l, ancs !! y = Some l →
    NoDup l
    ∧ ∀ a, a ∈ l →
        ancestor_of self a y ∧ (a ∉ conds) ∧ Z.abs a.2 <= Z.abs m.

(** What [_repeating] compares of a link [(par, varlag)]: the two variables
    and the absolute difference of the two lags. *)
Definition link_type (link : node * node) : Z * Z * Z :=
  let '((i, taui), (j, tauj)) := link in (i, j, Z.abs (tauj - taui)).

(** The types of the links that [links] gives rise to, one for each entry. *)
Definition all_link_types (self : OracleCI) : list (Z * Z * Z) :=
  jl ← map_to_list (links self);
  lp ← jl.2;
  [((link_source lp).1, jl.1, Z.abs (link_source lp).2)].

(** The number of entries of [links]. *)
Definition links_count (self : OracleCI) : nat :=
  length (all_link_types self).

(** The links seen by a round of the ancestor search in mode
    ['non_repeating']: no two of one type, and each the type of an entry
    of [links]. *)
Definition seen_inv (self : OracleCI) (st : anc_state) : Prop :=
  NoDup (link_type <$> seen_links st)
  ∧ ∀ t, t ∈ link_type <$> seen_links st → t ∈ all_link_types self.

(** How often the pair [src] stands in a parent list. *)
Definition entry_count (src : node) (l : list link_props) : nat :=
  length (filter (fun lp => link_source lp = src) l).

(** The cell [c] is one whose processing appends [(a, 0)] to [links[b]]. *)
Definition inserts_link (graph : graph_array) (a b : Z) (c : Z * Z * Z)
  : Prop :=
  let '(i, j, tau) := c in
  cell_skipped graph i j tau = Ok false ∧ tau = 0
  ∧ (cell graph i j tau = "-->"%string ∧ i = a ∧ j = b
     ∨ cell graph i j tau = "<--"%string ∧ j = a ∧ i = b).



(** ** Statements about the searches *)

(** An outcome that is not an exception and, when it is a value, has the
    property [P]. *)
Definition safe {A : Type} (P : A → Prop) (r : res A) : Prop :=
  match r with
  | Ok a => P a
  | Raise _ => False
  | OutOfFuel => True
  end.

(** The invariant of the loops of the ancestor search that work on the
    seed [y]. *)
Definition anc_inv (self : OracleCI) (md : mode) (conds : list node)
    (y : node) (st : anc_state) : Prop :=
  ancestors_sound self conds (anc_max_lag st) (ancestors st)
  ∧ (is_non_repeating md = true → 0 <= anc_max_lag st)
  ∧ ∀ v, v ∈ next_level st → ancestor_of self v y.

(** The lists of the seeds seen so far stay in place, the list of [y] is
    there, and the next level is made of nodes of variables of [links]. *)
Definition anc_keys (self : OracleCI) (y : node) (keys : list node)
    (st : anc_state) : Prop :=
  (∀ k, k ∈ keys → is_Some (ancestors st !! k))
  ∧ is_Some (ancestors st !! y)
  ∧ ∀ v, v ∈ next_level st → is_Some (links self !! v.1).

(** The node [s.1] carries the mark [s.2] in [P]. *)
Definition marked (P : gmap node marks) (s : node * mark) : Prop :=
  ∃ d, P !! s.1 = Some d ∧ marks_has d s.2 = true.

(** The states a walk can put on a fringe: the nodes of the variables [vs]
    at the lags [0 .. max_lag], reached through a tail or an arrowhead. *)
Definition window_states (vs : list Z) (max_lag : Z) : list (node * mark) :=
  v ← vs; t ← py_range 0 (max_lag + 1); m ← [Tail; Arrowhead];
  [((v, - t), m)].

(** The variables that occur as a source of a link or as a child, each
    once. *)
Definition search_vars (self : OracleCI) (children : gmap Z (list node))
  : list Z :=
  remove_dups
    (((fun t : Z * Z * Z => t.1.1) <$> all_link_types self)
     ++ (jl ← map_to_list children; c ← jl.2; [c.1])).

(** The states [L] put on the fringes of one direction of the search so
    far: each once, each marked in [P], each a state of the window [U]. *)
Definition walk_inv (U L : list (node * mark)) (P : gmap node marks)
  : Prop :=
  NoDup L ∧ ∀ s, s ∈ L → marked P s ∧ s ∈ U.

(** What a walk does to the fringe and to the marks, as an outcome: it
    appends to the fringe, keeps [walk_inv], and does not run out of
    steps. *)
Definition walk_ok (U : list (node * mark)) (fringe : list (node * mark))
    (L : list (node * mark)) (r : res walk) : Prop :=
  match r with
  | Ok w => ∃ new, walk_fringe w = fringe ++ new
                   ∧ walk_inv U (L ++ new) (walk_path w)
  | Raise _ => True
  | OutOfFuel => False
  end.

(** A fringe of nodes whose variables are keys of [links]. *)
Definition key_nodes (self : OracleCI) (l : list (node * mark)) : Prop :=
  ∀ s, s ∈ l → is_Some (links self !! s.1.1).

(** [w] is a lagged child of [v] in the table [children]. *)
Definition child_of (children : gmap Z (list node)) (w v : node) : Prop :=
  ∃ cs, _get_lagged_children v children false = Ok cs ∧ w ∈ cs.

(** What the entries of [pred] and [succ] record: the node under ['tail']
    in the dictionary of [w] is one that [w] is a parent of, the node under
    ['arrowhead'] one that [w] is a child of. *)
Definition marks_linked (self : OracleCI) (children : gmap Z (list node))
    (P : gmap node marks) : Prop :=
  ∀ w d, P !! w = Some d →
    (∀ e, m_tail d = Some e → parent_of self w e.1)
    ∧ (∀ e, m_arrowhead d = Some e → child_of children w e.1).

(** Two nodes one walk step apart, in either direction. *)
Definition adjacent (self : OracleCI) (children : gmap Z (list node))
  : relation node :=
  fun a b => (parent_of self a b ∨ child_of children a b)
             ∨ (parent_of self b a ∨ child_of children b a).

(** Two nodes joined by a link of the time series graph. *)
Definition linked (self : OracleCI) : relation node :=
  fun a b => parent_of self a b ∨ parent_of self b a.

(** The marks of a walk that returned are linked. *)
Definition walk_linked (self : OracleCI) (children : gmap Z (list node))
    (r : res walk) : Prop :=
  ∀ w, r = Ok w → marks_linked self children (walk_path w).

(** * Properties *)

(** ** Python helpers *)

Lemma py_in_true `{EqDecision A} (x : A) (l : list A) :
  py_in x l = true ↔ x ∈ l.
Proof. unfold py_in. apply bool_decide_eq_true. Qed.

Lemma py_in_false `{EqDecision A} (x : A) (l : list A) :
  py_in x l = false ↔ x ∉ l.
Proof. unfold py_in. apply bool_decide_eq_false. Qed.

Lemma elem_of_py_range (lo hi k : Z) : k ∈ py_range lo hi ↔ lo <= k < hi.
Proof.
  unfold py_range. rewrite list_elem_of_fmap. split.
  - intros (n & -> & Hn). apply elem_of_seq in Hn. lia.
  - intros Hk. exists (Z.to_nat (k - lo)). split; [lia|].
    apply elem_of_seq. lia.
Qed.

Lemma py_index_length {A : Type} (l : list A) (i : Z) (a : A) :
  py_index l i = Ok a → - Z.of_nat (length l) <= i < Z.of_nat (length l).
Proof.
  unfold py_index. intros H.
  destruct ((0 <=? i) && (i <? Z.of_nat (length l))) eqn:E1; [lia|].
  destruct ((- Z.of_nat (length l) <=? i) && (i <? 0)) eqn:E2; [lia|].
  discriminate.
Qed.

Lemma py_index_not_out_of_fuel {A : Type} (l : list A) (i : Z) :
  py_index l i ≠ OutOfFuel.
Proof. unfold py_index. repeat case_match; done. Qed.

Lemma elem_of_fromkeys_acc `{EqDecision A} (l seen : list A) (x : A) :
  x ∈ fromkeys_acc seen l ↔ x ∈ l ∧ x ∉ seen.
Proof.
  revert seen. induction l as [|a l IH]; intros seen; simpl.
  - set_solver.
  - destruct (py_in a seen) eqn:E.
    + apply py_in_true in E. rewrite IH. set_solver.
    + apply py_in_false in E. rewrite elem_of_cons, IH, elem_of_cons.
      split.
      * intros [-> | [H1 H2]]; [tauto|]. set_solver.
      * intros [[-> | H1] H2]; [tauto|].
        destruct (decide (x = a)) as [->|Hne]; [tauto|]. right. set_solver.
Qed.

Lemma elem_of_fromkeys `{EqDecision A} (l : list A) (x : A) :
  x ∈ fromkeys l ↔ x ∈ l.
Proof. unfold fromkeys. rewrite elem_of_fromkeys_acc. set_solver. Qed.

Lemma for_each_inv {A S : Type} (P : S → Prop) (body : S → A → res S)
    (l : list A) (st st' : S) :
  (∀ s a s', P s → body s a = Ok s' → P s') →
  P st → for_each body l st = Ok st' → P st'.
Proof.
  intros Hstep. revert st. induction l as [|a l IH]; intros st HP; simpl.
  - intros; simplify_eq. done.
  - destruct (body st a) as [s1| |] eqn:E; simpl; try discriminate.
    eauto.
Qed.

Lemma for_each_cons {A S : Type} (body : S → A → res S) (a : A)
    (l : list A) (st : S) :
  for_each body (a :: l) st = (st' <-- body st a ;; for_each body l st').
Proof. reflexivity. Qed.

Lemma for_each_app {A S : Type} (body : S → A → res S) (l1 l2 : list A)
    (st : S) :
  for_each body (l1 ++ l2) st
  = (st' <-- for_each body l1 st ;; for_each body l2 st').
Proof.
  revert st. induction l1 as [|a l1 IH]; intros st; simpl; [done|].
  destruct (body st a); simpl; [apply IH | done | done].
Qed.

(** ** Validation of a query *)

Lemma translate_node_shape (self : OracleCI) (x : raw_node) (n : node) :
  translate_node self x = Ok n → (2 <= length x)%nat.
Proof.
  unfold translate_node. intros H.
  destruct (py_index x 0) eqn:E0; simpl in H; try discriminate.
  destruct (py_index (observed_vars self) a); simpl in H; try discriminate.
  destruct (py_index x 1) eqn:E1; simpl in H; try discriminate.
  apply py_index_length in E1. lia.
Qed.

Lemma translate_shape (self : OracleCI) (X : list raw_node) (X' : list node) :
  translate self X = Ok X' → Forall (fun x => (2 <= length x)%nat) X.
Proof.
  revert X'. induction X as [|x X IH]; intros X'; simpl; [constructor|].
  destruct (translate_node self x) eqn:E; simpl; try discriminate.
  destruct (translate self X) eqn:ET; simpl; try discriminate.
  intros _. constructor; eauto using translate_node_shape.
Qed.

Lemma translate_not_out_of_fuel (self : OracleCI) (X : list raw_node) :
  translate self X ≠ OutOfFuel.
Proof.
  induction X as [|x X IH]; simpl; [done|].
  unfold translate_node.
  destruct (py_index x 0) eqn:E0; simpl; try done.
  2:{ by apply py_index_not_out_of_fuel in E0. }
  destruct (py_index (observed_vars self) a) eqn:E1; simpl; try done.
  2:{ by apply py_index_not_out_of_fuel in E1. }
  destruct (py_index x 1) eqn:E2; simpl; try done.
  2:{ by apply py_index_not_out_of_fuel in E2. }
  destruct (translate self X); simpl; done.
Qed.

(** No node is lost by the cleaning at the head of [_check_XYZ]. *)
Lemma elem_of_cleaned (X Y Zs : list node) (n : node) :
  n ∈ X ++ Y ++ Zs →
  n ∈ fromkeys X ++ fromkeys Y
      ++ filter (fun n => negb (py_in n (fromkeys X))
                          && negb (py_in n (fromkeys Y))) (fromkeys Zs).
Proof.
  rewrite !elem_of_app, !elem_of_fromkeys.
  intros [H | [H | H]]; [tauto | tauto |].
  destruct (decide (n ∈ X)); [tauto|]. destruct (decide (n ∈ Y)); [tauto|].
  right; right. rewrite list_elem_of_filter. split.
  - apply andb_prop_intro; split; apply negb_prop_intro; intros H';
      apply Is_true_true in H'; apply py_in_true in H';
      rewrite elem_of_fromkeys in H'; done.
  - by apply elem_of_fromkeys.
Qed.

Lemma check_XYZ_rejects (self : OracleCI) (X Y Zs : list node) :
  (∃ n, n ∈ X ++ Y ++ Zs ∧ (0 < n.2 ∨ ¬ (0 <= n.1 < N self)))
  ∨ (∀ n, n ∈ fromkeys Y → n.2 ≠ 0) →
  ∃ e, _check_XYZ self X Y Zs = Raise e.
Proof.
  intros H. unfold _check_XYZ.
  pose proof (elem_of_cleaned X Y Zs) as Hcl.
  set (XYZ := fromkeys X ++ fromkeys Y ++ _) in *.
  destruct (bool_decide (XYZ = [])); [eauto|].
  destruct (existsb lag_positive XYZ) eqn:E1; [eauto|].
  destruct (existsb (var_out_of_range (N self)) XYZ) eqn:E2; [eauto|].
  destruct (bool_decide (fromkeys Y = [])); [eauto|].
  destruct (forallb lag_nonzero (fromkeys Y)) eqn:E3; [eauto|].
  exfalso. destruct H as [(n & Hn & Hbad) | Hall].
  - apply Hcl in Hn. apply list_elem_of_In in Hn. destruct Hbad as [Hp | Hi].
    + assert (existsb lag_positive XYZ = true); [|congruence].
      apply existsb_exists. exists n. split; [done|].
      unfold lag_positive. lia.
    + assert (existsb (var_out_of_range (N self)) XYZ = true); [|congruence].
      apply existsb_exists. exists n. split; [done|].
      unfold var_out_of_range. lia.
  - assert (forallb lag_nonzero (fromkeys Y) = true); [|congruence].
    apply forallb_forall. intros n Hn. apply list_elem_of_In in Hn.
    apply Hall in Hn. unfold lag_nonzero. lia.
Qed.

(** What [run_test] does turn down: a query with a node tuple of fewer
    than two components, or one that after the translation has a node with
    a positive lag, a node whose variable is outside [0, N), or no node of
    Y at lag 0.  It raises and leaves the object, and with it the cache, as
    it was. *)
Lemma run_test_rejects_violation (fuel : nat) (self : OracleCI)
    (X Y Zs : list raw_node) (tau_max : Z) (cut_off : string) (verbosity : Z)
    (st : OracleState) :
  violation self X Y Zs →
  ∃ e, run_test fuel self X Y (Some Zs) tau_max cut_off verbosity st
       = (Raise e, st).
Proof.
  intros Hv. unfold run_test.
  assert (∃ e, canonical self X Y (Some Zs) = Raise e) as [e ->]; [|eauto].
  unfold canonical; simpl.
  destruct (translate self X) as [X'| |] eqn:EX; simpl; [|eauto|];
    [|by apply translate_not_out_of_fuel in EX].
  destruct (translate self Y) as [Y'| |] eqn:EY; simpl; [|eauto|];
    [|by apply translate_not_out_of_fuel in EY].
  destruct (translate self Zs) as [Z'| |] eqn:EZ; simpl; [|eauto|];
    [|by apply translate_not_out_of_fuel in EZ].
  apply translate_shape in EX as HX.
  apply translate_shape in EY as HY.
  apply translate_shape in EZ as HZ.
  destruct Hv as [x Hx Hlen | X1 Y1 Z1 n H1 H2 H3 Hn Hp
                  | X1 Y1 Z1 n H1 H2 H3 Hn Hi | X1 Y1 Z1 H1 H2 H3 Hall].
  - exfalso. rewrite !elem_of_app in Hx.
    rewrite !Forall_forall in HX, HY, HZ.
    destruct Hx as [Hx | [Hx | Hx]];
      [apply HX in Hx | apply HY in Hx | apply HZ in Hx]; lia.
  - rewrite EX in H1; rewrite EY in H2; rewrite EZ in H3; simplify_eq.
    apply check_XYZ_rejects. left. exists n. tauto.
  - rewrite EX in H1; rewrite EY in H2; rewrite EZ in H3; simplify_eq.
    apply check_XYZ_rejects. left. exists n. tauto.
  - rewrite EX in H1; rewrite EY in H2; rewrite EZ in H3; simplify_eq.
    apply check_XYZ_rejects. right. done.
Qed.

(** A query with the node [(0, 1)] in X is turned down. *)
Example run_test_rejects_positive_lag :
  violation oracle_chain [[0; 1]] [[1; 0]] []
  ∧ ∃ e, run_test 0 oracle_chain [[0; 1]] [[1; 0]] (Some []) 0 "" 0
           fresh_state = (Raise e, fresh_state).
Proof.
  assert (violation oracle_chain [[0; 1]] [[1; 0]] []) as Hv.
  { apply (positive_lag oracle_chain [[0; 1]] [[1; 0]] []
             [(0, 1)] [(1, 0)] [] (0, 1)).
    - reflexivity.
    - reflexivity.
    - reflexivity.
    - left.
    - simpl. lia. }
  split; [exact Hv|].
  exact (run_test_rejects_violation 0 oracle_chain [[0; 1]] [[1; 0]] []
           0 "" 0 fresh_state Hv).
Qed.

(** C9.  The translation to the full variable set comes first, and it reads
    the first two components of a node and nothing else: a node tuple with
    further components is answered as the pair of its first two, and a
    negative variable index counts from the end of [observed_vars].  So on
    [oracle_chain], which [OracleCI(links={0: [], 1: [(0, -1)]})]
    constructs, the query with [X = [(0, -1, 9)]] and the query with
    [X = [(-1, -1)]] are not turned down: each returns its pair and leaves
    an entry in the cache, under the key of the pair it was read as. *)
Theorem run_test_answers_malformed_query :
  (∀ fuel self v lag extra X Y Zs tau_max cut_off verbosity st,
     run_test fuel self ((v :: lag :: extra) :: X) Y Zs tau_max cut_off
       verbosity st
     = run_test fuel self ([v; lag] :: X) Y Zs tau_max cut_off verbosity st)
  ∧ __init__ (Some {[ 0 := []; 1 := [Link2 0 (-1)] ]}) None None None 0
    = Ok (oracle_chain, fresh_state)
  ∧ (∃ st, run_test 3 oracle_chain [[0; -1; 9]] [[1; 0]] (Some []) 0
             "2xtau_max" 0 fresh_state = (Ok (1%Q, 0%Q), st)
           ∧ dsepsets st !! ([(0, -1)], [(1, 0)], []) = Some false)
  ∧ (∃ st, run_test 3 oracle_chain [[-1; -1]] [[1; 0]] (Some []) 0
             "2xtau_max" 0 fresh_state = (Ok (0%Q, 1%Q), st)
           ∧ dsepsets st !! ([(1, -1)], [(1, 0)], []) = Some true).
Proof.
  split_and!.
  - intros. unfold run_test, canonical. simpl translate.
    replace (translate_node self (v :: lag :: extra))
      with (translate_node self [v; lag]); [done|].
    unfold translate_node, py_index. simpl length.
    replace (0 <? Z.of_nat (S (S (length extra)))) with true
      by (symmetry; apply Z.ltb_lt; lia).
    replace (1 <? Z.of_nat (S (S (length extra)))) with true
      by (symmetry; apply Z.ltb_lt; lia).
    done.
  - vm_compute. reflexivity.
  - eexists. split; [vm_compute; reflexivity|]. vm_compute. reflexivity.
  - eexists. split; [vm_compute; reflexivity|]. vm_compute. reflexivity.
Qed.

(** ** The cache *)

Lemma cached_dsep_hit (fuel : nat) (self : OracleCI) (k : query) (b : bool)
    (st : OracleState) :
  dsepsets st !! k = Some b → cached_dsep fuel self k st = (Ok b, st).
Proof. intros H. unfold cached_dsep. by rewrite H. Qed.

(** [_is_dsep] writes to [self.max_lag] only. *)
Lemma _is_dsep_state (fuel : nat) (self : OracleCI) (X Y Zs : list node)
    (m : option Z) (st st' : OracleState) (out : res bool) :
  _is_dsep fuel self X Y Zs m st = (out, st') →
  dsepsets st' = dsepsets st ∧ searches st' = searches st.
Proof.
  unfold _is_dsep. intros H.
  destruct (match m with Some m0 => Ok m0 | None => _ end); simplify_eq; done.
Qed.

Lemma cached_dsep_ok (fuel : nat) (self : OracleCI) (k : query) (b : bool)
    (st st' : OracleState) :
  cached_dsep fuel self k st = (Ok b, st') →
  dsepsets st' !! k = Some b
  ∧ (∀ k' b', dsepsets st !! k' = Some b' → dsepsets st' !! k' = Some b')
  ∧ (searches st = size (dsepsets st) → searches st' = size (dsepsets st')).
Proof.
  unfold cached_dsep. destruct (dsepsets st !! k) as [b0|] eqn:E.
  - intros; simplify_eq. done.
  - destruct k as [[X Y] Zs].
    destruct (_is_dsep fuel self X Y Zs None (count_search st))
      as [[b1| |] st1] eqn:Es; intros; simplify_eq.
    apply _is_dsep_state in Es as [Hd Hs]. simpl in *.
    rewrite Hd. split_and!.
    + by rewrite lookup_insert_eq.
    + intros k' b' Hk'. rewrite lookup_insert_ne; [done|]. congruence.
    + intros Hinv. rewrite map_size_insert_None; [|done]. lia.
Qed.

(** A call that returns has a canonical key, and returns the pair of the
    verdict the cache then holds for it. *)
Lemma run_test_ok (fuel : nat) (self : OracleCI) (X Y : list raw_node)
    (Zs : option (list raw_node)) (tau_max : Z) (cut_off : string)
    (verbosity : Z) (st st' : OracleState) (r : Q * Q) :
  run_test fuel self X Y Zs tau_max cut_off verbosity st = (Ok r, st') →
  ∃ k b, canonical self X Y Zs = Ok k ∧ r = verdict_pair b
         ∧ cached_dsep fuel self k st = (Ok b, st').
Proof.
  unfold run_test.
  destruct (canonical self X Y Zs) as [k| |]; try by inversion 1.
  destruct (cached_dsep fuel self k st) as [[b| |] st1] eqn:E;
    try by inversion 1.
  intros; simplify_eq. exists k, b. done.
Qed.

(** What one call of [run_test] does to the cache and to the count of
    searches, whatever its outcome. *)
Lemma run_test_step (fuel : nat) (self : OracleCI) (X Y : list raw_node)
    (Zs : option (list raw_node)) (tau_max : Z) (cut_off : string)
    (verbosity : Z) (st st' : OracleState) (r : res (Q * Q)) :
  run_test fuel self X Y Zs tau_max cut_off verbosity st = (r, st') →
  (∀ k b, dsepsets st !! k = Some b → dsepsets st' !! k = Some b)
  ∧ dom (dsepsets st')
    = dom (dsepsets st) ∪ list_to_set (answered_key self X Y Zs r)
  ∧ (searches st' + size (dsepsets st)
     = searches st + size (dsepsets st') + search_failed self X Y Zs r)%nat.
Proof.
  unfold run_test, answered_key, search_failed.
  destruct (canonical self X Y Zs) as [k| |]; simpl.
  2,3: intros; simplify_eq; simpl; split_and!; [done | set_solver | lia].
  unfold cached_dsep. destruct (dsepsets st !! k) as [b0|] eqn:E.
  { intros; simplify_eq. simpl. split_and!; [done | | lia].
    apply elem_of_dom_2 in E. set_solver. }
  destruct k as [[X' Y'] Z'].
  destruct (_is_dsep fuel self X' Y' Z' None (count_search st))
    as [[b1| |] st1] eqn:Es; intros; simplify_eq;
    apply _is_dsep_state in Es as [Hd Hs]; simpl in *.
  - rewrite Hd. split_and!.
    + intros k b Hk. rewrite lookup_insert_ne; [done|]. congruence.
    + rewrite dom_insert_L. set_solver.
    + rewrite map_size_insert_None by done. lia.
  - rewrite Hd. split_and!; [done | set_solver | lia].
  - rewrite Hd. split_and!; [done | set_solver | lia].
Qed.

(** Over any calls the cache only grows, by the keys answered, and every
    search either adds its key or is one that did not return. *)
Lemma served_keeps (self : OracleCI) (st st' : OracleState)
    (ks : list query) (f : nat) :
  served self st ks f st' →
  (∀ k b, dsepsets st !! k = Some b → dsepsets st' !! k = Some b)
  ∧ dom (dsepsets st') = dom (dsepsets st) ∪ list_to_set ks
  ∧ (searches st' + size (dsepsets st)
     = searches st + size (dsepsets st') + f)%nat.
Proof.
  induction 1 as [st | st st1 st2 fuel X Y Zs tm co v r ks f Hcall _
                    (IH1 & IH2 & IH3)].
  { split_and!; [done | set_solver | lia]. }
  apply run_test_step in Hcall as (H1 & H2 & H3). split_and!.
  - eauto.
  - rewrite IH2, H2, list_to_set_app_L. set_solver.
  - lia.
Qed.

(** C8.  Take an object that has served any calls of [run_test] since it
    was made, and a call that returns a result [r].  The query of the call
    has a key, and either the key was in the cache and the call changed
    nothing, or it was not: then [r] is the verdict of the one search the
    call ran, and that verdict is stored under the key.  After any further
    calls the key is still there, so every call with the same [(X, Y, Z)]
    returns [r] again and leaves the object as it is, the count of
    searches included.  And one search has been run for each distinct key
    answered so far, besides the searches that did not return. *)
Theorem run_test_memoised (self : OracleCI) (fuel : nat)
    (X Y : list raw_node) (Zs : option (list raw_node)) (tau_max : Z)
    (cut_off : string) (verbosity : Z) (st0 st1 st2 : OracleState)
    (ks0 ks1 : list query) (f0 f1 : nat) (r : Q * Q) :
  served self fresh_state ks0 f0 st0 →
  run_test fuel self X Y Zs tau_max cut_off verbosity st0 = (Ok r, st1) →
  served self st1 ks1 f1 st2 →
  ∃ k b,
    canonical self X Y Zs = Ok k ∧ r = verdict_pair b
    ∧ (dsepsets st0 !! k = Some b ∧ st1 = st0
       ∨ dsepsets st0 !! k = None
         ∧ (_is_dsep fuel self k.1.1 k.1.2 k.2 None (count_search st0)).1
           = Ok b
         ∧ dsepsets st1 = <[k := b]> (dsepsets st0)
         ∧ searches st1 = S (searches st0))
    ∧ dsepsets st2 !! k = Some b
    ∧ (∀ fuel' tau_max' cut_off' verbosity',
         run_test fuel' self X Y Zs tau_max' cut_off' verbosity' st2
         = (Ok r, st2))
    ∧ dom (dsepsets st2) = list_to_set (ks0 ++ k :: ks1)
    ∧ searches st2
      = (size (list_to_set (ks0 ++ k :: ks1) : gset query) + (f0 + f1))%nat.
Proof.
  intros H0 Hcall H12.
  apply served_keeps in H0 as (_ & Hd0 & Hc0). simpl in Hd0, Hc0.
  rewrite dom_empty_L in Hd0. rewrite map_size_empty in Hc0.
  pose proof (run_test_step _ _ _ _ _ _ _ _ _ _ _ Hcall) as (_ & Hd1 & Hc1).
  apply served_keeps in H12 as (Hkeep & Hd2 & Hc2).
  apply run_test_ok in Hcall as Hok. destruct Hok as (k & b & Hk & -> & Hc).
  exists k, b.
  assert (dsepsets st1 !! k = Some b) as Hin
    by (by apply cached_dsep_ok in Hc as (Hin & _)).
  assert (dom (dsepsets st2) = list_to_set (ks0 ++ k :: ks1)) as Hdom.
  { rewrite Hd2, Hd1, Hd0. unfold answered_key. rewrite Hk.
    rewrite list_to_set_app_L, list_to_set_cons. simpl. set_solver. }
  split_and!; try done.
  - unfold cached_dsep in Hc. destruct (dsepsets st0 !! k) as [b0|] eqn:E.
    + left. by simplify_eq.
    + right. destruct k as [[X' Y'] Z']. simpl.
      destruct (_is_dsep fuel self X' Y' Z' None (count_search st0))
        as [[b1| |] st'] eqn:Es; simplify_eq.
      apply _is_dsep_state in Es as [Hd Hs]. simpl in *.
      rewrite Hd. done.
  - by apply Hkeep.
  - intros fuel' tm' co' v'. unfold run_test. rewrite Hk.
    by rewrite (cached_dsep_hit fuel' self k b st2 (Hkeep _ _ Hin)).
  - rewrite <- Hdom, size_dom. unfold search_failed in Hc1.
    rewrite Hk in Hc1. simpl in *. lia.
Qed.

(** Two queries on [oracle_chain], one after the other: two keys, two
    searches; asked again, the second is answered from the cache. *)
Lemma run_test_memoised_witness :
  served oracle_chain fresh_state [([(0, -1)], [(1, 0)], [])] 0 state_chain
  ∧ run_test 3 oracle_chain [[1; -1]] [[1; 0]] (Some []) 0 "2xtau_max" 0
      state_chain
    = (Ok (0%Q, 1%Q), state_chain_two)
  ∧ served oracle_chain state_chain_two [] 0 state_chain_two
  ∧ (∀ fuel' tau_max' cut_off' verbosity',
       run_test fuel' oracle_chain [[1; -1]] [[1; 0]] (Some []) tau_max'
         cut_off' verbosity' state_chain_two
       = (Ok (0%Q, 1%Q), state_chain_two))
  ∧ searches state_chain_two = 2%nat.
Proof.
  assert (served oracle_chain fresh_state [([(0, -1)], [(1, 0)], [])] 0
            state_chain) as H0.
  { exact (served_call oracle_chain fresh_state state_chain state_chain 2
             [[0; -1]] [[1; 0]] (Some []) 0 "2xtau_max" 0 (Ok (1%Q, 0%Q))
             [] 0 eq_refl (served_nil oracle_chain state_chain)). }
  assert (run_test 3 oracle_chain [[1; -1]] [[1; 0]] (Some []) 0 "2xtau_max"
            0 state_chain = (Ok (0%Q, 1%Q), state_chain_two)) as Hrun.
  { vm_compute. reflexivity. }
  split; [exact H0|]. split; [exact Hrun|].
  split; [exact (served_nil oracle_chain state_chain_two)|].
  destruct (run_test_memoised oracle_chain 3 [[1; -1]] [[1; 0]] (Some []) 0
              "2xtau_max" 0 state_chain state_chain_two state_chain_two
              [([(0, -1)], [(1, 0)], [])] [] 0 0 (0%Q, 1%Q) H0 Hrun
              (served_nil oracle_chain state_chain_two))
    as (k & b & _ & _ & _ & _ & Hlater & _ & _).
  split; [exact Hlater | reflexivity].
Defined.

(** C10.  [tau_max] and [cut_off] are never read: outcome and object after
    the call are the same whatever their values. *)
Theorem run_test_ignores_tau_max_and_cut_off (fuel : nat) (self : OracleCI)
    (X Y : list raw_node) (Zs : option (list raw_node))
    (tau_max tau_max' : Z) (cut_off cut_off' : string) (verbosity : Z)
    (st : OracleState) :
  run_test fuel self X Y Zs tau_max cut_off verbosity st
  = run_test fuel self X Y Zs tau_max' cut_off' verbosity st.
Proof. reflexivity. Qed.

(** C7.  [get_measure] returns no number on any input: when the translation
    to the full variable set goes through, the lookup of the bare name
    [_check_XYZ] raises, and the cache is never reached. *)
Theorem get_measure_never_returns (fuel : nat) (self : OracleCI)
    (X Y : list raw_node) (Zs : option (list raw_node)) (tau_max : Z)
    (st : OracleState) :
  ∃ e, get_measure fuel self X Y Zs tau_max st = (Raise e, st).
Proof.
  unfold get_measure.
  destruct (translate self X) as [X'| |] eqn:EX; simpl; [|eauto|].
  2:{ by apply translate_not_out_of_fuel in EX. }
  destruct (translate self Y) as [Y'| |] eqn:EY; simpl; [|eauto|].
  2:{ by apply translate_not_out_of_fuel in EY. }
  destruct Zs as [Zs|]; simpl; [|eauto].
  destruct (translate self Zs) as [Z'| |] eqn:EZ; simpl; [|eauto|].
  2:{ by apply translate_not_out_of_fuel in EZ. }
  eauto.
Qed.

(** ** Compiling a graph array *)

(** The claim of C3 as it is worded (a lag-0 cell is processed when its
    target index is greater than its source index) fails on [graph_arrow]:
    the cell [(0, 1, 0)] is the one that is skipped. *)
Lemma contemporaneous_target_greater_is_skipped :
  ¬ (∀ i j, cell graph_arrow i j 0 ≠ EmptyString →
            (cell_skipped graph_arrow i j 0 = Ok false ↔ i < j)).
Proof.
  intros H. destruct (H 0 1) as [_ H1]; [done|].
  specialize (H1 ltac:(lia)). vm_compute in H1. discriminate.
Qed.

(** The processed cell of [graph_arrow] puts the one link [0 -> 1] into
    [links]. *)
Lemma graph_arrow_compiled :
  get_links_from_graph graph_arrow
  = Ok ({[ 0 := []; 1 := [Link2 0 0] ]}, [0; 1], []).
Proof. vm_compute. reflexivity. Qed.

Lemma compile_init_inv (graph : graph_array) :
  0 <= g_N graph → compile_inv (compile_init graph).
Proof.
  intros HN. split; [done|]. intros k. unfold compile_init; simpl.
  rewrite <- elem_of_py_range, <- elem_of_dom, dom_list_to_map_L.
  rewrite elem_of_list_to_set, <- list_fmap_compose.
  rewrite list_elem_of_fmap. split.
  - intros (y & -> & Hy). done.
  - intros Hk. by exists k.
Qed.

Lemma links_append_ok (lk : gmap Z (list link_props)) (k i tau : Z)
    (l : list link_props) :
  lk !! k = Some l →
  links_append lk k i tau = Ok (<[k := l ++ [Link2 i tau]]> lk).
Proof. intros H. unfold links_append, py_getitem. by rewrite H. Qed.

Lemma links_append_inv (lk lk' : gmap Z (list link_props)) (k i tau : Z) :
  links_append lk k i tau = Ok lk' →
  ∀ k', is_Some (lk' !! k') ↔ is_Some (lk !! k').
Proof.
  unfold links_append, py_getitem. destruct (lk !! k) as [l|] eqn:E; simpl;
    [|discriminate].
  intros ? k'; simplify_eq. rewrite lookup_insert. case_decide; [|done].
  subst. rewrite E. split; eauto.
Qed.

(** What the ["---"] branch does to the state of the loop. *)
Lemma selection_edge_added (graph : graph_array) (i j tau : Z)
    (st : compile_state) :
  cell graph i j tau = "---"%string →
  add_edge graph i j tau st
  = Ok {| c_links := <[c_latent_index st := [Link2 i (- tau); Link2 j 0]]>
                       (c_links st);
          c_selection_vars := c_selection_vars st ++ [c_latent_index st];
          c_latent_index := c_latent_index st + 1 |}.
Proof.
  intros Hc. unfold add_edge. rewrite Hc. simpl.
  erewrite links_append_ok by apply lookup_insert_eq. simpl.
  erewrite links_append_ok by apply lookup_insert_eq. simpl.
  by rewrite !insert_insert_eq.
Qed.

Lemma add_edge_inv (graph : graph_array) (i j tau : Z)
    (st st' : compile_state) :
  compile_inv st → add_edge graph i j tau st = Ok st' → compile_inv st'.
Proof.
  intros [Hpos Hinv]. unfold add_edge.
  repeat case_bool_decide.
  - destruct (links_append _ _ _ _) as [lk| |] eqn:E; simpl; try discriminate.
    intros; simplify_eq. split; [done|]. intros k; simpl.
    by rewrite (links_append_inv _ _ _ _ _ E).
  - destruct (links_append _ _ _ _) as [lk| |] eqn:E; simpl; try discriminate.
    intros; simplify_eq. split; [done|]. intros k; simpl.
    by rewrite (links_append_inv _ _ _ _ _ E).
  - destruct (links_append _ _ _ _) as [lk| |] eqn:E; simpl; try discriminate.
    destruct (links_append lk _ _ _) as [lk2| |] eqn:E2; simpl;
      try discriminate.
    intros; simplify_eq. split; [simpl; lia|]. intros k; simpl.
    rewrite (links_append_inv _ _ _ _ _ E2), (links_append_inv _ _ _ _ _ E).
    rewrite lookup_insert. case_decide; [subst; split; [lia | by eauto]|].
    rewrite Hinv. lia.
  - destruct (links_append _ _ _ _) as [lk| |] eqn:E; simpl; try discriminate.
    destruct (links_append lk _ _ _) as [lk2| |] eqn:E2; simpl;
      try discriminate.
    intros; simplify_eq. split; [simpl; lia|]. intros k; simpl.
    rewrite (links_append_inv _ _ _ _ _ E2), (links_append_inv _ _ _ _ _ E).
    rewrite lookup_insert. case_decide; [subst; split; [lia | by eauto]|].
    rewrite Hinv. lia.
  - intros; simplify_eq. done.
Qed.

Lemma compile_cell_inv (graph : graph_array) (c : Z * Z * Z)
    (st st' : compile_state) :
  compile_inv st → compile_cell graph st c = Ok st' → compile_inv st'.
Proof.
  intros Hinv. destruct c as [[i j] tau]. unfold compile_cell.
  destruct (cell_skipped graph i j tau) as [[|]| |]; simpl; try discriminate.
  - intros; simplify_eq. done.
  - by apply add_edge_inv.
Qed.

(** The invariant holds wherever the loop of [get_links_from_graph] stands. *)
Lemma compile_prefix_inv (graph : graph_array) (cells : list (Z * Z * Z))
    (st : compile_state) :
  0 <= g_N graph →
  for_each (compile_cell graph) cells (compile_init graph) = Ok st →
  compile_inv st.
Proof.
  intros HN. apply (for_each_inv compile_inv).
  - intros s c s'. apply compile_cell_inv.
  - by apply compile_init_inv.
Qed.

(** The claim of C4 as it is worded fails on [graph_selection]: the
    selection variable [1] is in no parent list of the endpoint [0]; the
    endpoint is in the parent list of the selection variable. *)
Lemma selection_variable_is_a_child :
  get_links_from_graph graph_selection
  = Ok ({[ 0 := []; 1 := [Link2 0 (-1); Link2 0 0] ]}, [0], [1])
  ∧ ¬ (∃ lk obs sel s tau l,
         get_links_from_graph graph_selection = Ok (lk, obs, sel)
         ∧ s ∈ sel ∧ lk !! 0 = Some l ∧ Link2 s tau ∈ l).
Proof.
  assert (get_links_from_graph graph_selection
          = Ok ({[ 0 := []; 1 := [Link2 0 (-1); Link2 0 0] ]}, [0], [1])) as E.
  { vm_compute. reflexivity. }
  split; [exact E|].
  intros (lk & obs & sel & s & tau & l & H & Hs & Hl & Hin).
  rewrite E in H. simplify_eq. vm_compute in Hl. simplify_eq.
  inversion Hin.
Qed.

(** C4, amended.  For every ["---"] cell that is processed (not skipped as
    the second cell of a lag-0 pair), the compilation takes the index
    [latent_index], which is no key of [links] yet, as a new variable,
    appends it to [selection_vars], and gives it the two endpoints as its
    parents: the source at lag [-tau] and the target at lag 0.  No other
    parent list changes. *)
Theorem selection_cell_compiled (graph : graph_array) (i j tau : Z)
    (st : compile_state) :
  compile_inv st →
  cell graph i j tau = "---"%string →
  cell_skipped graph i j tau = Ok false →
  ∃ st', compile_cell graph st (i, j, tau) = Ok st'
    ∧ c_links st !! c_latent_index st = None
    ∧ c_latent_index st' = c_latent_index st + 1
    ∧ c_selection_vars st' = c_selection_vars st ++ [c_latent_index st]
    ∧ c_links st' !! c_latent_index st = Some [Link2 i (- tau); Link2 j 0]
    ∧ (∀ k, k ≠ c_latent_index st → c_links st' !! k = c_links st !! k)
    ∧ compile_inv st'.
Proof.
  intros [Hpos Hinv] Hc Hskip. unfold compile_cell. rewrite Hskip. simpl.
  rewrite (selection_edge_added _ _ _ _ _ Hc). eexists. split; [done|].
  simpl. split_and!; try done.
  - apply eq_None_not_Some. rewrite Hinv. lia.
  - by rewrite lookup_insert_eq.
  - intros k Hk. by rewrite lookup_insert_ne.
  - split; simpl; [lia|]. intros k. rewrite lookup_insert. case_decide.
    + subst. split; [lia | by eauto].
    + rewrite Hinv. lia.
Qed.

Lemma selection_cell_compiled_witness :
  compile_inv (compile_init graph_selection)
  ∧ cell graph_selection 0 0 1 = "---"%string
  ∧ cell_skipped graph_selection 0 0 1 = Ok false
  ∧ ∃ st', compile_cell graph_selection (compile_init graph_selection)
             (0, 0, 1) = Ok st'
      ∧ c_selection_vars st' = [1]
      ∧ c_links st' !! 1 = Some [Link2 0 (-1); Link2 0 0].
Proof.
  assert (compile_inv (compile_init graph_selection)) as Hinv.
  { apply compile_init_inv. simpl. lia. }
  split; [exact Hinv|]. split; [reflexivity|]. split; [reflexivity|].
  destruct (selection_cell_compiled graph_selection 0 0 1
              (compile_init graph_selection) Hinv eq_refl eq_refl)
    as (st' & H1 & _ & _ & H4 & H5 & _).
  exists st'. split; [exact H1|]. split; [exact H4 | exact H5].
Defined.

(** ** Parents of a node *)

(** With [exclude_contemp] off, the parents of [(var, lag)] are the sources
    of the links of [var] with a nonzero coefficient, shifted by [lag]. *)
Lemma lagged_parents_all (self : OracleCI) (var lag : Z)
    (lps : list link_props) :
  links self !! var = Some lps →
  _get_lagged_parents self (var, lag) false
  = Ok (map (fun lp => ((link_source lp).1, lag + (link_source lp).2))
            (filter (fun lp => coeff_nonzero (link_coeff lp)) lps)).
Proof.
  intros H. unfold _get_lagged_parents, py_getitem. rewrite H. simpl. f_equal.
  clear H. induction lps as [|lp lps IH]; [done|]. simpl.
  destruct (link_source lp) as [i tau] eqn:E.
  destruct (coeff_nonzero (link_coeff lp)) eqn:Ec; simpl.
  - rewrite filter_cons_True by (by rewrite Ec). simpl. rewrite E. simpl.
    by rewrite IH.
  - rewrite filter_cons_False by (rewrite Ec; simpl; tauto). apply IH.
Qed.

(** C5.  With [exclude_contemp] on, the test is made on the lag of the node,
    not on the relative lag of the link: at the node [(0, -1)] the lag-0 link
    from variable 1 is yielded all the same, and at the node [(0, 0)] the
    link of relative lag -1 is dropped with the lag-0 link. *)
Theorem lagged_parents_exclusion_reads_node_lag :
  _get_lagged_parents oracle_two_lags (0, -1) true = Ok [(1, -1); (1, -2)]
  ∧ _get_lagged_parents oracle_two_lags (0, 0) true = Ok []
  ∧ _get_lagged_children (1, -1) {[ 0 := []; 1 := [(0, 0); (0, 1)] ]} true
    = Ok [(0, 0)].
Proof. repeat split; vm_compute; reflexivity. Qed.

(** ** Selection variables in the conditioning set *)

Lemma elem_of_add_selection_conds (self : OracleCI) (conds : list node)
    (max_lag : Z) (n : node) :
  n ∈ add_selection_conds self conds max_lag
  ↔ n ∈ conds ∨ (n.1 ∈ selection_vars self ∧ - max_lag <= n.2 <= 0).
Proof.
  unfold add_selection_conds. revert conds.
  induction (selection_vars self) as [|sv svs IH]; intros conds; simpl.
  - rewrite elem_of_nil. tauto.
  - rewrite IH, elem_of_app, list_elem_of_fmap, elem_of_cons.
    setoid_rewrite elem_of_py_range. destruct n as [v l]; simpl. split.
    + intros [[H | (t & Ht & Hr)] | H]; [tauto | | tauto].
      simplify_eq. right. split; [by left | lia].
    + intros [H | [[-> | H] Hl]]; [tauto | | tauto].
      left. right. exists (- l). split; [f_equal; lia | lia].
Qed.

(** The path search conditions on every selection variable at every lag
    from 0 down to [-max_lag]. *)
Lemma has_any_path_conditions_on_selection (self : OracleCI)
    (conds : list node) (max_lag : Z) (sv tau_sel : Z) :
  sv ∈ selection_vars self → 0 <= tau_sel <= max_lag →
  py_in (sv, - tau_sel) (add_selection_conds self conds max_lag) = true.
Proof.
  intros Hsv Ht. apply py_in_true, elem_of_add_selection_conds.
  right. simpl. split; [done | lia].
Qed.

(** C6.  The ancestor search that derives the horizon adds the selection
    variables at lag 0 only: on [oracle_selected] the conditions are
    [[(1, 0)]], the selection variable 1 at lag -1 passes the test
    [par not in conds] and is returned as a non-blocked ancestor of
    [(0, 0)], and the search reports the bound 1. *)
Theorem ancestor_search_selects_lag_zero_only :
  add_selection_conds oracle_selected [] 0 = [(1, 0)]
  ∧ _get_non_blocked_ancestors 2 oracle_selected [(0, 0)] (Some [])
      non_repeating None
    = Ok ({[ (0, 0) := [(1, -1)] ]}, 1)
  ∧ py_in (1, -1) (add_selection_conds oracle_selected [] 1) = true.
Proof. repeat split; vm_compute; reflexivity. Qed.

(** ** Step budgets *)

(** An answer that is not [OutOfFuel] is the answer under any larger
    budget. *)
Lemma for_each_more {A S : Type} (body body' : S → A → res S) (l : list A)
    (st : S) (r : res S) :
  (∀ s a r, body s a = r → r ≠ OutOfFuel → body' s a = r) →
  for_each body l st = r → r ≠ OutOfFuel → for_each body' l st = r.
Proof.
  intros Hb. revert st. induction l as [|a l IH]; intros st; simpl; [done|].
  destruct (body st a) as [s1| |] eqn:E; simpl; intros Hr Hne.
  - rewrite (Hb _ _ _ E) by done. simpl. by apply IH.
  - rewrite (Hb _ _ _ E) by done. done.
  - congruence.
Qed.

Lemma anc_while_more (fuel k : nat) (self : OracleCI) (md : mode)
    (conds : list node) (y : node) (this_level : list node) (st : anc_state)
    (r : res anc_state) :
  anc_while fuel self md conds y this_level st = r → r ≠ OutOfFuel →
  anc_while (fuel + k) self md conds y this_level st = r.
Proof.
  revert this_level st. induction fuel as [|fuel IH]; intros lv st; simpl.
  - destruct lv; [|congruence]. destruct k; done.
  - destruct lv as [|v lv]; [done|].
    destruct (for_each _ (v :: lv) _) as [s1| |]; simpl; try done.
    apply IH.
Qed.

Lemma _get_non_blocked_ancestors_more (fuel k : nat) (self : OracleCI)
    (Y : list node) (conds : option (list node)) (md : mode)
    (max_lag : option Z) (r : res (gmap node (list node) * Z)) :
  _get_non_blocked_ancestors fuel self Y conds md max_lag = r →
  r ≠ OutOfFuel →
  _get_non_blocked_ancestors (fuel + k) self Y conds md max_lag = r.
Proof.
  unfold _get_non_blocked_ancestors.
  destruct (if is_non_repeating md then _ else _) as [m| |]; simpl; try done.
  apply for_each_more. intros [ancs ml] [j tau] r'. unfold anc_seed.
  destruct (anc_while fuel _ _ _ _ _ _) as [s1| |] eqn:E; simpl;
    intros Hr Hne; try congruence.
  - by rewrite (anc_while_more _ k _ _ _ _ _ _ _ E).
  - by rewrite (anc_while_more _ k _ _ _ _ _ _ _ E).
Qed.

Lemma _get_max_lag_from_XYZ_more (fuel k : nat) (self : OracleCI)
    (X Y Zs : list node) (m : Z) :
  _get_max_lag_from_XYZ fuel self X Y Zs = Ok m →
  _get_max_lag_from_XYZ (fuel + k) self X Y Zs = Ok m.
Proof.
  unfold _get_max_lag_from_XYZ.
  destruct (_get_non_blocked_ancestors fuel self X _ _ _) as [rX| |] eqn:EX;
    simpl; try done.
  destruct (_get_non_blocked_ancestors fuel self Y _ _ _) as [rY| |] eqn:EY;
    simpl; try done.
  destruct (_get_non_blocked_ancestors fuel self Zs _ _ _) as [rZ| |] eqn:EZ;
    simpl; try done.
  rewrite (_get_non_blocked_ancestors_more _ k _ _ _ _ _ _ EX) by done.
  rewrite (_get_non_blocked_ancestors_more _ k _ _ _ _ _ _ EY) by done.
  rewrite (_get_non_blocked_ancestors_more _ k _ _ _ _ _ _ EZ) by done.
  done.
Qed.

Lemma search_while_more (fuel k : nat) (self : OracleCI) (conds : list node)
    (max_lag : Z) (backdoor : bool) (children : gmap Z (list node)) (x : node)
    (fw rv : list (node * mark)) (pred succ : gmap node marks)
    (r : res (option ((node * mark) * gmap node marks * gmap node marks))) :
  search_while self conds max_lag backdoor children x fuel fw rv pred succ = r →
  r ≠ OutOfFuel →
  search_while self conds max_lag backdoor children x (fuel + k) fw rv pred succ
  = r.
Proof.
  revert fw rv pred succ. induction fuel as [|fuel IH]; intros fw rv pred succ;
    simpl.
  - destruct fw, rv; try congruence; destruct k; done.
  - destruct fw as [|f fw], rv as [|v rv]; try done.
    destruct (_ <=? _)%nat.
    + destruct (_walk_fringe _ _ _ _ _ _ _ _ _ _) as [w| |]; simpl; try done.
      destruct (walk_found w); [done|]. apply IH.
    + destruct (_walk_fringe _ _ _ _ _ _ _ _ _ _) as [w| |]; simpl; try done.
      destruct (walk_found w); [done|]. apply IH.
Qed.

(** ** A search that finds a connection and never hands it back *)

Section trace_diverges.

Variable conds : list node.
Variable d : gmap node marks.
Variable goal : node.
(** A set of states [(node, mark)] of a loop of [backtrace_path] that one
    round of the loop does not leave and that stays away from the goal. *)
Variable trapped : node → mark → Prop.
Hypothesis trapped_step : ∀ nd mk, trapped nd mk →
  nd ≠ goal ∧
  ∃ ms pn pm mk', d !! nd = Some ms ∧ marks_get ms mk = Ok (pn, pm)
    ∧ next_mark conds d nd mk pn pm = Ok mk' ∧ trapped pn mk'.

(** From such a state the loop uses up every budget. *)
Lemma trace_while_trapped (fuel : nat) (path : list node) (nd : node)
    (mk : mark) :
  trapped nd mk → last path = Some nd →
  trace_while conds fuel d goal path nd mk = OutOfFuel.
Proof using trapped_step.
  revert path nd mk. induction fuel as [|fuel IH]; intros path nd mk Ht Hl;
    destruct (trapped_step nd mk Ht)
      as (Hne & ms & pn & pm & mk' & Hd & Hg & Hn & Ht'); simpl; rewrite Hl;
    rewrite bool_decide_eq_false_2 by done; [done|].
  unfold py_getitem. rewrite Hd. simpl. rewrite Hg. simpl. rewrite Hn. simpl.
  apply IH; [done|]. by rewrite last_snoc.
Qed.

End trace_diverges.

(** On [pred_ex] the marks that [backtrace_path] infers lead from [(6, 0)]
    over [(5, 0)] into the round trip [(4, 0)], [(2, 0)], [(1, 0)], [(3, 0)],
    [(4, 0)], ... and never to [(0, 0)]. *)
Lemma trapped_ex_step (nd : node) (mk : mark) :
  trapped_ex nd mk →
  nd ≠ (0, 0) ∧
  ∃ ms pn pm mk', pred_ex !! nd = Some ms ∧ marks_get ms mk = Ok (pn, pm)
    ∧ next_mark [(4, 0)] pred_ex nd mk pn pm = Ok mk' ∧ trapped_ex pn mk'.
Proof.
  unfold trapped_ex. rewrite !elem_of_cons, elem_of_nil.
  intros [H|[H|[H|[H|[H|[H|[]]]]]]]; simplify_eq; (split; [done|]).
  - eexists _, (5, 0), Arrowhead, Tail.
    split; [|split; [|split]]; [vm_compute; reflexivity .. |];
      rewrite !elem_of_cons; tauto.
  - eexists _, (4, 0), Arrowhead, Arrowhead.
    split; [|split; [|split]]; [vm_compute; reflexivity .. |];
      rewrite !elem_of_cons; tauto.
  - eexists _, (2, 0), Tail, Arrowhead.
    split; [|split; [|split]]; [vm_compute; reflexivity .. |];
      rewrite !elem_of_cons; tauto.
  - eexists _, (1, 0), Tail, Tail.
    split; [|split; [|split]]; [vm_compute; reflexivity .. |];
      rewrite !elem_of_cons; tauto.
  - eexists _, (3, 0), Arrowhead, Tail.
    split; [|split; [|split]]; [vm_compute; reflexivity .. |];
      rewrite !elem_of_cons; tauto.
  - eexists _, (4, 0), Arrowhead, Arrowhead.
    split; [|split; [|split]]; [vm_compute; reflexivity .. |];
      rewrite !elem_of_cons; tauto.
Qed.

Lemma max_lag_ex (k : nat) :
  _get_max_lag_from_XYZ (6 + k) oracle_ex [(0, 0)] [(7, 0)] [(4, 0)] = Ok 0.
Proof. apply _get_max_lag_from_XYZ_more. vm_compute. reflexivity. Qed.

Lemma has_any_path_ex (k : nat) :
  _has_any_path (6 + k) oracle_ex [(0, 0)] [(7, 0)] (Some [(4, 0)]) 0 false
  = OutOfFuel.
Proof.
  unfold _has_any_path.
  replace (_get_children oracle_ex) with (Ok children_ex)
    by (vm_compute; reflexivity).
  replace (add_selection_conds oracle_ex _ 0) with [((4, 0) : node)]
    by (vm_compute; reflexivity).
  simpl first_path. unfold res_bind at 1. unfold search_pair.
  rewrite (search_while_more 6 k _ _ _ _ _ _ _ _ _ _ search_ex)
    by (vm_compute; done).
  unfold search_ex at 1. cbv beta iota delta [res_bind].
  unfold backtrace_path.
  replace (first_mark _ _) with (Ok Tail) by (vm_compute; reflexivity).
  cbv beta iota delta [res_bind].
  rewrite (trace_while_trapped _ _ _ trapped_ex trapped_ex_step);
    [done | by left | done].
Qed.

(** No budget is enough for the query [X = [(0, 0)]], [Y = [(7, 0)]],
    [Z = [(4, 0)]] on [oracle_ex]. *)
Lemma run_test_ex_out_of_fuel (fuel : nat) :
  (run_test fuel oracle_ex [[0; 0]] [[7; 0]] (Some [[4; 0]]) 0 "" 0
     fresh_state).1 = OutOfFuel.
Proof.
  destruct (decide (6 <= fuel)%nat) as [Hge|Hlt].
  - replace fuel with (6 + (fuel - 6))%nat by lia.
    generalize (fuel - 6)%nat as k. intros k.
    unfold run_test.
    replace (canonical _ _ _ _)
      with (Ok ([(0, 0)], [(7, 0)], [(4, 0)]) : res query)
      by (vm_compute; reflexivity).
    unfold cached_dsep.
    replace (dsepsets fresh_state !! _) with (@None bool) by done.
    unfold _is_dsep. rewrite max_lag_ex, has_any_path_ex. done.
  - do 6 (destruct fuel as [|fuel]; [vm_compute; reflexivity|]). lia.
Qed.

(** C1.  [oracle_ex] is what [OracleCI(links=links_ex)] constructs, and
    on it the valid query [X = [(0, 0)]], [Y = [(7, 0)]], [Z = [(4, 0)]]
    gets no pair at all: the search finds the connection over the collider
    [(4, 0)], and [backtrace_path] then runs forever, under every step
    budget. *)
Theorem run_test_never_returns :
  __init__ (Some links_ex) None None None 0 = Ok (oracle_ex, fresh_state)
  ∧ canonical oracle_ex [[0; 0]] [[7; 0]] (Some [[4; 0]])
    = Ok ([(0, 0)], [(7, 0)], [(4, 0)])
  ∧ ∀ fuel,
      (run_test fuel oracle_ex [[0; 0]] [[7; 0]] (Some [[4; 0]]) 0 "" 0
         fresh_state).1 = OutOfFuel.
Proof.
  split; [vm_compute; reflexivity|]. split; [vm_compute; reflexivity|].
  apply run_test_ex_out_of_fuel.
Qed.

(** C2.  On [oracle_ex] the query with [X = [(7, 0)]] and [Y = [(0, 0)]]
    given [Z = [(4, 0)]] returns [(1.0, 0.0)], and the query with X and Y
    exchanged returns nothing under any step budget. *)
Theorem run_test_not_symmetric :
  (run_test 6 oracle_ex [[7; 0]] [[0; 0]] (Some [[4; 0]]) 0 "" 0
     fresh_state).1 = Ok (1%Q, 0%Q)
  ∧ ∀ fuel,
      (run_test fuel oracle_ex [[0; 0]] [[7; 0]] (Some [[4; 0]]) 0 "" 0
         fresh_state).1 = OutOfFuel.
Proof.
  split; [vm_compute; reflexivity|]. apply run_test_ex_out_of_fuel.
Qed.

(** * Further properties of the code *)
(** ** The canonical form of a query *)

Lemma fromkeys_acc_NoDup `{EqDecision A} (l seen : list A) :
  NoDup (fromkeys_acc seen l).
Proof.
  revert seen. induction l as [|a l IH]; intros seen; simpl; [constructor|].
  destruct (py_in a seen); [apply IH|].
  constructor; [|apply IH].
  rewrite elem_of_fromkeys_acc. set_solver.
Qed.

Lemma fromkeys_NoDup `{EqDecision A} (l : list A) : NoDup (fromkeys l).
Proof. apply fromkeys_acc_NoDup. Qed.

Lemma fromkeys_acc_id `{EqDecision A} (l seen : list A) :
  NoDup l → (∀ x, x ∈ l → x ∉ seen) → fromkeys_acc seen l = l.
Proof.
  revert seen. induction l as [|a l IH]; intros seen Hnd Hdis; simpl; [done|].
  apply NoDup_cons in Hnd as [Ha Hnd].
  rewrite (proj2 (py_in_false a seen)) by (apply Hdis; left).
  f_equal. apply IH; [done|].
  intros x Hx. rewrite elem_of_app, list_elem_of_singleton.
  intros [Hs | ->]; [|done]. apply (Hdis x); [by right | done].
Qed.

Lemma fromkeys_id `{EqDecision A} (l : list A) : NoDup l → fromkeys l = l.
Proof. intros H. apply fromkeys_acc_id; [done|]. intros x _. apply not_elem_of_nil. Qed.

(** The filter that takes the nodes of X and Y out of Z. *)
Lemma check_XYZ_ok_inv (self : OracleCI) (X Y Zs X' Y' Z' : list node) :
  _check_XYZ self X Y Zs = Ok (X', Y', Z') →
  X' = fromkeys X ∧ Y' = fromkeys Y
  ∧ Z' = filter (fun n => negb (py_in n X') && negb (py_in n Y')) (fromkeys Zs)
  ∧ existsb lag_positive (X' ++ Y' ++ Z') = false
  ∧ existsb (var_out_of_range (N self)) (X' ++ Y' ++ Z') = false
  ∧ forallb lag_nonzero Y' = false.
Proof.
  unfold _check_XYZ. intros H.
  destruct (bool_decide _); [done|].
  destruct (existsb lag_positive _) eqn:E1; [done|].
  destruct (existsb (var_out_of_range _) _) eqn:E2; [done|].
  destruct (bool_decide _); [done|].
  destruct (forallb lag_nonzero _) eqn:E3; [done|].
  by simplify_eq.
Qed.

Lemma check_XYZ_ok_range (self : OracleCI) (X Y Zs X' Y' Z' : list node) :
  _check_XYZ self X Y Zs = Ok (X', Y', Z') →
  ∀ n, n ∈ X' ++ Y' ++ Z' → n.2 <= 0 ∧ 0 <= n.1 < N self.
Proof.
  intros H. apply check_XYZ_ok_inv in H as (_ & _ & _ & E1 & E2 & E3).
  intros n Hn. apply list_elem_of_In in Hn. split.
  - destruct (decide (n.2 <= 0)) as [|Hp]; [done|]. exfalso.
    assert (existsb lag_positive (X' ++ Y' ++ Z') = true); [|congruence].
    apply existsb_exists. exists n. split; [done|]. unfold lag_positive. lia.
  - destruct (decide (0 <= n.1 < N self)) as [|Hp]; [done|]. exfalso.
    assert (existsb (var_out_of_range (N self)) (X' ++ Y' ++ Z') = true);
      [|congruence].
    apply existsb_exists. exists n. split; [done|].
    unfold var_out_of_range. lia.
Qed.

(** X1.  A query that [_check_XYZ] accepts has the form of a cache key: every
    node has a lag that is not positive and a variable in [0, N), and [Y] has
    a node at lag 0. *)
Theorem check_XYZ_accepts_key_invariants (self : OracleCI)
    (X Y Zs X' Y' Z' : list node) :
  _check_XYZ self X Y Zs = Ok (X', Y', Z') →
  (∀ n, n ∈ X' ++ Y' ++ Z' → n.2 <= 0 ∧ 0 <= n.1 < N self)
  ∧ (∃ y, y ∈ Y' ∧ y.2 = 0).
Proof.
  intros H. split; [by eapply check_XYZ_ok_range|].
  apply check_XYZ_ok_inv in H as (_ & _ & _ & _ & _ & E3).
  apply not_true_iff_false in E3. rewrite forallb_forall in E3.
  destruct (decide (Exists (fun y : node => y.2 = 0) Y')) as [Hex|Hnex].
  - apply Exists_exists in Hex as (y & Hy & H0). eauto.
  - exfalso. apply E3. intros y Hy. apply list_elem_of_In in Hy.
    unfold lag_nonzero. destruct (decide (y.2 = 0)) as [H0|H0]; [|lia].
    exfalso. apply Hnex. apply Exists_exists. eauto.
Qed.

Lemma check_XYZ_accepts_key_invariants_witness :
  _check_XYZ oracle_chain [(0, -1); (0, -1)] [(1, 0)] [(0, -1); (1, -2)]
  = Ok ([(0, -1)], [(1, 0)], [(1, -2)])
  ∧ (∀ n, n ∈ [(0, -1)] ++ [(1, 0)] ++ [(1, -2)] →
          n.2 <= 0 ∧ 0 <= n.1 < N oracle_chain)
  ∧ (∃ y, y ∈ [(1, 0)] ∧ y.2 = 0).
Proof.
  split; [reflexivity|].
  exact (check_XYZ_accepts_key_invariants oracle_chain
           [(0, -1); (0, -1)] [(1, 0)] [(0, -1); (1, -2)]
           [(0, -1)] [(1, 0)] [(1, -2)] eq_refl).
Defined.

(** X2.  What [_check_XYZ] hands back: each list without duplicates, [X] and
    [Y] with the nodes they had, and [Z] with its nodes that are neither in
    [X] nor in [Y]. *)
Theorem check_XYZ_cleans (self : OracleCI) (X Y Zs X' Y' Z' : list node) :
  _check_XYZ self X Y Zs = Ok (X', Y', Z') →
  NoDup X' ∧ NoDup Y' ∧ NoDup Z'
  ∧ (∀ n, n ∈ X' ↔ n ∈ X) ∧ (∀ n, n ∈ Y' ↔ n ∈ Y)
  ∧ (∀ n, n ∈ Z' ↔ n ∈ Zs ∧ (n ∉ X) ∧ (n ∉ Y)).
Proof.
  intros H. apply check_XYZ_ok_inv in H as (-> & -> & -> & _).
  split_and!.
  - apply fromkeys_NoDup.
  - apply fromkeys_NoDup.
  - apply NoDup_filter, fromkeys_NoDup.
  - intros n. apply elem_of_fromkeys.
  - intros n. apply elem_of_fromkeys.
  - intros n. rewrite list_elem_of_filter, elem_of_fromkeys.
    rewrite andb_True, !negb_True, !Is_true_true, !py_in_true.
    rewrite !elem_of_fromkeys. tauto.
Qed.

Lemma check_XYZ_cleans_witness :
  _check_XYZ oracle_chain [(0, -1); (0, -1)] [(1, 0)] [(0, -1); (1, -2)]
  = Ok ([(0, -1)], [(1, 0)], [(1, -2)])
  ∧ NoDup [((0, -1) : node)] ∧ NoDup [((1, 0) : node)]
  ∧ NoDup [((1, -2) : node)].
Proof.
  split; [reflexivity|].
  destruct (check_XYZ_cleans oracle_chain
              [(0, -1); (0, -1)] [(1, 0)] [(0, -1); (1, -2)]
              [(0, -1)] [(1, 0)] [(1, -2)] eq_refl) as (H1 & H2 & H3 & _).
  split; [exact H1|]. split; [exact H2 | exact H3].
Defined.

(** X3.  Cleaning is idempotent: a query that [_check_XYZ] handed back is
    accepted again, and handed back as it is. *)
Theorem check_XYZ_idempotent (self : OracleCI) (X Y Zs X' Y' Z' : list node) :
  _check_XYZ self X Y Zs = Ok (X', Y', Z') →
  _check_XYZ self X' Y' Z' = Ok (X', Y', Z').
Proof.
  intros H.
  assert (NoDup X' ∧ NoDup Y' ∧ NoDup Z') as (HX & HY & HZ).
  { apply check_XYZ_ok_inv in H as (-> & -> & -> & _).
    split_and!; [apply fromkeys_NoDup | apply fromkeys_NoDup |].
    apply NoDup_filter, fromkeys_NoDup. }
  assert (∀ n, n ∈ Z' → (n ∉ X') ∧ (n ∉ Y')) as Hdis.
  { apply check_XYZ_ok_inv in H as (_ & _ & EZ & _).
    intros n Hn. rewrite EZ in Hn. apply list_elem_of_filter in Hn as [Hn _].
    apply andb_True in Hn as [H1 H2].
    apply negb_True in H1, H2. rewrite Is_true_true, py_in_true in H1, H2.
    done. }
  assert (filter (fun n => negb (py_in n X') && negb (py_in n Y')) Z' = Z')
    as Hfil.
  { clear -Hdis. induction Z' as [|z Z' IH]; [done|].
    rewrite filter_cons_True.
    - f_equal. apply IH. intros n Hn. apply Hdis. by right.
    - destruct (Hdis z) as [H1 H2]; [by left|].
      apply andb_True. rewrite !negb_True, !Is_true_true, !py_in_true. done. }
  unfold _check_XYZ in *.
  rewrite (fromkeys_id X'), (fromkeys_id Y'), (fromkeys_id Z') by done.
  rewrite Hfil.
  apply check_XYZ_ok_inv in H as H'. destruct H' as (EX & EY & EZ & E1 & E2 & E3).
  rewrite E1, E2, E3.
  destruct (bool_decide (X' ++ Y' ++ Z' = [])) eqn:Ee.
  { apply bool_decide_eq_true in Ee.
    apply app_eq_nil in Ee as [_ Ee]. apply app_eq_nil in Ee as [-> _].
    done. }
  destruct (bool_decide (Y' = [])) eqn:Ey; [|done].
  apply bool_decide_eq_true in Ey. rewrite Ey in E3. discriminate.
Qed.

Lemma check_XYZ_idempotent_witness :
  _check_XYZ oracle_chain [(0, -1); (0, -1)] [(1, 0)] [(0, -1); (1, -2)]
  = Ok ([(0, -1)], [(1, 0)], [(1, -2)])
  ∧ _check_XYZ oracle_chain [(0, -1)] [(1, 0)] [(1, -2)]
    = Ok ([(0, -1)], [(1, 0)], [(1, -2)]).
Proof.
  split; [reflexivity|].
  exact (check_XYZ_idempotent oracle_chain
           [(0, -1); (0, -1)] [(1, 0)] [(0, -1); (1, -2)]
           [(0, -1)] [(1, 0)] [(1, -2)] eq_refl).
Defined.

Lemma elem_of_fromkeys_acc_sub `{EqDecision A} (l seen : list A) (x : A) :
  x ∈ fromkeys_acc seen l → x ∈ l.
Proof. rewrite elem_of_fromkeys_acc. tauto. Qed.

Lemma filter_fromkeys_acc_app `{EqDecision A} (P : A → bool)
    (l W seen : list A) :
  (∀ w, w ∈ W → P w = false) →
  filter P (fromkeys_acc seen (l ++ W)) = filter P (fromkeys_acc seen l).
Proof.
  intros HW. revert seen. induction l as [|a l IH]; intros seen; simpl.
  - induction (fromkeys_acc seen W) as [|b bs IHb] eqn:E in HW |- *; [done|].
    assert (∀ x, x ∈ b :: bs → P x = false) as Hb.
    { intros x Hx. apply HW. rewrite <- E in Hx.
      by apply elem_of_fromkeys_acc_sub in Hx. }
    clear E HW IHb. induction (b :: bs) as [|c cs IHc]; [done|].
    rewrite filter_cons_False.
    + apply IHc. intros x Hx. apply Hb. by right.
    + rewrite (Hb c) by left. simpl. tauto.
  - destruct (py_in a seen); [apply IH|].
    rewrite !filter_cons. destruct (decide (P a)); [f_equal|]; apply IH.
Qed.

Lemma check_XYZ_drops_query_nodes (self : OracleCI) (X Y Zs W : list node) :
  (∀ n, n ∈ W → n ∈ X ∨ n ∈ Y) →
  _check_XYZ self X Y (Zs ++ W) = _check_XYZ self X Y Zs.
Proof.
  intros HW. unfold _check_XYZ, fromkeys.
  rewrite filter_fromkeys_acc_app; [done|].
  intros w Hw. apply HW in Hw.
  apply andb_false_iff. rewrite !negb_false_iff, !py_in_true.
  fold (fromkeys X) (fromkeys Y). rewrite !elem_of_fromkeys. done.
Qed.

Lemma translate_app (self : OracleCI) (A B : list raw_node) :
  translate self (A ++ B)
  = (a <-- translate self A ;; b <-- translate self B ;; Ok (a ++ b)).
Proof.
  induction A as [|x A IH]; simpl.
  - destruct (translate self B); done.
  - destruct (translate_node self x); simpl; try done.
    rewrite IH. destruct (translate self A); simpl; try done.
    destruct (translate self B); done.
Qed.

Lemma translate_elem (self : OracleCI) (X : list raw_node) (X' : list node)
    (w : raw_node) :
  translate self X = Ok X' → w ∈ X →
  ∃ n, translate_node self w = Ok n ∧ n ∈ X'.
Proof.
  revert X'. induction X as [|x X IH]; intros X' H Hw; [inversion Hw|].
  simpl in H. destruct (translate_node self x) as [n| |] eqn:En; try done.
  destruct (translate self X) as [ns| |] eqn:Ens; try done.
  simpl in H. simplify_eq. apply elem_of_cons in Hw as [-> | Hw].
  - exists n. split; [done | by left].
  - destruct (IH ns eq_refl Hw) as (m & Hm & Hin). exists m.
    split; [done | by right].
Qed.

Lemma translate_each (self : OracleCI) (W : list raw_node) (P : node → Prop) :
  (∀ w, w ∈ W → ∃ n, translate_node self w = Ok n ∧ P n) →
  ∃ W', translate self W = Ok W' ∧ ∀ n, n ∈ W' → P n.
Proof.
  induction W as [|w W IH]; intros H; simpl.
  - exists []. split; [done|]. intros n Hn. inversion Hn.
  - destruct (H w) as (n & Hn & HP); [by left|].
    destruct IH as (W' & HW' & HPW); [intros; apply H; by right|].
    rewrite Hn, HW'. simpl. exists (n :: W'). split; [done|].
    intros m Hm. apply elem_of_cons in Hm as [-> | Hm]; eauto.
Qed.

(** X4.  Nodes of X or Y that are listed again at the end of Z change
    nothing: outcome and object after the call are the same. *)
Theorem run_test_drops_query_nodes_from_Z (fuel : nat) (self : OracleCI)
    (X Y Zs W : list raw_node) (tau_max : Z) (cut_off : string)
    (verbosity : Z) (st : OracleState) :
  (∀ w, w ∈ W → w ∈ X ∨ w ∈ Y) →
  run_test fuel self X Y (Some (Zs ++ W)) tau_max cut_off verbosity st
  = run_test fuel self X Y (Some Zs) tau_max cut_off verbosity st.
Proof.
  intros HW. unfold run_test.
  assert (canonical self X Y (Some (Zs ++ W)) = canonical self X Y (Some Zs))
    as ->; [|done].
  unfold canonical; simpl.
  destruct (translate self X) as [X'| |] eqn:EX; simpl; try done.
  destruct (translate self Y) as [Y'| |] eqn:EY; simpl; try done.
  rewrite translate_app.
  destruct (translate self Zs) as [Z'| |] eqn:EZ; simpl; try done.
  destruct (translate_each self W (fun n => n ∈ X' ∨ n ∈ Y'))
    as (W' & -> & HW').
  { intros w Hw. destruct (HW w Hw) as [Hx | Hy].
    - destruct (translate_elem _ _ _ _ EX Hx) as (n & Hn & Hin). eauto.
    - destruct (translate_elem _ _ _ _ EY Hy) as (n & Hn & Hin). eauto. }
  simpl. by apply check_XYZ_drops_query_nodes.
Qed.

Lemma run_test_drops_query_nodes_from_Z_witness :
  (∀ w, w ∈ [[0; -1]; [1; 0]] → w ∈ [[0; -1]] ∨ w ∈ [[1; 0]])
  ∧ run_test 2 oracle_chain [[0; -1]] [[1; 0]]
      (Some ([[1; -1]] ++ [[0; -1]; [1; 0]])) 0 "" 0 fresh_state
    = run_test 2 oracle_chain [[0; -1]] [[1; 0]] (Some [[1; -1]]) 0 "" 0
        fresh_state.
Proof.
  assert (∀ w : raw_node,
            w ∈ [[0; -1]; [1; 0]] → w ∈ [[0; -1]] ∨ w ∈ [[1; 0]]) as HW.
  { intros w Hw. apply elem_of_cons in Hw as [-> | Hw]; [left; left|].
    apply elem_of_cons in Hw as [-> | Hw]; [right; left | inversion Hw]. }
  split; [exact HW|].
  exact (run_test_drops_query_nodes_from_Z 2 oracle_chain [[0; -1]] [[1; 0]]
           [[1; -1]] [[0; -1]; [1; 0]] 0 "" 0 fresh_state HW).
Defined.

(** ** The constructor *)

Lemma elem_of_insert_sorted (a x : Z) (l : list Z) :
  x ∈ insert_sorted a l ↔ x = a ∨ x ∈ l.
Proof.
  induction l as [|b l IH]; simpl.
  - rewrite list_elem_of_singleton, elem_of_nil. tauto.
  - destruct (a <=? b); rewrite !elem_of_cons; [tauto|]. rewrite IH. tauto.
Qed.

Lemma insert_sorted_sorted (a : Z) (l : list Z) :
  StronglySorted Z.le l → StronglySorted Z.le (insert_sorted a l).
Proof.
  induction l as [|b l IH]; simpl; intros Hs.
  - repeat constructor.
  - apply StronglySorted_cons in Hs as [Hb Hs].
    destruct (a <=? b) eqn:E.
    + apply StronglySorted_cons. split.
      * constructor; [lia|]. eapply Forall_impl; [exact Hb|].
        intros x Hx; simpl in *. lia.
      * by apply StronglySorted_cons.
    + apply StronglySorted_cons. split; [|by apply IH].
      apply Forall_forall. intros x Hx.
      apply elem_of_insert_sorted in Hx as [-> | Hx]; [lia|].
      by apply (proj1 (Forall_forall _ _) Hb).
Qed.

Lemma sorted_sorted (l : list Z) : StronglySorted Z.le (sorted l).
Proof.
  unfold sorted. induction l as [|a l IH]; simpl; [constructor|].
  by apply insert_sorted_sorted.
Qed.

Lemma sorted_fixes_sorted (l : list Z) : StronglySorted Z.le l → sorted l = l.
Proof.
  unfold sorted. induction l as [|a l IH]; simpl; intros Hs; [done|].
  apply StronglySorted_cons in Hs as [Ha Hs]. rewrite IH by done.
  destruct l as [|b l]; [done|]. simpl.
  apply Forall_cons in Ha as [Hab _]. by rewrite (proj2 (Z.leb_le a b)).
Qed.

Lemma increasing_NoDup (l : list Z) : StronglySorted Z.lt l → NoDup l.
Proof.
  induction l as [|a l IH]; intros Hs; [constructor|].
  apply StronglySorted_cons in Hs as [Ha Hs]. constructor; [|by apply IH].
  intros Hin. apply (proj1 (Forall_forall _ _) Ha) in Hin. lia.
Qed.

Lemma increasing_le (l : list Z) :
  StronglySorted Z.lt l → StronglySorted Z.le l.
Proof.
  induction l as [|a l IH]; intros Hs; [constructor|].
  apply StronglySorted_cons in Hs as [Ha Hs]. apply StronglySorted_cons.
  split; [|by apply IH]. eapply Forall_impl; [exact Ha|]. simpl. lia.
Qed.

Lemma sorted_NoDup_increasing (l : list Z) :
  StronglySorted Z.le l → NoDup l → StronglySorted Z.lt l.
Proof.
  induction l as [|a l IH]; intros Hs Hnd; [constructor|].
  apply StronglySorted_cons in Hs as [Ha Hs].
  apply NoDup_cons in Hnd as [Hna Hnd]. apply StronglySorted_cons.
  split; [|by apply IH]. apply Forall_forall. intros x Hx.
  pose proof (proj1 (Forall_forall _ _) Ha x Hx).
  assert (x ≠ a) by (intros ->; done). lia.
Qed.

Lemma py_range_increasing (lo hi : Z) : StronglySorted Z.lt (py_range lo hi).
Proof.
  unfold py_range. generalize (Z.to_nat (hi - lo)) as n. intros n.
  generalize 0%nat as s. induction n as [|n IH]; intros s; simpl;
    [constructor|].
  apply StronglySorted_cons. split; [|apply IH].
  apply Forall_forall. intros x Hx.
  apply list_elem_of_fmap in Hx as (k & -> & Hk).
  apply elem_of_seq in Hk. lia.
Qed.

Lemma py_range_NoDup (lo hi : Z) : NoDup (py_range lo hi).
Proof. apply increasing_NoDup, py_range_increasing. Qed.

(** What the three tests on a list of variables come to. *)
Lemma check_vars_ok (N : Z) (vars : list Z) :
  check_vars N vars = Ok tt
  ↔ (∀ v, v ∈ vars → 0 <= v < N) ∧ StronglySorted Z.lt vars.
Proof.
  unfold check_vars. split.
  - destruct (forallb _ vars) eqn:E1; simpl; [|done].
    destruct (bool_decide (vars = sorted vars)) eqn:E2; simpl; [|done].
    destruct (bool_decide (NoDup vars)) eqn:E3; simpl; [|done].
    intros _. apply bool_decide_eq_true in E2, E3. split.
    + intros v Hv. rewrite forallb_forall in E1.
      apply list_elem_of_In, E1, py_in_true, elem_of_py_range in Hv. done.
    + apply sorted_NoDup_increasing; [|done]. rewrite E2. apply sorted_sorted.
  - intros [Hr Hs].
    assert (forallb (fun v => py_in v (py_range 0 N)) vars = true) as ->.
    { apply forallb_forall. intros v Hv. apply list_elem_of_In in Hv.
      apply py_in_true, elem_of_py_range. auto. }
    simpl. rewrite sorted_fixes_sorted by (by apply increasing_le).
    rewrite bool_decide_eq_true_2 by done. simpl.
    rewrite bool_decide_eq_true_2 by (by apply increasing_NoDup). done.
Qed.

Lemma init_observed_in_range
    (lk : option (gmap Z (list link_props))) (obs sel : option (list Z))
    (graph : option graph_array) (v : Z) (self : OracleCI)
    (st : OracleState) :
  __init__ lk obs sel graph v = Ok (self, st) →
  ∀ i, i ∈ observed_vars self → 0 <= i < N self.
Proof.
  unfold __init__.
  destruct (match lk with Some l => _ | None => _ end)
    as [[[l o] s]| |]; simpl; try done.
  destruct o as [o|]; simpl.
  - destruct (check_vars _ o) as [[]| |] eqn:Eo; simpl; try done.
    apply check_vars_ok in Eo as [Ho1 _].
    destruct (match s with Some s' => _ | None => _ end); simpl; try done.
    intros; simplify_eq. by apply Ho1.
  - destruct (match s with Some s' => _ | None => _ end); simpl; try done.
    intros; simplify_eq. simpl in *. by apply elem_of_py_range in H0.
Qed.

(** X5.  A constructed oracle: [N] is the number of keys of [links], the
    caches are empty, and [observed_vars] and [selection_vars] are strictly
    increasing lists of indices below [N]. *)
Theorem init_establishes_invariants
    (lk : option (gmap Z (list link_props))) (obs sel : option (list Z))
    (graph : option graph_array) (v : Z) (self : OracleCI)
    (st : OracleState) :
  __init__ lk obs sel graph v = Ok (self, st) →
  st = fresh_state
  ∧ N self = Z.of_nat (size (links self))
  ∧ (∀ i, i ∈ observed_vars self → 0 <= i < N self)
  ∧ StronglySorted Z.lt (observed_vars self)
  ∧ (∀ i, i ∈ selection_vars self → 0 <= i < N self)
  ∧ StronglySorted Z.lt (selection_vars self).
Proof.
  unfold __init__.
  destruct (match lk with Some l => _ | None => _ end)
    as [[[l o] s]| |]; simpl; try done.
  destruct o as [o|]; simpl.
  - destruct (check_vars _ o) as [[]| |] eqn:Eo; simpl; try done.
    apply check_vars_ok in Eo as [Ho1 Ho2].
    destruct s as [s|]; simpl.
    + destruct (check_vars _ s) as [[]| |] eqn:Es; simpl; try done.
      apply check_vars_ok in Es as [Hs1 Hs2].
      intros; simplify_eq. simpl. done.
    + intros; simplify_eq. simpl. split_and!; try done.
      * intros i Hi. inversion Hi.
      * constructor.
  - destruct s as [s|]; simpl.
    + destruct (check_vars _ s) as [[]| |] eqn:Es; simpl; try done.
      apply check_vars_ok in Es as [Hs1 Hs2].
      intros; simplify_eq. simpl. split_and!; try done.
      * intros i Hi. by apply elem_of_py_range in Hi.
      * apply py_range_increasing.
    + intros; simplify_eq. simpl. split_and!; try done.
      * intros i Hi. by apply elem_of_py_range in Hi.
      * apply py_range_increasing.
      * intros i Hi. inversion Hi.
      * constructor.
Qed.

Lemma init_establishes_invariants_witness :
  __init__ (Some links_ex) None None None 0 = Ok (oracle_ex, fresh_state)
  ∧ N oracle_ex = Z.of_nat (size (links oracle_ex))
  ∧ StronglySorted Z.lt (observed_vars oracle_ex).
Proof.
  assert (__init__ (Some links_ex) None None None 0
          = Ok (oracle_ex, fresh_state)) as H by (vm_compute; reflexivity).
  split; [exact H|].
  destruct (init_establishes_invariants _ _ _ _ _ _ _ H)
    as (_ & H2 & _ & H4 & _).
  split; [exact H2 | exact H4].
Defined.

Lemma py_index_elem {A : Type} (l : list A) (i : Z) (a : A) :
  py_index l i = Ok a → a ∈ l.
Proof.
  unfold py_index. repeat case_match; intros; simplify_eq;
    by eapply list_elem_of_lookup_2.
Qed.

(** X6.  On a constructed oracle the translation of a query only yields
    variables in [0, N): the index test of [_check_XYZ] cannot fail. *)
Theorem constructed_oracle_translates_in_range
    (lk : option (gmap Z (list link_props))) (obs sel : option (list Z))
    (graph : option graph_array) (v : Z) (self : OracleCI)
    (st : OracleState) (X : list raw_node) (X' : list node) :
  __init__ lk obs sel graph v = Ok (self, st) →
  translate self X = Ok X' →
  existsb (var_out_of_range (N self)) X' = false.
Proof.
  intros Hinit. pose proof (init_observed_in_range _ _ _ _ _ _ _ Hinit) as Hobs.
  clear Hinit.
  revert X'. induction X as [|x X IH]; intros X'; simpl.
  - intros; by simplify_eq.
  - unfold translate_node.
    destruct (py_index x 0) as [x0| |]; simpl; try done.
    destruct (py_index (observed_vars self) x0) as [i| |] eqn:Ei; simpl;
      try done.
    destruct (py_index x 1) as [x1| |]; simpl; try done.
    destruct (translate self X) as [ns| |]; simpl; try done.
    intros; simplify_eq. simpl. rewrite (IH ns) by done.
    apply py_index_elem, Hobs in Ei. unfold var_out_of_range. simpl. lia.
Qed.

Lemma constructed_oracle_translates_in_range_witness :
  __init__ (Some links_ex) None None None 0 = Ok (oracle_ex, fresh_state)
  ∧ translate oracle_ex [[-1; 0]; [3; -2]] = Ok [(9, 0); (3, -2)]
  ∧ existsb (var_out_of_range (N oracle_ex)) [(9, 0); (3, -2)] = false.
Proof.
  assert (__init__ (Some links_ex) None None None 0
          = Ok (oracle_ex, fresh_state)) as H by (vm_compute; reflexivity).
  assert (translate oracle_ex [[-1; 0]; [3; -2]] = Ok [(9, 0); (3, -2)])
    as Ht by (vm_compute; reflexivity).
  split; [exact H|]. split; [exact Ht|].
  exact (constructed_oracle_translates_in_range _ _ _ _ _ _ _ _ _ H Ht).
Defined.

(** ** Compiling a graph array: which graphs compile *)

Lemma elem_of_np_where (graph : graph_array) (i j tau : Z) :
  (i, j, tau) ∈ np_where graph
  ↔ 0 <= i < g_N graph ∧ 0 <= j < g_N graph
    ∧ 0 <= tau < g_tau_maxplusone graph
    ∧ cell graph i j tau ≠ EmptyString.
Proof.
  unfold np_where. rewrite list_elem_of_bind.
  setoid_rewrite list_elem_of_bind. setoid_rewrite list_elem_of_bind.
  setoid_rewrite elem_of_py_range. split.
  - intros (i' & (j' & (t' & Hc & Ht) & Hj) & Hi).
    case_bool_decide; [inversion Hc|].
    apply list_elem_of_singleton in Hc. simplify_eq. done.
  - intros (Hi & Hj & Ht & Hc). exists i. split; [|done].
    exists j. split; [|done]. exists tau. split; [|done].
    rewrite bool_decide_eq_false_2 by done. by left.
Qed.

Lemma _reverse_patt_errors (patt : string) (e : exn) :
  _reverse_patt patt = Raise e → e = IndexError.
Proof.
  unfold _reverse_patt. destruct patt as [|a [|b [|c s]]]; intros; by simplify_eq.
Qed.

Lemma _reverse_patt_not_out_of_fuel (patt : string) :
  _reverse_patt patt ≠ OutOfFuel.
Proof. unfold _reverse_patt. by destruct patt as [|a [|b [|c s]]]. Qed.

Lemma cell_skipped_errors (graph : graph_array) (i j tau : Z) :
  cell_skipped graph i j tau ≠ OutOfFuel
  ∧ ∀ e, cell_skipped graph i j tau = Raise e →
         e = ValueError ∨ e = IndexError.
Proof.
  unfold cell_skipped. destruct (tau =? 0).
  - destruct (_reverse_patt (cell graph j i 0)) as [r| |] eqn:E; simpl.
    + destruct (negb _); split; try done; intros; simplify_eq; auto.
    + split; [done|]. intros; simplify_eq.
      apply _reverse_patt_errors in E. auto.
    + by apply _reverse_patt_not_out_of_fuel in E.
  - destruct (negb _); split; try done; intros; simplify_eq; auto.
Qed.

Lemma links_append_total (lk : gmap Z (list link_props)) (k i tau : Z) :
  is_Some (lk !! k) → ∃ lk', links_append lk k i tau = Ok lk'.
Proof. intros [l Hl]. rewrite (links_append_ok _ _ _ _ _ Hl). eauto. Qed.

(** With all its keys in place, no branch of the dispatch on the edge type
    raises. *)
Lemma add_edge_total (graph : graph_array) (i j tau : Z) (st : compile_state) :
  compile_inv st →
  0 <= i < c_latent_index st → 0 <= j < c_latent_index st →
  ∃ st', add_edge graph i j tau st = Ok st'.
Proof.
  intros [Hpos Hinv] Hi Hj. unfold add_edge.
  assert (is_Some (c_links st !! i)) as Hki by (apply Hinv; lia).
  assert (is_Some (c_links st !! j)) as Hkj by (apply Hinv; lia).
  repeat case_bool_decide.
  - destruct (links_append_total (c_links st) j i (- tau) Hkj) as [lk ->].
    simpl. eauto.
  - destruct (links_append_total (c_links st) i j (- tau) Hki) as [lk ->].
    simpl. eauto.
  - destruct (links_append_total (<[c_latent_index st := []]> (c_links st))
                i (c_latent_index st) 0) as [lk Hlk].
    { rewrite lookup_insert_ne by lia. done. }
    rewrite Hlk. simpl.
    destruct (links_append_total lk j (c_latent_index st) (- tau))
      as [lk2 ->].
    { rewrite (links_append_inv _ _ _ _ _ Hlk).
      rewrite lookup_insert_ne by lia. done. }
    simpl. eauto.
  - erewrite links_append_ok by apply lookup_insert_eq. simpl.
    erewrite links_append_ok by apply lookup_insert_eq. simpl. eauto.
  - eauto.
Qed.

(** The counter of synthetic variables never goes down. *)
Lemma compile_cell_latent_mono (graph : graph_array) (c : Z * Z * Z)
    (st st' : compile_state) :
  compile_cell graph st c = Ok st' →
  c_latent_index st <= c_latent_index st'.
Proof.
  destruct c as [[i j] tau]. unfold compile_cell.
  destruct (cell_skipped graph i j tau) as [[|]| |]; simpl; try done.
  - intros; simplify_eq. lia.
  - unfold add_edge. repeat case_bool_decide;
      repeat (destruct (links_append _ _ _ _) as [?| |]; simpl; try done);
      intros; simplify_eq; simpl; lia.
Qed.

(** The loop over a list of cells: it goes through when every cell passes
    the tests of [cell_skipped], and otherwise raises what the first
    failing cell raises. *)
Lemma compile_cells (graph : graph_array) (cells : list (Z * Z * Z))
    (st : compile_state) :
  compile_inv st → g_N graph <= c_latent_index st →
  (∀ i j tau, (i, j, tau) ∈ cells → 0 <= i < g_N graph ∧ 0 <= j < g_N graph) →
  (Forall (fun c => is_Ok (cell_skipped graph c.1.1 c.1.2 c.2) = true) cells
   ∧ ∃ st', for_each (compile_cell graph) cells st = Ok st')
  ∨ (Exists (fun c => is_Ok (cell_skipped graph c.1.1 c.1.2 c.2) = false) cells
     ∧ ∃ e, for_each (compile_cell graph) cells st = Raise e
            ∧ (e = ValueError ∨ e = IndexError)).
Proof.
  revert st. induction cells as [|[[i j] tau] cells IH]; intros st Hinv HN Hin.
  - left. split; [constructor | simpl; eauto].
  - destruct (Hin i j tau) as [Hi Hj]; [by left|]. simpl.
    unfold compile_cell at 1.
    destruct (cell_skipped graph i j tau) as [skip| |] eqn:Es; simpl.
    + assert (∃ st1, (if skip then Ok st else add_edge graph i j tau st)
                     = Ok st1) as [st1 Hst1].
      { destruct skip; [eauto|].
        apply add_edge_total; [done | lia | lia]. }
      rewrite Hst1. simpl.
      assert (compile_cell graph st (i, j, tau) = Ok st1) as Hcc.
      { unfold compile_cell. rewrite Es. done. }
      destruct (IH st1) as [[Hall Hok] | [Hex Herr]].
      * by eapply compile_cell_inv.
      * apply compile_cell_latent_mono in Hcc. lia.
      * intros i' j' tau' H'. apply (Hin i' j' tau'). by right.
      * left. split; [|done]. constructor; [simpl; by rewrite Es | done].
      * right. split; [by apply Exists_cons_tl | done].
    + right. split.
      * apply Exists_cons_hd. simpl. by rewrite Es.
      * exists e. split; [done|].
        by apply (proj2 (cell_skipped_errors graph i j tau)).
    + by apply (proj1 (cell_skipped_errors graph i j tau)) in Es.
Qed.

Lemma np_where_in_shape (graph : graph_array) (i j tau : Z) :
  (i, j, tau) ∈ np_where graph → 0 <= i < g_N graph ∧ 0 <= j < g_N graph.
Proof. rewrite elem_of_np_where. tauto. Qed.

Lemma np_where_nil (graph : graph_array) :
  g_N graph <= 0 → np_where graph = [].
Proof.
  intros HN. destruct (np_where graph) as [|[[i j] tau] l] eqn:E; [done|].
  assert ((i, j, tau) ∈ np_where graph) as Hin by (rewrite E; left).
  apply elem_of_np_where in Hin. lia.
Qed.

Lemma compile_graph_cases (graph : graph_array) :
  (Forall (fun c => is_Ok (cell_skipped graph c.1.1 c.1.2 c.2) = true)
          (np_where graph)
   ∧ ∃ st', for_each (compile_cell graph) (np_where graph)
              (compile_init graph) = Ok st')
  ∨ (Exists (fun c => is_Ok (cell_skipped graph c.1.1 c.1.2 c.2) = false)
            (np_where graph)
     ∧ ∃ e, for_each (compile_cell graph) (np_where graph)
              (compile_init graph) = Raise e
            ∧ (e = ValueError ∨ e = IndexError)).
Proof.
  destruct (decide (0 <= g_N graph)) as [HN|HN].
  - apply compile_cells.
    + by apply compile_init_inv.
    + simpl. lia.
    + apply np_where_in_shape.
  - rewrite np_where_nil by lia. left. split; [constructor | simpl; eauto].
Qed.

(** An array of the documented shape compiles exactly when its dtype is a
    U3 one and every non-empty cell passes its test. *)
Lemma square_graph_compiles_iff (graph : graph_array) :
  is_Ok (get_links_from_graph graph) = true
  ↔ dtype_has_U3 graph = true
    ∧ ∀ i j tau, (i, j, tau) ∈ np_where graph →
                 is_Ok (cell_skipped graph i j tau) = true.
Proof.
  unfold get_links_from_graph. destruct (dtype_has_U3 graph); simpl.
  2:{ split; [done | intros [? _]; done]. }
  destruct (compile_graph_cases graph) as [[Hall [st' ->]] | [Hex (e & -> & _)]];
    simpl.
  - split; [|done]. intros _. split; [done|]. intros i j tau Hin.
    by apply (proj1 (Forall_forall _ _) Hall (i, j, tau)).
  - split; [done|]. intros [_ Hall]. exfalso.
    apply Exists_exists in Hex as ([[i j] tau] & Hin & Hbad). simpl in Hbad.
    rewrite Hall in Hbad; done.
Qed.

(** ** Compiling a graph array of any shape *)

Lemma for_each_ext_in {A S : Type} (f g : S → A → res S) (l : list A)
    (st : S) :
  (∀ s a, a ∈ l → f s a = g s a) → for_each f l st = for_each g l st.
Proof.
  revert st. induction l as [|a l IH]; intros st H; [done|].
  rewrite !for_each_cons, (H st a) by (by left).
  destruct (g st a); simpl; [|done ..]. apply IH. intros s a' Ha'.
  apply H. by right.
Qed.

Lemma array_where_square (a : array3) :
  a_shape0 a = a_shape1 a → array_where a = np_where (as_graph a).
Proof. intros H. unfold array_where, np_where. simpl. by rewrite H. Qed.

Lemma np_axis_in_range (n i : Z) : 0 <= i < n → np_axis n i = Ok i.
Proof.
  intros H. unfold np_axis.
  replace (0 <=? i) with true by (symmetry; apply Z.leb_le; lia).
  replace (i <? n) with true by (symmetry; apply Z.ltb_lt; lia).
  done.
Qed.

Lemma array_cell_skipped_square (a : array3) (i j tau : Z) :
  a_shape0 a = a_shape1 a → (i, j, tau) ∈ array_where a →
  array_cell_skipped a i j tau = cell_skipped (as_graph a) i j tau.
Proof.
  intros H Hin. rewrite array_where_square in Hin by done.
  apply elem_of_np_where in Hin as (Hi & Hj & Ht & _). simpl in *.
  unfold array_cell_skipped, cell_skipped, array_get. simpl.
  destruct (tau =? 0) eqn:E; [|done].
  rewrite !np_axis_in_range by lia. done.
Qed.

(** On an array of the documented shape the two embeddings agree. *)
Lemma get_links_from_array_square (a : array3) :
  a_shape0 a = a_shape1 a →
  get_links_from_array a = get_links_from_graph (as_graph a).
Proof.
  intros H. unfold get_links_from_array, get_links_from_graph. simpl.
  destruct (negb (a_dtype_has_U3 a)); [done|].
  rewrite <- (array_where_square a H).
  rewrite (for_each_ext_in (array_compile_cell a) (compile_cell (as_graph a)));
    [done|].
  intros s [[i j] tau] Hin. unfold array_compile_cell, compile_cell.
  by rewrite (array_cell_skipped_square a i j tau H Hin).
Qed.

Lemma get_links_from_square_array (graph : graph_array) :
  get_links_from_array (square_array graph) = get_links_from_graph graph.
Proof.
  rewrite get_links_from_array_square by done. by destruct graph.
Qed.

(** Without the condition on the shape the lookups in [links] can fail:
    the cell [(2, 0, 1)] of [array_tall] passes its test, and its row index
    [2] is no key of [links]. *)
Lemma array_tall_raises_KeyError :
  a_shape0 array_tall ≠ a_shape1 array_tall
  ∧ (∀ i j tau, (i, j, tau) ∈ array_where array_tall →
                is_Ok (array_cell_skipped array_tall i j tau) = true)
  ∧ get_links_from_array array_tall = Raise KeyError.
Proof.
  split; [done|]. split; [|vm_compute; reflexivity].
  intros i j tau Hin. vm_compute in Hin.
  apply list_elem_of_singleton in Hin. by simplify_eq.
Qed.

(** And what comes out need not be closed: the parent [2] that
    [array_tall_arrow] gives to the variable [0] is no key of [links]. *)
Lemma array_tall_arrow_not_closed :
  get_links_from_array array_tall_arrow
  = Ok ({[ 0 := [Link2 2 (-1)] ]}, [0], [])
  ∧ ¬ links_closed {[ 0 := [Link2 2 (-1)] ]}.
Proof.
  split; [vm_compute; reflexivity|]. intros [_ Hc].
  specialize (Hc 0 [Link2 2 (-1)] (Link2 2 (-1))). simpl in Hc.
  rewrite lookup_singleton_eq in Hc.
  destruct (Hc eq_refl ltac:(by left)) as [l Hl].
  rewrite lookup_singleton_ne in Hl; done.
Qed.

(** X7.  A graph array of the documented shape [(N, N, tau_max + 1)]
    compiles exactly when its dtype is a U3 one and every non-empty cell
    passes its test: the lag-0 cells the consistency test, the lagged cells
    the test on their edge type. *)
Theorem graph_compiles_iff_cells_pass (a : array3) :
  a_shape0 a = a_shape1 a →
  is_Ok (get_links_from_array a) = true
  ↔ a_dtype_has_U3 a = true
    ∧ ∀ i j tau, (i, j, tau) ∈ array_where a →
                 is_Ok (array_cell_skipped a i j tau) = true.
Proof.
  intros H. rewrite (get_links_from_array_square a H).
  rewrite (square_graph_compiles_iff (as_graph a)). simpl.
  rewrite <- (array_where_square a H). split.
  - intros [Hd Hall]. split; [done|]. intros i j tau Hin.
    rewrite (array_cell_skipped_square a i j tau H Hin). by apply Hall.
  - intros [Hd Hall]. split; [done|]. intros i j tau Hin.
    rewrite <- (array_cell_skipped_square a i j tau H Hin). by apply Hall.
Qed.

Lemma graph_compiles_iff_cells_pass_witness :
  a_shape0 (square_array graph_arrow) = a_shape1 (square_array graph_arrow)
  ∧ is_Ok (get_links_from_array (square_array graph_arrow)) = true
  ∧ ∀ i j tau, (i, j, tau) ∈ array_where (square_array graph_arrow) →
      is_Ok (array_cell_skipped (square_array graph_arrow) i j tau) = true.
Proof.
  assert (a_shape0 (square_array graph_arrow)
          = a_shape1 (square_array graph_arrow)) as H by reflexivity.
  assert (is_Ok (get_links_from_array (square_array graph_arrow)) = true)
    as Hok by (vm_compute; reflexivity).
  split; [exact H|]. split; [exact Hok|].
  exact (proj2 (proj1 (graph_compiles_iff_cells_pass
                         (square_array graph_arrow) H) Hok)).
Defined.

(** X8.  Compiling a graph array of the documented shape
    [(N, N, tau_max + 1)] raises nothing but [ValueError] (a wrong dtype, an
    inconsistent lag-0 pair, a wrong lagged edge type) and [IndexError] (a
    cell of one or two characters): no lookup in [links] and no lookup in
    the array fails. *)
Theorem graph_compile_errors (a : array3) (e : exn) :
  a_shape0 a = a_shape1 a →
  get_links_from_array a = Raise e → e = ValueError ∨ e = IndexError.
Proof.
  intros H. rewrite (get_links_from_array_square a H).
  unfold get_links_from_graph.
  destruct (dtype_has_U3 (as_graph a)); simpl.
  2:{ intros; simplify_eq. auto. }
  destruct (compile_graph_cases (as_graph a))
    as [[_ [st' ->]] | [_ (e' & -> & He)]];
    simpl; intros; simplify_eq. done.
Qed.

Lemma graph_compile_errors_witness :
  a_shape0 (square_array graph_lagged_reverse)
  = a_shape1 (square_array graph_lagged_reverse)
  ∧ get_links_from_array (square_array graph_lagged_reverse)
    = Raise ValueError
  ∧ (ValueError = ValueError ∨ ValueError = IndexError).
Proof.
  assert (a_shape0 (square_array graph_lagged_reverse)
          = a_shape1 (square_array graph_lagged_reverse)) as H
    by reflexivity.
  assert (get_links_from_array (square_array graph_lagged_reverse)
          = Raise ValueError) as Hr by (vm_compute; reflexivity).
  split; [exact H|]. split; [exact Hr|].
  exact (graph_compile_errors (square_array graph_lagged_reverse) ValueError
           H Hr).
Defined.

(** ** Compiling a graph array: what comes out *)

Lemma links_append_lookup (lk lk' : gmap Z (list link_props)) (k i t : Z)
    (k' : Z) (l' : list link_props) :
  links_append lk k i t = Ok lk' → lk' !! k' = Some l' →
  (k' = k ∧ ∃ l, lk !! k = Some l ∧ l' = l ++ [Link2 i t])
  ∨ (k' ≠ k ∧ lk !! k' = Some l').
Proof.
  unfold links_append, py_getitem.
  destruct (lk !! k) as [l|] eqn:E; simpl; [|done].
  intros ? Hl'; simplify_eq. rewrite lookup_insert in Hl'. case_decide.
  - simplify_eq. left. eauto.
  - right. done.
Qed.

Lemma compile_entries_append (lk lk' : gmap Z (list link_props))
    (sel sel' : list Z) (L L' k i t : Z) :
  compile_entries (mkCompile lk sel L) →
  links_append lk k i t = Ok lk' → L <= L' → 0 <= i < L' → t <= 0 →
  compile_entries (mkCompile lk' sel' L').
Proof.
  intros He Ha HL Hi Ht k' l' lp Hl' Hin. simpl in *.
  destruct (links_append_lookup _ _ _ _ _ _ _ Ha Hl')
    as [[-> (l & Hl & ->)] | [Hne Hl]].
  - apply elem_of_app in Hin as [Hin | Hin].
    + destruct (He k l lp Hl Hin) as (i' & t' & -> & ? & ?). simpl in *.
      exists i', t'. split; [done|]. lia.
    + apply list_elem_of_singleton in Hin as ->. exists i, t. done.
  - destruct (He k' l' lp Hl Hin) as (i' & t' & -> & ? & ?). simpl in *.
    exists i', t'. split; [done|]. lia.
Qed.

Lemma compile_entries_fresh (lk : gmap Z (list link_props)) (sel : list Z)
    (L k : Z) :
  compile_entries (mkCompile lk sel L) →
  compile_entries (mkCompile (<[k := []]> lk) sel L).
Proof.
  intros He k' l' lp Hl' Hin. simpl in *. rewrite lookup_insert in Hl'.
  case_decide; simplify_eq; [inversion Hin|]. eauto.
Qed.

Lemma add_edge_entries (graph : graph_array) (i j tau : Z)
    (st st' : compile_state) :
  compile_entries st → 0 <= i < c_latent_index st →
  0 <= j < c_latent_index st → 0 <= tau →
  add_edge graph i j tau st = Ok st' → compile_entries st'.
Proof.
  intros He Hi Hj Ht. destruct st as [lk sel L]. unfold add_edge. simpl in *.
  repeat case_bool_decide.
  - destruct (links_append lk j i (- tau)) as [lk1| |] eqn:E1; simpl; try done.
    intros; simplify_eq.
    eapply compile_entries_append; [exact He | exact E1 | lia ..].
  - destruct (links_append lk i j (- tau)) as [lk1| |] eqn:E1; simpl; try done.
    intros; simplify_eq.
    eapply compile_entries_append; [exact He | exact E1 | lia ..].
  - destruct (links_append _ i L 0) as [lk1| |] eqn:E1; simpl; try done.
    destruct (links_append lk1 j L (- tau)) as [lk2| |] eqn:E2; simpl;
      try done.
    intros; simplify_eq.
    eapply (compile_entries_append lk1 lk2 sel sel (L + 1));
      [| exact E2 | lia ..].
    eapply (compile_entries_append _ lk1 sel sel L);
      [| exact E1 | lia ..].
    by apply compile_entries_fresh.
  - destruct (links_append _ L i (- tau)) as [lk1| |] eqn:E1; simpl; try done.
    destruct (links_append lk1 L j 0) as [lk2| |] eqn:E2; simpl; try done.
    intros; simplify_eq.
    eapply (compile_entries_append lk1 lk2 sel _ (L + 1));
      [| exact E2 | lia ..].
    eapply (compile_entries_append _ lk1 sel sel L);
      [| exact E1 | lia ..].
    by apply compile_entries_fresh.
  - intros; by simplify_eq.
Qed.

Lemma add_edge_selection (graph : graph_array) (n i j tau : Z)
    (st st' : compile_state) :
  compile_selection n st →
  add_edge graph i j tau st = Ok st' → compile_selection n st'.
Proof.
  intros (Hn & Hs & Hr). destruct st as [lk sel L]. unfold add_edge.
  simpl in *. repeat case_bool_decide;
    repeat (destruct (links_append _ _ _ _) as [?| |]; simpl; try done);
    intros; simplify_eq; split_and!; simpl; try done; try lia.
  - intros s Hin. apply Hr in Hin. lia.
  - apply StronglySorted_app. split_and!; [|done|repeat constructor].
    intros s1 s2 Hs1 Hs2. apply list_elem_of_singleton in Hs2 as ->.
    apply Hr in Hs1. lia.
  - intros s Hin. apply elem_of_app in Hin as [Hin | Hin].
    + apply Hr in Hin. lia.
    + apply list_elem_of_singleton in Hin as ->. lia.
Qed.

(** All of it holds wherever the loop stands. *)
Lemma compile_cells_wf (graph : graph_array) (cells : list (Z * Z * Z))
    (st st' : compile_state) :
  (∀ i j tau, (i, j, tau) ∈ cells →
     0 <= i < g_N graph ∧ 0 <= j < g_N graph ∧ 0 <= tau) →
  compile_inv st ∧ compile_entries st ∧ compile_selection (g_N graph) st →
  for_each (compile_cell graph) cells st = Ok st' →
  compile_inv st' ∧ compile_entries st' ∧ compile_selection (g_N graph) st'.
Proof.
  revert st. induction cells as [|[[i j] tau] cells IH]; intros st Hin Hst.
  - simpl. intros; by simplify_eq.
  - rewrite for_each_cons.
    destruct (compile_cell graph st (i, j, tau)) as [st1| |] eqn:E; simpl;
      try done.
    apply IH; [intros i' j' tau' H'; apply (Hin i' j' tau'); by right|].
    destruct Hst as (Hinv & Hent & Hsel).
    destruct (Hin i j tau) as (Hi & Hj & Ht); [by left|].
    split; [by eapply compile_cell_inv|].
    unfold compile_cell in E.
    destruct (cell_skipped graph i j tau) as [[|]| |]; simpl in E; try done.
    + by simplify_eq.
    + pose proof Hsel as (Hn & _). split.
      * apply (add_edge_entries graph i j tau st st1 Hent);
          [lia | lia | lia | exact E].
      * apply (add_edge_selection graph (g_N graph) i j tau st st1);
          [done | exact E].
Qed.

Lemma compile_init_wf (graph : graph_array) :
  0 <= g_N graph →
  compile_inv (compile_init graph) ∧ compile_entries (compile_init graph)
  ∧ compile_selection (g_N graph) (compile_init graph).
Proof.
  intros HN. split; [by apply compile_init_inv|]. split.
  - intros k l lp Hl Hin. simpl in Hl.
    apply elem_of_list_to_map_2 in Hl.
    apply list_elem_of_fmap in Hl as (y & Hy & _). simplify_eq. inversion Hin.
  - split; [simpl; lia|]. split; [constructor|].
    intros s Hs. inversion Hs.
Qed.

Lemma size_of_keys {A : Type} (m : gmap Z A) (L : Z) :
  0 <= L → (∀ k, is_Some (m !! k) ↔ 0 <= k < L) → Z.of_nat (size m) = L.
Proof.
  intros HL Hk.
  assert (dom m = list_to_set (py_range 0 L)) as Hdom.
  { apply set_eq. intros k.
    rewrite elem_of_dom, Hk, elem_of_list_to_set, elem_of_py_range. done. }
  rewrite <- size_dom, Hdom, size_list_to_set.
  - unfold py_range. rewrite length_fmap, length_seq. lia.
  - apply increasing_NoDup, py_range_increasing.
Qed.

(** X9.  What a graph array of the documented shape [(N, N, tau_max + 1)]
    compiles to: the observed variables are the [N] variables of the array;
    the keys of [links] are [0 .. len(links) - 1]; every entry is a pair
    [(i, tau)] whose source [i] is a key and whose lag [tau] is not
    positive; the selection variables are synthetic indices ([>= N]) in
    increasing order. *)
Theorem compiled_links_well_formed (a : array3)
    (lk : gmap Z (list link_props)) (obs sel : list Z) :
  a_shape0 a = a_shape1 a → 0 <= a_shape1 a →
  get_links_from_array a = Ok (lk, obs, sel) →
  obs = py_range 0 (a_shape1 a)
  ∧ a_shape1 a <= Z.of_nat (size lk)
  ∧ links_closed lk ∧ links_lag_nonpos lk
  ∧ (∀ k l lp, lk !! k = Some l → lp ∈ l → ∃ i t, lp = Link2 i t)
  ∧ StronglySorted Z.lt sel
  ∧ ∀ s, s ∈ sel → a_shape1 a <= s < Z.of_nat (size lk).
Proof.
  intros Hsq HN. rewrite (get_links_from_array_square a Hsq).
  change (a_shape1 a) with (g_N (as_graph a)) in *.
  set (graph := as_graph a) in *. clearbody graph. clear Hsq.
  unfold get_links_from_graph.
  destruct (negb (dtype_has_U3 graph)); [done|].
  destruct (for_each _ _ _) as [st| |] eqn:E; simpl; try done.
  intros; simplify_eq.
  apply compile_cells_wf in E as ([Hpos Hkeys] & Hent & (Hn & Hs & Hr)).
  2:{ intros i j tau Hin. apply elem_of_np_where in Hin. lia. }
  2:{ by apply compile_init_wf. }
  rewrite (size_of_keys _ _ Hpos Hkeys). split_and!; try done.
  - split.
    + intros k. by rewrite (size_of_keys _ _ Hpos Hkeys).
    + intros k l lp Hl Hin.
      destruct (Hent k l lp Hl Hin) as (i & t & -> & Hi & _). simpl.
      by apply Hkeys.
  - intros k l lp Hl Hin.
    destruct (Hent k l lp Hl Hin) as (i & t & -> & _ & Ht). done.
  - intros k l lp Hl Hin.
    destruct (Hent k l lp Hl Hin) as (i & t & -> & _). eauto.
Qed.

Lemma compiled_links_well_formed_witness :
  a_shape0 (square_array graph_selection)
  = a_shape1 (square_array graph_selection)
  ∧ 0 <= a_shape1 (square_array graph_selection)
  ∧ get_links_from_array (square_array graph_selection)
    = Ok ({[ 0 := []; 1 := [Link2 0 (-1); Link2 0 0] ]}, [0], [1])
  ∧ links_closed {[ 0 := []; 1 := [Link2 0 (-1); Link2 0 0] ]}
  ∧ links_lag_nonpos {[ 0 := []; 1 := [Link2 0 (-1); Link2 0 0] ]}.
Proof.
  assert (a_shape0 (square_array graph_selection)
          = a_shape1 (square_array graph_selection)) as Hs by reflexivity.
  assert (0 <= a_shape1 (square_array graph_selection)) as HN
    by (simpl; lia).
  assert (get_links_from_array (square_array graph_selection)
          = Ok ({[ 0 := []; 1 := [Link2 0 (-1); Link2 0 0] ]}, [0], [1]))
    as H by (vm_compute; reflexivity).
  split; [exact Hs|]. split; [exact HN|]. split; [exact H|].
  destruct (compiled_links_well_formed _ _ _ _ Hs HN H)
    as (_ & _ & H3 & H4 & _).
  split; [exact H3 | exact H4].
Defined.

(** X10.  A graph array that compiles always makes an oracle: the tests of
    the constructor on [observed_vars] and [selection_vars] cannot fail on
    what the compilation hands over (and what the caller passed for them is
    ignored). *)
Theorem compiled_graph_constructs (graph : graph_array)
    (lk : gmap Z (list link_props)) (obs sel : list Z)
    (obs' sel' : option (list Z)) (v : Z) :
  0 <= g_N graph →
  get_links_from_graph graph = Ok (lk, obs, sel) →
  __init__ None obs' sel' (Some graph) v
  = Ok ({| links := lk; N := Z.of_nat (size lk); observed_vars := obs;
           selection_vars := sel; verbosity := v |}, fresh_state).
Proof.
  intros HN H. unfold __init__. rewrite H. simpl.
  assert (obs = py_range 0 (g_N graph) ∧ g_N graph <= Z.of_nat (size lk)
          ∧ StronglySorted Z.lt sel
          ∧ ∀ s, s ∈ sel → g_N graph <= s < Z.of_nat (size lk))
    as (-> & Hn & Hs & Hr).
  { unfold get_links_from_graph in H.
    destruct (negb (dtype_has_U3 graph)); [done|].
    destruct (for_each _ _ _) as [st| |] eqn:E; simpl in H; try done.
    simplify_eq.
    apply compile_cells_wf in E as ([Hpos Hkeys] & _ & (Hn & Hs & Hr)).
    - by rewrite (size_of_keys _ _ Hpos Hkeys).
    - intros i j tau Hin. apply elem_of_np_where in Hin. lia.
    - by apply compile_init_wf. }
  rewrite (proj2 (check_vars_ok _ (py_range 0 (g_N graph)))).
  2:{ split; [|apply py_range_increasing].
      intros i Hi. apply elem_of_py_range in Hi. lia. }
  simpl. rewrite (proj2 (check_vars_ok _ sel)).
  2:{ split; [|done]. intros i Hi. apply Hr in Hi. lia. }
  done.
Qed.

Lemma compiled_graph_constructs_witness :
  0 <= g_N graph_selection
  ∧ get_links_from_graph graph_selection
    = Ok ({[ 0 := []; 1 := [Link2 0 (-1); Link2 0 0] ]}, [0], [1])
  ∧ is_Ok (__init__ None None None (Some graph_selection) 0) = true.
Proof.
  assert (0 <= g_N graph_selection) as HN by (simpl; lia).
  assert (get_links_from_graph graph_selection
          = Ok ({[ 0 := []; 1 := [Link2 0 (-1); Link2 0 0] ]}, [0], [1]))
    as H by (vm_compute; reflexivity).
  split; [exact HN|]. split; [exact H|].
  rewrite (compiled_graph_constructs _ _ _ _ None None 0 HN H). reflexivity.
Defined.

(** ** Compiling a graph array: a lag-0 pair is processed once *)

Lemma np_where_NoDup (graph : graph_array) : NoDup (np_where graph).
Proof.
  unfold np_where. apply NoDup_bind; [| |apply py_range_NoDup].
  - intros i1 i2 c _ _ H1 H2.
    apply list_elem_of_bind in H1 as (j1 & H1 & _).
    apply list_elem_of_bind in H1 as (t1 & H1 & _).
    apply list_elem_of_bind in H2 as (j2 & H2 & _).
    apply list_elem_of_bind in H2 as (t2 & H2 & _).
    repeat case_bool_decide; try by inversion H1. try by inversion H2.
    apply list_elem_of_singleton in H1, H2. by simplify_eq.
  - intros i _. apply NoDup_bind; [| |apply py_range_NoDup].
    + intros j1 j2 c _ _ H1 H2.
      apply list_elem_of_bind in H1 as (t1 & H1 & _).
      apply list_elem_of_bind in H2 as (t2 & H2 & _).
      repeat case_bool_decide; try by inversion H1. try by inversion H2.
      apply list_elem_of_singleton in H1, H2. by simplify_eq.
    + intros j _. apply NoDup_bind; [| |apply py_range_NoDup].
      * intros t1 t2 c _ _ H1 H2.
        repeat case_bool_decide; try by inversion H1. try by inversion H2.
        apply list_elem_of_singleton in H1, H2. by simplify_eq.
      * intros t _. case_bool_decide; [constructor | apply NoDup_singleton].
Qed.

Lemma entry_count_app (src : node) (l1 l2 : list link_props) :
  entry_count src (l1 ++ l2)
  = (entry_count src l1 + entry_count src l2)%nat.
Proof. unfold entry_count. by rewrite filter_app, length_app. Qed.

Lemma links_append_count (lk lk' : gmap Z (list link_props)) (k i t : Z)
    (b : Z) (src : node) :
  links_append lk k i t = Ok lk' →
  entry_count src (default [] (lk' !! b))
  = (entry_count src (default [] (lk !! b))
     + if decide (b = k ∧ (i, t) = src) then 1 else 0)%nat.
Proof.
  unfold links_append, py_getitem.
  destruct (lk !! k) as [l|] eqn:E; simpl; [|done].
  intros; simplify_eq. rewrite lookup_insert.
  destruct (decide (k = b)) as [->|Hne].
  - rewrite E. simpl. rewrite entry_count_app. f_equal.
    unfold entry_count. case_decide as Hd.
    + destruct Hd as [_ <-]. by rewrite filter_cons_True.
    + rewrite filter_cons_False; [done|]. simpl. intros Heq. apply Hd. done.
  - case_decide as Hd; [destruct Hd; congruence | lia].
Qed.

(** What processing one cell does to the number of times [(a, 0)] stands in
    [links[b]], for two variables [a], [b] of the array. *)
Lemma add_edge_count (graph : graph_array) (i j tau a b : Z)
    (st st' : compile_state) :
  g_N graph <= c_latent_index st → 0 <= a < g_N graph → 0 <= b < g_N graph →
  add_edge graph i j tau st = Ok st' →
  entry_count (a, 0) (default [] (c_links st' !! b))
  = Nat.add (entry_count (a, 0) (default [] (c_links st !! b)))
      (if decide (tau = 0
                  ∧ (cell graph i j tau = "-->"%string ∧ i = a ∧ j = b
                     ∨ cell graph i j tau = "<--"%string ∧ j = a ∧ i = b))
       then 1%nat else 0%nat).
Proof.
  intros HL Ha Hb. unfold add_edge.
  case_bool_decide as E1; [|case_bool_decide as E2;
    [|case_bool_decide as E3; [|case_bool_decide as E4]]].
  - destruct (links_append _ _ _ _) as [lk| |] eqn:E; simpl; [|done ..].
    intros; simplify_eq. simpl. rewrite (links_append_count _ _ _ _ _ _ _ E).
    f_equal. apply decide_ext. rewrite E1. split.
    + intros [-> [= -> Ht]]. split; [lia|]. left. done.
    + intros (-> & [(_ & -> & ->) | (? & _)]); done.
  - destruct (links_append _ _ _ _) as [lk| |] eqn:E; simpl; [|done ..].
    intros; simplify_eq. simpl. rewrite (links_append_count _ _ _ _ _ _ _ E).
    f_equal. apply decide_ext. rewrite E2. split.
    + intros [-> [= -> Ht]]. split; [lia|]. right. done.
    + intros (-> & [(? & _) | (_ & -> & ->)]); done.
  - destruct (links_append _ _ _ _) as [lk| |] eqn:E; simpl; [|done ..].
    destruct (links_append lk _ _ _) as [lk2| |] eqn:E'; simpl; [|done ..].
    intros; simplify_eq. simpl.
    rewrite (links_append_count _ _ _ _ _ _ _ E').
    rewrite (links_append_count _ _ _ _ _ _ _ E).
    rewrite lookup_insert_ne by lia. rewrite E3.
    rewrite !decide_False; [lia | | |].
    + intros (_ & [(? & _) | (? & _)]); done.
    + intros [_ [=]]. lia.
    + intros [_ [=]]. lia.
  - destruct (links_append _ _ _ _) as [lk| |] eqn:E; simpl; [|done ..].
    destruct (links_append lk _ _ _) as [lk2| |] eqn:E'; simpl; [|done ..].
    intros; simplify_eq. simpl.
    rewrite (links_append_count _ _ _ _ _ _ _ E').
    rewrite (links_append_count _ _ _ _ _ _ _ E).
    rewrite lookup_insert_ne by lia. rewrite E4.
    rewrite !decide_False; [lia | | |].
    + intros (_ & [(? & _) | (? & _)]); done.
    + intros [? _]. lia.
    + intros [? _]. lia.
  - intros; simplify_eq. rewrite decide_False; [lia|].
    intros (_ & [(? & _) | (? & _)]); done.
Qed.

(** Cells that do not insert [(a, 0)] into [links[b]] leave its number of
    occurrences there as it is. *)
Lemma compile_cells_count (graph : graph_array) (cells : list (Z * Z * Z))
    (a b : Z) (st st' : compile_state) :
  g_N graph <= c_latent_index st → 0 <= a < g_N graph → 0 <= b < g_N graph →
  (∀ c, c ∈ cells → ¬ inserts_link graph a b c) →
  for_each (compile_cell graph) cells st = Ok st' →
  entry_count (a, 0) (default [] (c_links st' !! b))
  = entry_count (a, 0) (default [] (c_links st !! b)).
Proof.
  intros HL Ha Hb. revert st HL.
  induction cells as [|[[i j] tau] cells IH]; intros st HL Hno.
  { simpl. intros; by simplify_eq. }
  rewrite for_each_cons.
  destruct (compile_cell graph st (i, j, tau)) as [st1| |] eqn:E; [|done ..].
  cbn [res_bind]. intros Hrest.
  rewrite (IH st1); [| | |done].
  - unfold compile_cell in E.
    destruct (cell_skipped graph i j tau) as [[|]| |] eqn:Es; simpl in E;
      [by simplify_eq | | done ..].
    rewrite (add_edge_count _ _ _ _ _ _ _ _ HL Ha Hb E).
    case_decide as Hd; [|lia]. exfalso. apply (Hno (i, j, tau)); [by left|].
    destruct Hd as [-> Hd]. done.
  - apply compile_cell_latent_mono in E. lia.
  - intros c Hc. apply Hno. by right.
Qed.

(** The test a lag-0 cell passes ties it to its mirror cell. *)
Lemma cell_skipped_lag0 (graph : graph_array) (i j : Z) (skip : bool) :
  cell_skipped graph i j 0 = Ok skip →
  _reverse_patt (cell graph j i 0) = Ok (cell graph i j 0)
  ∧ skip = (j >? i).
Proof.
  unfold cell_skipped. simpl.
  destruct (_reverse_patt (cell graph j i 0)) as [r| |]; simpl; [|done ..].
  case_bool_decide; simpl; [|done]. intros; by simplify_eq.
Qed.

Lemma compile_init_entries (graph : graph_array) (b : Z) :
  default [] (c_links (compile_init graph) !! b) = [].
Proof.
  simpl. destruct (_ !! b) as [l|] eqn:E; [|done]. simpl.
  apply elem_of_list_to_map_2, list_elem_of_In, in_map_iff in E
    as (k & Hk & _). by simplify_eq.
Qed.

(** When one cell of the array inserts [(a, 0)] into [links[b]] and no
    other does, [(a, 0)] stands in the compiled [links[b]] once. *)
Lemma compiled_entry_once (graph : graph_array) (a b : Z) (c : Z * Z * Z)
    (lk : gmap Z (list link_props)) (obs sel : list Z) :
  0 <= a < g_N graph → 0 <= b < g_N graph →
  get_links_from_graph graph = Ok (lk, obs, sel) →
  c ∈ np_where graph → inserts_link graph a b c →
  (∀ c', c' ∈ np_where graph → inserts_link graph a b c' → c' = c) →
  ∃ l, lk !! b = Some l ∧ entry_count (a, 0) l = 1%nat.
Proof.
  intros Ha Hb Hget Hin Hins Honly. unfold get_links_from_graph in Hget.
  destruct (negb (dtype_has_U3 graph)); [done|].
  destruct (for_each _ _ _) as [st| |] eqn:E; simpl in Hget; try done.
  simplify_eq.
  assert (∀ i' j' tau', (i', j', tau') ∈ np_where graph →
            0 <= i' < g_N graph ∧ 0 <= j' < g_N graph ∧ 0 <= tau') as Hshape.
  { intros i' j' tau' H'. apply elem_of_np_where in H'. lia. }
  pose proof (np_where_NoDup graph) as Hnd.
  apply list_elem_of_split in Hin as (pre & post & Hsplit).
  rewrite Hsplit in E, Hshape, Hnd, Honly.
  apply NoDup_app in Hnd as (_ & Hpre & Hpost).
  apply NoDup_cons in Hpost as [Hpost _].
  rewrite for_each_app in E.
  destruct (for_each _ pre _) as [st1| |] eqn:E1; [|simpl in E; done ..].
  cbn [res_bind] in E. rewrite for_each_cons in E.
  destruct (compile_cell graph st1 c) as [st2| |] eqn:E2; [|simpl in E; done ..].
  cbn [res_bind] in E.
  assert (compile_inv st1 ∧ compile_entries st1
          ∧ compile_selection (g_N graph) st1) as (Hinv1 & _ & Hn1 & _).
  { apply (compile_cells_wf graph pre (compile_init graph)); [| |done].
    - intros i' j' tau' H'. apply (Hshape i' j' tau').
      apply elem_of_app. by left.
    - apply compile_init_wf. lia. }
  assert (c_latent_index st1 <= c_latent_index st2) as Hmono
    by (by apply (compile_cell_latent_mono graph c)).
  assert (compile_inv st) as [Hpos Hkeys].
  { apply (compile_prefix_inv graph (pre ++ c :: post)); [lia|].
    rewrite for_each_app, E1. cbn [res_bind]. rewrite for_each_cons, E2.
    done. }
  assert (c_latent_index st2 <= c_latent_index st) as Hmono2.
  { clear -E. revert st2 E. induction post as [|c' post IH]; intros st2.
    - simpl. intros; simplify_eq. lia.
    - rewrite for_each_cons.
      destruct (compile_cell graph st2 c') as [st3| |] eqn:E3; [|done ..].
      cbn [res_bind]. intros H. apply IH in H.
      apply compile_cell_latent_mono in E3. lia. }
  destruct (proj2 (Hkeys b) ltac:(lia)) as [l Hl]. exists l. split; [done|].
  change l with (default [] (Some l)). rewrite <- Hl.
  rewrite (compile_cells_count graph post a b st2 st);
    [| lia | done | done | | done].
  2:{ intros c' Hc' Hins'. apply Hpost. rewrite <- (Honly c'); [done| |done].
      apply elem_of_app. right. by right. }
  destruct c as [[i j] tau]. unfold compile_cell in E2.
  destruct Hins as (Hskip & -> & Hedge). rewrite Hskip in E2. simpl in E2.
  rewrite (add_edge_count _ _ _ _ _ _ _ _ Hn1 Ha Hb E2).
  rewrite decide_True by done.
  rewrite (compile_cells_count graph pre a b (compile_init graph) st1);
    [| simpl; lia | done | done | | done].
  2:{ intros c' Hc' Hins'. apply (Hpre c' Hc').
      rewrite (Honly c'); [by left | | done].
      apply elem_of_app. by left. }
  by rewrite compile_init_entries.
Qed.

(** C3, amended.  In a graph array that compiles, take two different
    variables [i < j] with a non-empty lag-0 cell [(i, j, 0)].  The loop
    meets every non-empty cell once, and the mirror cell [(j, i, 0)] is one
    of them.  At a lag-0 cell the loop body inserts the edge exactly when
    the target index is not greater than the source index, and changes
    nothing otherwise: at [(i, j, 0)], whose target index is the greater, it
    changes nothing; at the mirror cell it inserts the edge.  So the pair is
    processed once, and a directed edge between the two stands in [links]
    once: [(i, 0)] in [links[j]] when the edge points to [j], [(j, 0)] in
    [links[i]] when it points to [i]. *)
Theorem contemporaneous_pair_processed_once (graph : graph_array) (i j : Z)
    (lk : gmap Z (list link_props)) (obs sel : list Z) :
  get_links_from_graph graph = Ok (lk, obs, sel) →
  (i, j, 0) ∈ np_where graph → i < j →
  NoDup (np_where graph) ∧ (j, i, 0) ∈ np_where graph
  ∧ (∀ a b st, (a, b, 0) ∈ np_where graph →
       compile_cell graph st (a, b, 0)
       = if b >? a then Ok st else add_edge graph a b 0 st)
  ∧ (∀ st, compile_cell graph st (i, j, 0) = Ok st)
  ∧ (∀ st, compile_cell graph st (j, i, 0) = add_edge graph j i 0 st)
  ∧ (cell graph j i 0 = "<--"%string →
     ∃ l, lk !! j = Some l ∧ entry_count (i, 0) l = 1%nat)
  ∧ (cell graph j i 0 = "-->"%string →
     ∃ l, lk !! i = Some l ∧ entry_count (j, 0) l = 1%nat).
Proof.
  intros Hget Hin Hlt.
  assert (∀ i' j' tau', (i', j', tau') ∈ np_where graph →
            is_Ok (cell_skipped graph i' j' tau') = true) as Hpass.
  { apply square_graph_compiles_iff. by rewrite Hget. }
  apply elem_of_np_where in Hin as Hb. destruct Hb as (Hi & Hj & Ht & Hne).
  assert (cell_skipped graph i j 0 = Ok true) as Hskip.
  { pose proof (Hpass _ _ _ Hin) as Hok.
    destruct (cell_skipped graph i j 0) as [s| |] eqn:E; [|done ..].
    apply cell_skipped_lag0 in E as [_ ->]. f_equal. lia. }
  assert ((j, i, 0) ∈ np_where graph) as Hin'.
  { apply elem_of_np_where. split_and!; try lia. intros Hempty.
    apply cell_skipped_lag0 in Hskip as [Hrev _]. rewrite Hempty in Hrev.
    simpl in Hrev. by simplify_eq. }
  assert (cell_skipped graph j i 0 = Ok false) as Hskip'.
  { pose proof (Hpass _ _ _ Hin') as Hok.
    destruct (cell_skipped graph j i 0) as [s| |] eqn:E; [|done ..].
    apply cell_skipped_lag0 in E as [_ ->]. f_equal. lia. }
  split; [apply np_where_NoDup|]. split; [done|]. split_and!.
  - intros a b st Hab. unfold compile_cell.
    pose proof (Hpass _ _ _ Hab) as Hok.
    destruct (cell_skipped graph a b 0) as [s| |] eqn:E; [|done ..].
    apply cell_skipped_lag0 in E as [_ ->]. simpl. by destruct (b >? a).
  - intros st. unfold compile_cell. by rewrite Hskip.
  - intros st. unfold compile_cell. by rewrite Hskip'.
  - intros Hc.
    apply (compiled_entry_once graph i j (j, i, 0) lk obs sel);
      [lia | lia | done | done | |].
    + split; [done|]. split; [done|]. right. done.
    + intros [[i' j'] tau'] _ (Hs & -> & [(_ & -> & ->) | (_ & -> & ->)]);
        [|done]. rewrite Hskip in Hs. done.
  - intros Hc.
    apply (compiled_entry_once graph j i (j, i, 0) lk obs sel);
      [lia | lia | done | done | |].
    + split; [done|]. split; [done|]. left. done.
    + intros [[i' j'] tau'] _ (Hs & -> & [(_ & -> & ->) | (_ & -> & ->)]);
        [done|]. rewrite Hskip in Hs. done.
Qed.

Lemma contemporaneous_pair_processed_once_witness :
  get_links_from_graph graph_arrow
  = Ok ({[ 0 := []; 1 := [Link2 0 0] ]}, [0; 1], [])
  ∧ (0, 1, 0) ∈ np_where graph_arrow ∧ 0 < 1
  ∧ (∀ st, compile_cell graph_arrow st (0, 1, 0) = Ok st)
  ∧ (∀ st, compile_cell graph_arrow st (1, 0, 0)
           = add_edge graph_arrow 1 0 0 st)
  ∧ ∃ l, ({[ 0 := []; 1 := [Link2 0 0] ]} : gmap Z (list link_props)) !! 1
         = Some l
         ∧ entry_count (0, 0) l = 1%nat.
Proof.
  assert ((0, 1, 0) ∈ np_where graph_arrow) as Hin.
  { apply elem_of_np_where. simpl. split_and!; try lia. done. }
  assert (0 < 1) as Hlt by lia.
  split; [exact graph_arrow_compiled|]. split; [exact Hin|].
  split; [exact Hlt|].
  destruct (contemporaneous_pair_processed_once graph_arrow 0 1 _ _ _
              graph_arrow_compiled Hin Hlt)
    as (_ & _ & _ & H3 & H4 & H5 & _).
  split; [exact H3|]. split; [exact H4|]. exact (H5 eq_refl).
Defined.

(** A lag-0 pair [0 <-> 1]: the one cell that is processed gives the pair
    one latent variable. *)
Example bidirected_pair_compiled_once :
  get_links_from_graph graph_bidirected
  = Ok ({[ 0 := [Link2 2 0]; 1 := [Link2 2 0]; 2 := [] ]}, [0; 1], []).
Proof. vm_compute. reflexivity. Qed.

(** ** Compiling a graph array: every edge is in the result *)

Lemma compile_grows_refl (n : Z) (st : compile_state) : compile_grows n st st.
Proof. split; [|done]. intros k l Hl. exists l. done. Qed.

Lemma compile_grows_trans (n : Z) (st1 st2 st3 : compile_state) :
  compile_grows n st1 st2 → compile_grows n st2 st3 → compile_grows n st1 st3.
Proof.
  intros [H12 S12] [H23 S23]. split; [|by auto].
  intros k l Hl. destruct (H12 k l Hl) as (l2 & Hl2 & Hsub2 & Heq2).
  destruct (H23 k l2 Hl2) as (l3 & Hl3 & Hsub3 & Heq3).
  exists l3. split_and!; [done | by auto |].
  intros Hk. rewrite Heq3, Heq2; done.
Qed.

Lemma links_append_grows (lk lk' : gmap Z (list link_props)) (k i t : Z)
    (n : Z) :
  links_append lk k i t = Ok lk' → k < n →
  ∀ k' l, lk !! k' = Some l →
    ∃ l', lk' !! k' = Some l' ∧ (∀ lp, lp ∈ l → lp ∈ l') ∧ (n <= k' → l' = l).
Proof.
  unfold links_append, py_getitem.
  destruct (lk !! k) as [l0|] eqn:E; simpl; [|done].
  intros ? Hk k' l Hl; simplify_eq. rewrite lookup_insert. case_decide.
  - simplify_eq. eexists. split_and!; [done | | lia].
    intros lp Hin. apply elem_of_app. by left.
  - exists l. done.
Qed.

Lemma add_edge_grows (graph : graph_array) (i j tau : Z)
    (st st' : compile_state) :
  compile_inv st → g_N graph <= c_latent_index st →
  i < g_N graph → j < g_N graph →
  add_edge graph i j tau st = Ok st' → compile_grows (g_N graph) st st'.
Proof.
  intros [Hpos Hinv] Hn Hi Hj. destruct st as [lk sel L]. unfold add_edge.
  simpl in *.
  assert (lk !! L = None) as Hfresh.
  { apply eq_None_not_Some. rewrite Hinv. lia. }
  repeat case_bool_decide.
  - destruct (links_append lk j i (- tau)) as [lk1| |] eqn:E1; simpl; try done.
    intros; simplify_eq. split; [|done]. simpl.
    by apply (links_append_grows _ _ _ _ _ _ E1).
  - destruct (links_append lk i j (- tau)) as [lk1| |] eqn:E1; simpl; try done.
    intros; simplify_eq. split; [|done]. simpl.
    by apply (links_append_grows _ _ _ _ _ _ E1).
  - destruct (links_append _ i L 0) as [lk1| |] eqn:E1; simpl; try done.
    destruct (links_append lk1 j L (- tau)) as [lk2| |] eqn:E2; simpl;
      try done.
    intros; simplify_eq. split; [|done]. simpl. intros k l Hl.
    assert (k ≠ L) by (intros ->; congruence).
    destruct (links_append_grows _ _ _ _ _ (g_N graph) E1 Hi k l)
      as (l1 & Hl1 & Hs1 & He1); [by rewrite lookup_insert_ne|].
    destruct (links_append_grows _ _ _ _ _ (g_N graph) E2 Hj k l1 Hl1)
      as (l2 & Hl2 & Hs2 & He2).
    exists l2. split_and!; [done | by auto |].
    intros Hk. rewrite He2, He1; done.
  - erewrite links_append_ok by apply lookup_insert_eq. simpl.
    erewrite links_append_ok by apply lookup_insert_eq. simpl.
    intros; simplify_eq. split; simpl.
    + intros k l Hl. assert (k ≠ L) by (intros ->; congruence).
      exists l. rewrite !lookup_insert_ne by done. done.
    + intros s Hs. apply elem_of_app. by left.
  - intros; simplify_eq. apply compile_grows_refl.
Qed.

Lemma compile_cells_grow (graph : graph_array) (cells : list (Z * Z * Z))
    (st st' : compile_state) :
  (∀ i j tau, (i, j, tau) ∈ cells →
     0 <= i < g_N graph ∧ 0 <= j < g_N graph ∧ 0 <= tau) →
  compile_inv st → g_N graph <= c_latent_index st →
  for_each (compile_cell graph) cells st = Ok st' →
  compile_grows (g_N graph) st st'.
Proof.
  revert st. induction cells as [|[[i j] tau] cells IH]; intros st Hin Hinv Hn.
  - simpl. intros; simplify_eq. apply compile_grows_refl.
  - rewrite for_each_cons.
    destruct (compile_cell graph st (i, j, tau)) as [st1| |] eqn:E; simpl;
      try done.
    intros Hrest. destruct (Hin i j tau) as (Hi & Hj & Ht); [by left|].
    apply (compile_grows_trans _ st st1 st').
    + unfold compile_cell in E.
      destruct (cell_skipped graph i j tau) as [[|]| |]; simpl in E; try done.
      * simplify_eq. apply compile_grows_refl.
      * apply (add_edge_grows graph i j tau); [done | done | lia | lia | done].
    + apply IH; [| by eapply compile_cell_inv | | done].
      * intros i' j' tau' H'. apply (Hin i' j' tau'). by right.
      * apply compile_cell_latent_mono in E. lia.
Qed.

(** A processed cell of a graph that compiles: the state [st1] the loop
    reaches it with, the state [st2] it leaves it with, and the state [st]
    at the end of the loop. *)
Lemma compiled_cell_states (graph : graph_array) (i j tau : Z)
    (lk : gmap Z (list link_props)) (obs sel : list Z) :
  0 <= g_N graph →
  get_links_from_graph graph = Ok (lk, obs, sel) →
  (i, j, tau) ∈ np_where graph →
  cell_skipped graph i j tau = Ok false →
  ∃ st1 st2 st,
    compile_inv st1 ∧ g_N graph <= c_latent_index st1
    ∧ add_edge graph i j tau st1 = Ok st2
    ∧ compile_grows (g_N graph) st2 st
    ∧ lk = c_links st ∧ sel = c_selection_vars st.
Proof.
  intros HN Hget Hin Hskip. unfold get_links_from_graph in Hget.
  destruct (negb (dtype_has_U3 graph)); [done|].
  destruct (for_each _ _ _) as [st| |] eqn:E; simpl in Hget; try done.
  simplify_eq.
  assert (∀ i' j' tau', (i', j', tau') ∈ np_where graph →
            0 <= i' < g_N graph ∧ 0 <= j' < g_N graph ∧ 0 <= tau') as Hshape.
  { intros i' j' tau' H'. apply elem_of_np_where in H'. lia. }
  apply list_elem_of_split in Hin as (pre & post & Hsplit).
  rewrite Hsplit in E, Hshape. rewrite for_each_app in E.
  destruct (for_each _ pre _) as [st1| |] eqn:E1; [|simpl in E; done ..].
  cbn [res_bind] in E.
  rewrite for_each_cons in E. unfold compile_cell at 1 in E.
  rewrite Hskip in E. simpl in E.
  destruct (add_edge graph i j tau st1) as [st2| |] eqn:E2; simpl in E;
    try done.
  assert (compile_inv st1 ∧ compile_entries st1
          ∧ compile_selection (g_N graph) st1) as (Hinv1 & _ & Hn1 & _).
  { apply (compile_cells_wf graph pre (compile_init graph)); [| |done].
    - intros i' j' tau' H'. apply (Hshape i' j' tau').
      apply elem_of_app. by left.
    - by apply compile_init_wf. }
  assert (compile_inv st2) as Hinv2 by (by eapply add_edge_inv).
  assert (c_latent_index st1 <= c_latent_index st2) as Hmono.
  { apply (compile_cell_latent_mono graph (i, j, tau)).
    unfold compile_cell. by rewrite Hskip. }
  exists st1, st2, st. split_and!; try done.
  apply (compile_cells_grow graph post); [| done | lia | done].
  intros i' j' tau' H'. apply (Hshape i' j' tau').
  apply elem_of_app. right. by right.
Qed.

(** X11.  Every directed edge of a graph that compiles is a link of the
    result: a processed cell [graph[i, j, tau] = "-->"] makes [(i, -tau)] a
    parent of [j], and a processed cell ["<--"], which can only be a lag-0
    cell, makes [(j, 0)] a parent of [i]. *)
Theorem compiled_directed_edge (graph : graph_array) (i j tau : Z)
    (lk : gmap Z (list link_props)) (obs sel : list Z) :
  0 <= g_N graph →
  get_links_from_graph graph = Ok (lk, obs, sel) →
  (i, j, tau) ∈ np_where graph →
  cell_skipped graph i j tau = Ok false →
  (cell graph i j tau = "-->"%string →
     ∃ l, lk !! j = Some l ∧ Link2 i (- tau) ∈ l)
  ∧ (cell graph i j tau = "<--"%string →
     tau = 0 ∧ ∃ l, lk !! i = Some l ∧ Link2 j 0 ∈ l).
Proof.
  intros HN Hget Hin Hskip.
  destruct (compiled_cell_states _ _ _ _ _ _ _ HN Hget Hin Hskip)
    as (st1 & st2 & st & [Hpos Hkeys] & Hn & Hadd & [Hgrow _] & -> & ->).
  apply elem_of_np_where in Hin as (Hi & Hj & Ht & _).
  split; intros Hc.
  - unfold add_edge in Hadd. rewrite Hc in Hadd. simpl in Hadd.
    destruct (links_append _ _ _ _) as [lk1| |] eqn:E1; simpl in Hadd;
      try done.
    simplify_eq. simpl in Hgrow.
    unfold links_append, py_getitem in E1.
    destruct (c_links st1 !! j) as [lj|] eqn:Ej; simpl in E1; [|done].
    simplify_eq.
    destruct (Hgrow j (lj ++ [Link2 i (- tau)])) as (l & Hl & Hsub & _).
    { apply lookup_insert_eq. }
    exists l. split; [done|]. apply Hsub, elem_of_app. right. by left.
  - assert (tau = 0) as ->.
    { unfold cell_skipped in Hskip. destruct (tau =? 0) eqn:E0; [lia|].
      rewrite Hc in Hskip. vm_compute in Hskip. done. }
    split; [done|].
    unfold add_edge in Hadd. rewrite Hc in Hadd. simpl in Hadd.
    destruct (links_append _ _ _ _) as [lk1| |] eqn:E1; simpl in Hadd;
      try done.
    simplify_eq. simpl in Hgrow.
    unfold links_append, py_getitem in E1.
    destruct (c_links st1 !! i) as [li|] eqn:Ei; simpl in E1; [|done].
    simplify_eq.
    destruct (Hgrow i (li ++ [Link2 j 0])) as (l & Hl & Hsub & _).
    { apply lookup_insert_eq. }
    exists l. split; [done|]. apply Hsub, elem_of_app. right. by left.
Qed.

Lemma compiled_directed_edge_witness :
  0 <= g_N graph_arrow
  ∧ get_links_from_graph graph_arrow
    = Ok ({[ 0 := []; 1 := [Link2 0 0] ]}, [0; 1], [])
  ∧ (1, 0, 0) ∈ np_where graph_arrow
  ∧ cell_skipped graph_arrow 1 0 0 = Ok false
  ∧ cell graph_arrow 1 0 0 = "<--"%string
  ∧ ∃ l, ({[ 0 := []; 1 := [Link2 0 0] ]} : gmap Z (list link_props)) !! 1
         = Some l ∧ Link2 0 0 ∈ l.
Proof.
  assert (0 <= g_N graph_arrow) as HN by (simpl; lia).
  assert (get_links_from_graph graph_arrow
          = Ok ({[ 0 := []; 1 := [Link2 0 0] ]}, [0; 1], [])) as H
    by (vm_compute; reflexivity).
  assert ((1, 0, 0) ∈ np_where graph_arrow) as Hin.
  { vm_compute. right. left. }
  split; [exact HN|]. split; [exact H|]. split; [exact Hin|].
  split; [reflexivity|]. split; [reflexivity|].
  destruct (compiled_directed_edge graph_arrow 1 0 0 _ _ _ HN H Hin eq_refl)
    as [_ Hrev].
  destruct (Hrev eq_refl) as [_ Hl]. exact Hl.
Defined.












Lemma directed_cells_keep_variables (graph : graph_array)
    (cells : list (Z * Z * Z)) (st st' : compile_state) :
  (∀ i j tau, (i, j, tau) ∈ cells →
     cell graph i j tau = "-->"%string ∨ cell graph i j tau = "<--"%string) →
  for_each (compile_cell graph) cells st = Ok st' →
  c_selection_vars st' = c_selection_vars st
  ∧ c_latent_index st' = c_latent_index st.
Proof.
  revert st. induction cells as [|[[i j] tau] cells IH]; intros st Hdir.
  - simpl. intros; by simplify_eq.
  - rewrite for_each_cons.
    destruct (compile_cell graph st (i, j, tau)) as [st1| |] eqn:E;
      [|done ..].
    cbn [res_bind]. intros Hrest. apply IH in Hrest as [-> ->].
    2:{ intros i' j' tau' H'. apply (Hdir i' j' tau'). by right. }
    unfold compile_cell in E.
    destruct (cell_skipped graph i j tau) as [[|]| |]; simpl in E;
      try done; [by simplify_eq|].
    unfold add_edge in E.
    destruct (Hdir i j tau) as [Hd | Hd]; [by left | |];
      rewrite Hd in E; simpl in E;
      destruct (links_append _ _ _ _) as [?| |]; simpl in E; try done;
      by simplify_eq.
Qed.

(** X14.  A graph array with directed edges only compiles to a graph on the
    variables of the array: no latent and no selection variable is made. *)
Theorem dag_compiles_without_synthetic_variables (graph : graph_array)
    (lk : gmap Z (list link_props)) (obs sel : list Z) :
  0 <= g_N graph →
  get_links_from_graph graph = Ok (lk, obs, sel) →
  (∀ i j tau, (i, j, tau) ∈ np_where graph →
     cell graph i j tau = "-->"%string ∨ cell graph i j tau = "<--"%string) →
  sel = [] ∧ Z.of_nat (size lk) = g_N graph
  ∧ ∀ k, is_Some (lk !! k) ↔ 0 <= k < g_N graph.
Proof.
  intros HN Hget Hdir. unfold get_links_from_graph in Hget.
  destruct (negb (dtype_has_U3 graph)); [done|].
  destruct (for_each _ _ _) as [st| |] eqn:E; simpl in Hget; try done.
  simplify_eq.
  pose proof (compile_prefix_inv _ _ _ HN E) as [Hpos Hkeys].
  apply directed_cells_keep_variables in E as [Hs HL]; [|done].
  simpl in Hs, HL. rewrite HL in Hkeys. split; [done|].
  split; [by apply size_of_keys | done].
Qed.

Lemma dag_compiles_without_synthetic_variables_witness :
  0 <= g_N graph_arrow
  ∧ get_links_from_graph graph_arrow
    = Ok ({[ 0 := []; 1 := [Link2 0 0] ]}, [0; 1], [])
  ∧ (∀ i j tau, (i, j, tau) ∈ np_where graph_arrow →
       cell graph_arrow i j tau = "-->"%string
       ∨ cell graph_arrow i j tau = "<--"%string)
  ∧ Z.of_nat (size ({[ 0 := []; 1 := [Link2 0 0] ]}
                      : gmap Z (list link_props))) = g_N graph_arrow.
Proof.
  assert (0 <= g_N graph_arrow) as HN by (simpl; lia).
  assert (get_links_from_graph graph_arrow
          = Ok ({[ 0 := []; 1 := [Link2 0 0] ]}, [0; 1], [])) as H
    by (vm_compute; reflexivity).
  assert (∀ i j tau, (i, j, tau) ∈ np_where graph_arrow →
            cell graph_arrow i j tau = "-->"%string
            ∨ cell graph_arrow i j tau = "<--"%string) as Hdir.
  { intros i j tau Hin.
    assert (np_where graph_arrow = [(0, 1, 0); (1, 0, 0)]) as E
      by (vm_compute; reflexivity).
    rewrite E in Hin. apply elem_of_cons in Hin as [Hin | Hin].
    - inversion Hin; subst. left. reflexivity.
    - apply list_elem_of_singleton in Hin. inversion Hin; subst.
      right. reflexivity. }
  split; [exact HN|]. split; [exact H|]. split; [exact Hdir|].
  destruct (dag_compiles_without_synthetic_variables _ _ _ _ HN H Hdir)
    as (_ & Hsize & _).
  exact Hsize.
Defined.

(** ** [_reverse_patt] *)

(** X15.  Reversing twice gives a pattern back, unless it has [>] as its left
    mark or [<] as its right mark. *)
Theorem _reverse_patt_involutive (a b c : ascii) :
  a ≠ ">"%char → c ≠ "<"%char →
  ∃ r, _reverse_patt (String a (String b (String c EmptyString))) = Ok r
       ∧ _reverse_patt r = Ok (String a (String b (String c EmptyString))).
Proof.
  intros Ha Hc. unfold _reverse_patt at 1. eexists. split; [done|].
  unfold _reverse_patt.
  destruct (Ascii.eqb c ">") eqn:Ec; destruct (Ascii.eqb a "<") eqn:Ea;
    try apply Ascii.eqb_eq in Ec; try apply Ascii.eqb_eq in Ea; subst;
    simpl; try done.
  - destruct (Ascii.eqb a ">") eqn:E; [by apply Ascii.eqb_eq in E|done].
  - destruct (Ascii.eqb c "<") eqn:E; [by apply Ascii.eqb_eq in E|done].
  - destruct (Ascii.eqb c "<") eqn:E; [by apply Ascii.eqb_eq in E|].
    destruct (Ascii.eqb a ">") eqn:E'; [by apply Ascii.eqb_eq in E'|done].
Qed.

Lemma _reverse_patt_involutive_witness :
  "-"%char ≠ ">"%char ∧ ">"%char ≠ "<"%char
  ∧ ∃ r, _reverse_patt "-->" = Ok r ∧ _reverse_patt r = Ok "-->"%string.
Proof.
  assert ("-"%char ≠ ">"%char) as H1 by discriminate.
  assert (">"%char ≠ "<"%char) as H2 by discriminate.
  split; [exact H1|]. split; [exact H2|].
  exact (_reverse_patt_involutive "-" "-" ">" H1 H2).
Defined.

(** ** [_get_children] *)

Lemma children_add_spec (n j : Z) (processed : list (Z * link_props))
    (children : gmap Z (list node)) (lp : link_props) :
  children_of n processed children →
  (coeff_nonzero (link_coeff lp) = true → 0 <= (link_source lp).1 < n) →
  ∃ children', children_add j children lp = Ok children'
    ∧ children_of n (processed ++ [(j, lp)]) children'.
Proof.
  intros [Hkeys Hch] Hsrc. unfold children_add.
  destruct (link_source lp) as [i tau] eqn:Els.
  destruct (coeff_nonzero (link_coeff lp)) eqn:Ec.
  - simpl in Hsrc. specialize (Hsrc eq_refl).
    destruct (proj2 (Hkeys i) Hsrc) as [cs Hcs].
    unfold py_getitem. rewrite Hcs. simpl. eexists. split; [done|]. split.
    + intros i'. rewrite lookup_insert. case_decide; [|apply Hkeys].
      subst. split; [done | by eauto].
    + intros i' j' t'. rewrite lookup_insert. case_decide.
      * subst i'. split.
        -- intros (cs' & ? & Hin); simplify_eq.
           apply elem_of_app in Hin as [Hin | Hin].
           ++ destruct (proj1 (Hch i j' t')) as (lp' & Hp & He); [by eauto|].
              exists lp'. split; [|done]. apply elem_of_app. by left.
           ++ apply list_elem_of_singleton in Hin. simplify_eq.
              exists lp. split; [apply elem_of_app; right; by left|].
              unfold child_entry. rewrite Els. done.
        -- intros (lp' & Hp & He). eexists. split; [done|].
           apply elem_of_app in Hp as [Hp | Hp].
           ++ destruct (proj2 (Hch i j' t')) as (cs' & Hcs' & Hin);
                [by eauto|].
              simplify_eq. apply elem_of_app. by left.
           ++ apply list_elem_of_singleton in Hp. simplify_eq.
              destruct He as (_ & He1 & He2). rewrite Els in He1, He2.
              simpl in *. subst. apply elem_of_app. right. by left.
      * rewrite Hch. split.
        -- intros (lp' & Hp & He). exists lp'. split; [|done].
           apply elem_of_app. by left.
        -- intros (lp' & Hp & He). exists lp'. split; [|done].
           apply elem_of_app in Hp as [Hp | Hp]; [done|].
           apply list_elem_of_singleton in Hp. simplify_eq.
           destruct He as (_ & He1 & _). rewrite Els in He1. simpl in *.
           congruence.
  - eexists. split; [done|]. split; [done|].
    intros i' j' t'. rewrite Hch. split.
    + intros (lp' & Hp & He). exists lp'. split; [|done].
      apply elem_of_app. by left.
    + intros (lp' & Hp & He). exists lp'. split; [|done].
      apply elem_of_app in Hp as [Hp | Hp]; [done|].
      apply list_elem_of_singleton in Hp. simplify_eq.
      destruct He as (He0 & _). congruence.
Qed.

Lemma children_inner_spec (n j : Z) (l : list link_props)
    (processed : list (Z * link_props)) (children : gmap Z (list node)) :
  children_of n processed children →
  (∀ lp, lp ∈ l → coeff_nonzero (link_coeff lp) = true →
         0 <= (link_source lp).1 < n) →
  ∃ children', for_each (children_add j) l children = Ok children'
    ∧ children_of n (processed ++ map (pair j) l) children'.
Proof.
  revert processed children. induction l as [|lp l IH];
    intros processed children Hch Hsrc.
  - simpl. exists children. rewrite app_nil_r. done.
  - destruct (children_add_spec n j processed children lp Hch)
      as (ch1 & Hadd & Hch1); [apply Hsrc; by left|].
    rewrite for_each_cons, Hadd. cbn [res_bind].
    destruct (IH (processed ++ [(j, lp)]) ch1 Hch1) as (ch2 & Hfor & Hch2).
    { intros lp' Hin. apply Hsrc. by right. }
    exists ch2. split; [done|]. simpl. by rewrite <- app_assoc in Hch2.
Qed.

Lemma children_outer_spec (self : OracleCI) (n : Z) (js : list Z)
    (processed : list (Z * link_props)) (children : gmap Z (list node)) :
  children_of n processed children →
  (∀ j, j ∈ js → is_Some (links self !! j)) →
  (∀ j l lp, links self !! j = Some l → lp ∈ l →
     coeff_nonzero (link_coeff lp) = true → 0 <= (link_source lp).1 < n) →
  ∃ children',
    for_each (fun children j =>
                lps <-- py_getitem (links self) j ;;
                for_each (children_add j) lps children) js children
    = Ok children'
    ∧ children_of n
        (processed
         ++ (j ← js; map (pair j) (default [] (links self !! j))))
        children'.
Proof.
  revert processed children. induction js as [|j js IH];
    intros processed children Hch Hkeys Hsrc.
  - simpl. exists children. rewrite app_nil_r. done.
  - destruct (Hkeys j) as [l Hl]; [by left|].
    destruct (children_inner_spec n j l processed children Hch)
      as (ch1 & Hin & Hch1); [intros lp; by apply (Hsrc j l)|].
    rewrite for_each_cons. unfold py_getitem at 1. rewrite Hl.
    cbn [res_bind]. rewrite Hin. cbn [res_bind].
    destruct (IH _ ch1 Hch1) as (ch2 & Hfor & Hch2);
      [intros j' Hj'; apply Hkeys; by right | done |].
    exists ch2. split; [done|].
    rewrite <- app_assoc in Hch2. simpl. by rewrite Hl.
Qed.

Lemma get_children_closed (self : OracleCI) :
  links_closed (links self) →
  ∃ children, _get_children self = Ok children
    ∧ (∀ i, is_Some (children !! i) ↔ is_Some (links self !! i))
    ∧ ∀ i j t, (∃ cs, children !! i = Some cs ∧ (j, t) ∈ cs)
               ↔ ∃ l lp, links self !! j = Some l ∧ lp ∈ l
                         ∧ child_entry i j t lp.
Proof.
  intros [Hkeys Hclosed]. unfold _get_children.
  set (n := Z.of_nat (size (links self))) in *.
  destruct (children_outer_spec self n (py_range 0 n) []
              (list_to_map (map (fun j => (j, [])) (py_range 0 n))))
    as (ch & Hfor & [Hk Hch]).
  - split.
    + intros i. rewrite <- elem_of_py_range, <- elem_of_dom, dom_list_to_map_L.
      rewrite elem_of_list_to_set, <- list_fmap_compose, list_elem_of_fmap.
      split; [intros (y & -> & Hy); done | intros Hi; by exists i].
    + intros i j t. split.
      * intros (cs & Hcs & Hin). apply elem_of_list_to_map_2 in Hcs.
        apply list_elem_of_fmap in Hcs as (y & Hy & _). simplify_eq.
        inversion Hin.
      * intros (lp & Hp & _). inversion Hp.
  - intros j Hj. apply Hkeys. by apply elem_of_py_range in Hj.
  - intros j l lp Hl Hin _. apply Hkeys. by eapply Hclosed.
  - exists ch. split; [done|]. split.
    + intros i. by rewrite Hk, Hkeys.
    + intros i j t. rewrite Hch. simpl. split.
      * intros (lp & Hp & He). apply list_elem_of_bind in Hp as (j' & Hp & Hj').
        apply list_elem_of_fmap in Hp as (lp' & Heq & Hlp).
        injection Heq as <- <-.
        destruct (links self !! j) as [l|] eqn:El; [|inversion Hlp].
        exists l, lp. done.
      * intros (l & lp & Hl & Hin & He). exists lp. split; [|done].
        apply list_elem_of_bind. exists j. split.
        -- rewrite Hl. simpl. apply list_elem_of_fmap. eauto.
        -- apply elem_of_py_range, Hkeys. eauto.
Qed.

(** X16.  On a closed links dictionary [_get_children] returns, and the table
    is the links turned round: it has the keys of [links], and [(j, t)] is
    listed under [i] exactly when [links[j]] has an entry with source [i], a
    nonzero coefficient and a lag of absolute value [t]. *)
Theorem get_children_inverts_links (self : OracleCI) :
  links_closed (links self) →
  ∃ children, _get_children self = Ok children
    ∧ (∀ i, is_Some (children !! i) ↔ is_Some (links self !! i))
    ∧ ∀ i j t, (∃ cs, children !! i = Some cs ∧ (j, t) ∈ cs)
               ↔ ∃ l lp, links self !! j = Some l ∧ lp ∈ l
                         ∧ child_entry i j t lp.
Proof. exact (get_children_closed self). Qed.

Lemma links_closed_chain : links_closed (links oracle_chain).
Proof.
  split.
  - intros k. simpl.
    replace (Z.of_nat (size _)) with 2 by (vm_compute; reflexivity).
    destruct (decide (k = 0)) as [->|H0]; [split; [done | by eauto]|].
    destruct (decide (k = 1)) as [->|H1]; [split; [done | by eauto]|].
    rewrite lookup_insert_ne, lookup_singleton_ne by done.
    split; [intros []; done | lia].
  - intros k l lp Hl Hin. simpl in *.
    destruct (decide (k = 0)) as [->|H0].
    { rewrite lookup_insert_eq in Hl. simplify_eq. inversion Hin. }
    destruct (decide (k = 1)) as [->|H1].
    { rewrite lookup_insert_ne, lookup_singleton_eq in Hl by done.
      simplify_eq. apply list_elem_of_singleton in Hin as ->. simpl.
      by eauto. }
    rewrite lookup_insert_ne, lookup_singleton_ne in Hl by done. done.
Qed.

Lemma get_children_inverts_links_witness :
  links_closed (links oracle_chain)
  ∧ ∃ children, _get_children oracle_chain = Ok children
      ∧ (∀ i, is_Some (children !! i) ↔ is_Some (links oracle_chain !! i))
      ∧ ∀ i j t, (∃ cs, children !! i = Some cs ∧ (j, t) ∈ cs)
                 ↔ ∃ l lp, links oracle_chain !! j = Some l ∧ lp ∈ l
                           ∧ child_entry i j t lp.
Proof.
  split; [exact links_closed_chain|].
  exact (get_children_inverts_links oracle_chain links_closed_chain).
Defined.

(** Membership in what the two helpers yield when nothing is excluded. *)
Lemma elem_of_lagged_parents (self : OracleCI) (var lag : Z)
    (ps : list node) (w : node) :
  _get_lagged_parents self (var, lag) false = Ok ps →
  w ∈ ps ↔ ∃ l lp, links self !! var = Some l ∧ lp ∈ l
                   ∧ coeff_nonzero (link_coeff lp) = true
                   ∧ w = ((link_source lp).1, lag + (link_source lp).2).
Proof.
  unfold _get_lagged_parents, py_getitem.
  destruct (links self !! var) as [l|] eqn:El; simpl; [|done].
  intros; simplify_eq. rewrite list_elem_of_In, in_flat_map. split.
  - intros (lp & Hin & Hw). apply list_elem_of_In in Hin.
    destruct (link_source lp) as [i tau] eqn:Els.
    destruct (coeff_nonzero (link_coeff lp)) eqn:Ec; [|inversion Hw].
    simpl in Hw. destruct Hw as [<- | []]. exists l, lp. rewrite Els. done.
  - intros (l' & lp & ? & Hin & Ec & ->). simplify_eq. exists lp.
    split; [by apply list_elem_of_In|].
    destruct (link_source lp) as [i tau]. rewrite Ec. simpl. by left.
Qed.

Lemma elem_of_lagged_children (var lag : Z) (children : gmap Z (list node))
    (cs : list node) (v : node) :
  _get_lagged_children (var, lag) children false = Ok cs →
  v ∈ cs ↔ ∃ l t, children !! var = Some l ∧ (v.1, t) ∈ l ∧ v.2 = lag + t.
Proof.
  unfold _get_lagged_children, py_getitem.
  destruct (children !! var) as [l|] eqn:El; simpl; [|done].
  intros; simplify_eq. rewrite list_elem_of_In, in_flat_map. split.
  - intros ([k t] & Hin & Hv). apply list_elem_of_In in Hin.
    simpl in Hv. destruct Hv as [<- | []]. exists l, t. done.
  - intros (l' & t & ? & Hin & Hv). simplify_eq. exists (v.1, t).
    split; [by apply list_elem_of_In|]. simpl. left.
    destruct v as [k lv]. simpl in *. by subst.
Qed.

(** X17.  Parents and children agree: on a closed links dictionary without
    positive lags, [w] is among the lagged parents of [v] exactly when [v] is
    among the lagged children of [w]. *)
Theorem lagged_parent_iff_lagged_child (self : OracleCI)
    (children : gmap Z (list node)) (v w : node) (ps cs : list node) :
  links_closed (links self) → links_lag_nonpos (links self) →
  _get_children self = Ok children →
  _get_lagged_parents self v false = Ok ps →
  _get_lagged_children w children false = Ok cs →
  w ∈ ps ↔ v ∈ cs.
Proof.
  intros Hclosed Hlag Hch Hps Hcs.
  destruct (get_children_closed self Hclosed) as (ch & Hch' & _ & Hinv).
  rewrite Hch in Hch'. simplify_eq.
  destruct v as [j lag], w as [i lagw].
  rewrite (elem_of_lagged_parents _ _ _ _ _ Hps).
  rewrite (elem_of_lagged_children _ _ _ _ _ Hcs). simpl. split.
  - intros (l & lp & Hl & Hin & Ec & Hw). simplify_eq.
    pose proof (Hlag j l lp Hl Hin) as Hneg.
    destruct (proj2 (Hinv (link_source lp).1 j (Z.abs (link_source lp).2)))
      as (cs' & Hcs' & Hin').
    { exists l, lp. done. }
    exists cs', (Z.abs (link_source lp).2). split_and!; [done | done | lia].
  - intros (l & t & Hl & Hin & Ht).
    destruct (proj1 (Hinv i j t)) as (l' & lp & Hl' & Hin' & Ec & Hs & Habs);
      [by eauto|].
    pose proof (Hlag j l' lp Hl' Hin') as Hneg.
    exists l', lp. split_and!; try done. f_equal; [done | lia].
Qed.

Lemma lagged_parent_iff_lagged_child_witness :
  links_closed (links oracle_chain) ∧ links_lag_nonpos (links oracle_chain)
  ∧ _get_children oracle_chain = Ok {[ 0 := [(1, 1)]; 1 := [] ]}
  ∧ _get_lagged_parents oracle_chain (1, -2) false = Ok [(0, -3)]
  ∧ _get_lagged_children (0, -3) {[ 0 := [(1, 1)]; 1 := [] ]} false
    = Ok [(1, -2)]
  ∧ ((0, -3) ∈ [((0, -3) : node)] ↔ (1, -2) ∈ [((1, -2) : node)]).
Proof.
  assert (links_lag_nonpos (links oracle_chain)) as Hlag.
  { intros k l lp Hl Hin. simpl in *.
    destruct (decide (k = 0)) as [->|H0].
    { rewrite lookup_insert_eq in Hl. simplify_eq. inversion Hin. }
    destruct (decide (k = 1)) as [->|H1].
    { rewrite lookup_insert_ne, lookup_singleton_eq in Hl by done.
      simplify_eq. apply list_elem_of_singleton in Hin as ->. simpl. lia. }
    rewrite lookup_insert_ne, lookup_singleton_ne in Hl by done. done. }
  assert (_get_children oracle_chain
          = Ok ({[ 0 := [(1, 1)]; 1 := [] ]} : gmap Z (list node))) as Hch
    by (vm_compute; reflexivity).
  split; [exact links_closed_chain|]. split; [exact Hlag|].
  split; [exact Hch|]. split; [reflexivity|]. split; [reflexivity|].
  exact (lagged_parent_iff_lagged_child oracle_chain
           {[ 0 := [(1, 1)]; 1 := [] ]} (1, -2) (0, -3) [(0, -3)] [(1, -2)]
           links_closed_chain Hlag Hch eq_refl eq_refl).
Defined.

(** ** The ancestor search *)

(** The loops of the search as relations between the states they start and
    end in: what one round of a loop preserves, the loop preserves. *)
Lemma for_each_rel {A S : Type} (R : S → S → Prop) (body : S → A → res S)
    (l : list A) (st st' : S) :
  (∀ s, R s s) → (∀ s1 s2 s3, R s1 s2 → R s2 s3 → R s1 s3) →
  (∀ s a s', a ∈ l → body s a = Ok s' → R s s') →
  for_each body l st = Ok st' → R st st'.
Proof.
  intros Hrefl Htrans. revert st. induction l as [|a l IH]; intros st Hbody.
  - simpl. intros; simplify_eq. done.
  - rewrite for_each_cons. destruct (body st a) as [s1| |] eqn:E; [|done ..].
    cbn [res_bind]. intros Hrest. apply (Htrans _ s1).
    + apply (Hbody st a); [by left | done].
    + apply IH; [|done]. intros s a' s' Ha'. apply Hbody. by right.
Qed.

Lemma anc_visit_max_lag (md : mode) (conds : list node) (y varlag : node)
    (st st' : anc_state) (par : node) :
  anc_visit md conds y varlag st par = Ok st' →
  if is_non_repeating md
  then anc_max_lag st <= anc_max_lag st'
  else anc_max_lag st' = anc_max_lag st.
Proof.
  unfold anc_visit. destruct par as [i tau].
  destruct (py_getitem (ancestors st) y) as [anc_y| |]; simpl; try done.
  destruct (negb _ && negb _); [|intros; simplify_eq; destruct md; simpl; lia].
  destruct (_ || _); intros; simplify_eq; destruct md; simpl; lia.
Qed.

Lemma anc_level_max_lag (self : OracleCI) (md : mode) (conds : list node)
    (y : node) (st st' : anc_state) (varlag : node) :
  anc_level self md conds y st varlag = Ok st' →
  if is_non_repeating md
  then anc_max_lag st <= anc_max_lag st'
  else anc_max_lag st' = anc_max_lag st.
Proof.
  unfold anc_level.
  destruct (_get_lagged_parents self varlag false) as [ps| |]; simpl;
    try done.
  apply (for_each_rel
           (fun s s' => if is_non_repeating md
                        then anc_max_lag s <= anc_max_lag s'
                        else anc_max_lag s' = anc_max_lag s)).
  - intros s. destruct md; simpl; lia.
  - intros s1 s2 s3. destruct md; simpl; lia.
  - intros s a s' _. apply anc_visit_max_lag.
Qed.

Lemma anc_while_max_lag (fuel : nat) (self : OracleCI) (md : mode)
    (conds : list node) (y : node) (this_level : list node)
    (st st' : anc_state) :
  anc_while fuel self md conds y this_level st = Ok st' →
  if is_non_repeating md
  then anc_max_lag st <= anc_max_lag st'
  else anc_max_lag st' = anc_max_lag st.
Proof.
  revert this_level st. induction fuel as [|fuel IH]; intros lv st; simpl.
  - destruct lv; [|done]. intros; simplify_eq. destruct md; simpl; lia.
  - destruct lv as [|v lv]; [intros; simplify_eq; destruct md; simpl; lia|].
    destruct (for_each _ (v :: lv) _) as [s1| |] eqn:E; simpl; try done.
    intros Hrest. apply IH in Hrest.
    apply (for_each_rel
             (fun s s' => if is_non_repeating md
                          then anc_max_lag s <= anc_max_lag s'
                          else anc_max_lag s' = anc_max_lag s)) in E.
    + simpl in E. destruct md; simpl in *; lia.
    + intros s. destruct md; simpl; lia.
    + intros s1' s2 s3. destruct md; simpl; lia.
    + intros s a s' _. apply anc_level_max_lag.
Qed.

Lemma anc_seed_max_lag (fuel : nat) (self : OracleCI) (md : mode)
    (conds : list node) (ancs ancs' : gmap node (list node)) (m m' : Z)
    (y : node) :
  anc_seed fuel self md conds (ancs, m) y = Ok (ancs', m') →
  if is_non_repeating md then m <= m' ∧ Z.abs y.2 <= m' else m' = m.
Proof.
  unfold anc_seed. destruct y as [j tau].
  destruct (anc_while _ _ _ _ _ _ _) as [s1| |] eqn:E; simpl; try done.
  intros; simplify_eq. apply anc_while_max_lag in E. simpl in E.
  destruct md; simpl in *; lia.
Qed.

(** In mode ['non_repeating'] the bound that the search reports is at least
    the absolute lag of every node it was started from, and it is never
    negative. *)
Lemma non_repeating_bound_covers_seeds (fuel : nat) (self : OracleCI)
    (Y : list node) (conds : option (list node)) (ml : option Z)
    (ancs : gmap node (list node)) (m : Z) :
  _get_non_blocked_ancestors fuel self Y conds non_repeating ml
  = Ok (ancs, m) →
  0 <= m ∧ ∀ y, y ∈ Y → Z.abs y.2 <= m.
Proof.
  unfold _get_non_blocked_ancestors. simpl.
  generalize (add_selection_conds self
                (filter (fun z => negb (py_in z Y))
                        (match conds with Some c => c | None => [] end)) 0).
  intros conds'.
  generalize (list_to_map (map (fun y : node => (y, [])) Y)
                : gmap node (list node)).
  intros ancs0.
  assert (∀ (l : list node) a0 m0 a1 m1,
            for_each (anc_seed fuel self non_repeating conds') l (a0, m0)
            = Ok (a1, m1) →
            m0 <= m1 ∧ ∀ y, y ∈ l → Z.abs y.2 <= m1) as Hloop.
  { induction l as [|y l IH]; intros a0 m0 a1 m1.
    - simpl. intros; simplify_eq. split; [lia|]. intros y Hy. inversion Hy.
    - rewrite for_each_cons.
      destruct (anc_seed _ _ _ _ (a0, m0) y) as [[a2 m2]| |] eqn:E;
        [|done ..].
      cbn [res_bind]. intros Hrest. apply IH in Hrest as [Hm Hl].
      apply anc_seed_max_lag in E. simpl in E. split; [lia|].
      intros y' Hy'. apply elem_of_cons in Hy' as [-> | Hy']; [lia | auto]. }
  intros H. apply Hloop in H as [H0 Hl]. done.
Qed.

(** X18.  The horizon that [_get_max_lag_from_XYZ] derives for a query
    reaches back to every node of the query: no node of X, Y or Z lies before
    it. *)
Theorem horizon_covers_query (fuel : nat) (self : OracleCI)
    (X Y Zs : list node) (m : Z) :
  _get_max_lag_from_XYZ fuel self X Y Zs = Ok m →
  0 <= m ∧ ∀ n, n ∈ X ++ Y ++ Zs → Z.abs n.2 <= m.
Proof.
  unfold _get_max_lag_from_XYZ.
  destruct (_get_non_blocked_ancestors fuel self X _ _ _) as [[aX mX]| |]
    eqn:EX; simpl; try done.
  destruct (_get_non_blocked_ancestors fuel self Y _ _ _) as [[aY mY]| |]
    eqn:EY; simpl; try done.
  destruct (_get_non_blocked_ancestors fuel self Zs _ _ _) as [[aZ mZ]| |]
    eqn:EZ; simpl; try done.
  intros; simplify_eq.
  apply non_repeating_bound_covers_seeds in EX as [HX0 HX].
  apply non_repeating_bound_covers_seeds in EY as [HY0 HY].
  apply non_repeating_bound_covers_seeds in EZ as [HZ0 HZ].
  split; [lia|]. intros n Hn. rewrite !elem_of_app in Hn.
  destruct Hn as [Hn | [Hn | Hn]];
    [apply HX in Hn | apply HY in Hn | apply HZ in Hn]; lia.
Qed.

Lemma horizon_covers_query_witness :
  _get_max_lag_from_XYZ 3 oracle_chain [(0, -2)] [(1, 0)] [] = Ok 2
  ∧ 0 <= 2 ∧ ∀ n, n ∈ [(0, -2)] ++ [(1, 0)] ++ ([] : list node) →
                  Z.abs n.2 <= 2.
Proof.
  assert (_get_max_lag_from_XYZ 3 oracle_chain [(0, -2)] [(1, 0)] [] = Ok 2)
    as H by (vm_compute; reflexivity).
  split; [exact H|].
  exact (horizon_covers_query 3 oracle_chain [(0, -2)] [(1, 0)] [] 2 H).
Defined.

Lemma for_each_inv_in {A S : Type} (P : S → Prop) (body : S → A → res S)
    (l : list A) (st st' : S) :
  (∀ s a s', a ∈ l → P s → body s a = Ok s' → P s') →
  P st → for_each body l st = Ok st' → P st'.
Proof.
  revert st. induction l as [|a l IH]; intros st Hstep HP.
  - simpl. intros; simplify_eq. done.
  - rewrite for_each_cons. destruct (body st a) as [s1| |] eqn:E; [|done ..].
    cbn [res_bind]. apply IH.
    + intros s a' s' Ha'. apply Hstep. by right.
    + apply (Hstep st a); [by left | done | done].
Qed.

Section ancestor_search.

Variable self : OracleCI.
Variable md : mode.
Variable conds : list node.
Variable y : node.

Lemma anc_visit_inv (varlag par : node) (st st' : anc_state) :
  varlag = y ∨ ancestor_of self varlag y →
  parent_of self par varlag →
  anc_inv self md conds y st → anc_visit md conds y varlag st par = Ok st' → anc_inv self md conds y st'.
Proof using Type.
  intros Hvar Hpar Hinv. pose proof Hinv as (Hs & Hm & Hn).
  unfold anc_visit. destruct par as [i tau].
  destruct (py_getitem (ancestors st) y) as [anc_y| |] eqn:Ey; simpl;
    try done.
  unfold py_getitem in Ey.
  destruct (ancestors st !! y) as [l|] eqn:El; [|done]. simplify_eq.
  destruct (py_in _ conds) eqn:Ec; simpl; [intros; by simplify_eq|].
  destruct (py_in _ anc_y) eqn:Ea; simpl; [intros; by simplify_eq|].
  apply py_in_false in Ec, Ea.
  destruct (_ || _) eqn:Eadm; [|intros; by simplify_eq].
  intros; simplify_eq. clear Hinv.
  assert (ancestor_of self (i, tau) y) as Hanc.
  { unfold ancestor_of in *.
    destruct Hvar as [-> | Hvar]; [by apply tc_once|].
    by eapply tc_l. }
  assert (Z.abs (anc_max_lag st)
          <= Z.abs (if is_non_repeating md
                    then Z.max (anc_max_lag st) (Z.abs tau)
                    else anc_max_lag st)) as Hmono.
  { destruct (is_non_repeating md); [|lia]. specialize (Hm eq_refl). lia. }
  assert (Z.abs tau
          <= Z.abs (if is_non_repeating md
                    then Z.max (anc_max_lag st) (Z.abs tau)
                    else anc_max_lag st)) as Htau.
  { destruct (is_non_repeating md); simpl in Eadm; [lia|].
    apply Z.leb_le in Eadm. done. }
  split_and!; simpl.
  - intros y' l Hl. destruct (decide (y' = y)) as [->|Hne];
      [rewrite lookup_insert_eq in Hl
      | rewrite lookup_insert_ne in Hl by done].
    + injection Hl as <-. destruct (Hs y anc_y El) as [Hnd Hall]. split.
      * apply NoDup_app. split_and!; [done | | apply NoDup_singleton].
        intros a Ha Ha'. apply list_elem_of_singleton in Ha'. by subst.
      * intros a Ha. apply elem_of_app in Ha as [Ha | Ha].
        -- destruct (Hall a Ha) as (? & ? & ?). split_and!; [done | done | lia].
        -- apply list_elem_of_singleton in Ha as ->. done.
    + destruct (Hs y' l Hl) as [Hnd Hall]. split; [done|].
      intros a Ha. destruct (Hall a Ha) as (? & ? & ?).
      split_and!; [done | done | lia].
  - intros Hnr. rewrite Hnr. specialize (Hm Hnr). lia.
  - intros v Hv. apply elem_of_app in Hv as [Hv | Hv]; [by auto|].
    apply list_elem_of_singleton in Hv as ->. done.
Qed.

Lemma anc_level_inv (varlag : node) (st st' : anc_state) :
  varlag = y ∨ ancestor_of self varlag y →
  anc_inv self md conds y st → anc_level self md conds y st varlag = Ok st' → anc_inv self md conds y st'.
Proof using Type.
  intros Hvar Hinv. unfold anc_level.
  destruct (_get_lagged_parents self varlag false) as [ps| |] eqn:Eps; simpl;
    try done.
  apply for_each_inv_in; [|done].
  intros s par s' Hpar Hs. apply anc_visit_inv; [done | | done].
  exists ps. done.
Qed.

Lemma anc_while_inv (fuel : nat) (this_level : list node)
    (st st' : anc_state) :
  (∀ v, v ∈ this_level → v = y ∨ ancestor_of self v y) →
  anc_inv self md conds y st →
  anc_while fuel self md conds y this_level st = Ok st' → anc_inv self md conds y st'.
Proof using Type.
  revert this_level st. induction fuel as [|fuel IH]; intros lv st Hlv Hinv;
    simpl.
  - destruct lv; [|done]. intros; by simplify_eq.
  - destruct lv as [|v lv]; [intros; by simplify_eq|].
    destruct (for_each _ (v :: lv) _) as [s1| |] eqn:E; simpl; try done.
    assert (anc_inv self md conds y s1) as Hinv1.
    { revert E. apply for_each_inv_in.
      - intros s a s' Ha Hs. apply anc_level_inv; [by apply Hlv | done].
      - destruct Hinv as (Hs & Hm & _). split_and!; simpl; [done | done |].
        intros w Hw. inversion Hw. }
    apply IH; [|done]. intros w Hw. right.
    destruct Hinv1 as (_ & _ & Hn). by apply Hn.
Qed.

End ancestor_search.

Lemma anc_seed_sound (fuel : nat) (self : OracleCI) (md : mode)
    (conds : list node) (ancs ancs' : gmap node (list node)) (m m' : Z)
    (y : node) :
  ancestors_sound self conds m ancs →
  (is_non_repeating md = true → 0 <= m) →
  anc_seed fuel self md conds (ancs, m) y = Ok (ancs', m') →
  ancestors_sound self conds m' ancs'
  ∧ (is_non_repeating md = true → 0 <= m').
Proof.
  intros Hs Hm. unfold anc_seed. destruct y as [j tau].
  destruct (anc_while _ _ _ _ _ _ _) as [s1| |] eqn:E; simpl; try done.
  intros; simplify_eq.
  apply (anc_while_inv self md conds (j, tau)) in E as (Hs1 & Hm1 & _);
    [done | |].
  - intros v Hv. apply list_elem_of_singleton in Hv. by left.
  - split_and!; simpl.
    + intros y' l Hl. destruct (Hs y' l Hl) as [Hnd Hall]. split; [done|].
      intros a Ha. destruct (Hall a Ha) as (? & ? & ?).
      split_and!; [done | done |].
      destruct (is_non_repeating md); [specialize (Hm eq_refl)|]; lia.
    + intros Hnr. rewrite Hnr. specialize (Hm Hnr). lia.
    + intros v Hv. inversion Hv.
Qed.

(** X19.  What the ancestor search returns, in either mode: in the list of a
    seed [y] no node comes twice, and every node is an ancestor of [y]
    (reached from [y] through lagged parents), is not among the conditions
    the search was given (those that are seeds themselves apart), and has a
    lag within the reported bound. *)
Theorem ancestor_search_sound (fuel : nat) (self : OracleCI)
    (Y : list node) (conds : option (list node)) (md : mode)
    (ml : option Z) (ancs : gmap node (list node)) (m : Z) :
  _get_non_blocked_ancestors fuel self Y conds md ml = Ok (ancs, m) →
  ∀ y l, ancs !! y = Some l →
    NoDup l
    ∧ ∀ a, a ∈ l →
        ancestor_of self a y
        ∧ (a ∈ default [] conds → a ∈ Y)
        ∧ Z.abs a.2 <= Z.abs m.
Proof.
  unfold _get_non_blocked_ancestors.
  destruct (if is_non_repeating md then _ else _) as [m0| |] eqn:Em0; simpl;
    try done.
  set (conds0 := match conds with Some c => c | None => [] end).
  set (conds' := add_selection_conds self _ m0).
  intros H.
  assert (ancestors_sound self conds' m ancs) as Hsound.
  { assert (∀ (l : list node) a0 m1 a1 m2,
              ancestors_sound self conds' m1 a0 →
              (is_non_repeating md = true → 0 <= m1) →
              for_each (anc_seed fuel self md conds') l (a0, m1)
              = Ok (a1, m2) →
              ancestors_sound self conds' m2 a1) as Hloop.
    { induction l as [|y l IH]; intros a0 m1 a1 m2 Hs Hm.
      - simpl. intros; by simplify_eq.
      - rewrite for_each_cons.
        destruct (anc_seed _ _ _ _ (a0, m1) y) as [[a2 m3]| |] eqn:E;
          [|done ..].
        cbn [res_bind]. apply anc_seed_sound in E as [Hs2 Hm2]; [|done ..].
        by apply IH. }
    revert H. apply Hloop.
    - intros y l Hl. apply elem_of_list_to_map_2 in Hl.
      apply list_elem_of_fmap in Hl as (y' & Hy' & _). simplify_eq.
      split; [constructor|]. intros a Ha. inversion Ha.
    - intros Hnr. rewrite Hnr in Em0. simplify_eq. lia. }
  intros y l Hl. destruct (Hsound y l Hl) as [Hnd Hall]. split; [done|].
  intros a Ha. destruct (Hall a Ha) as (Hanc & Hc & Hb).
  split_and!; [done | | done].
  intros Hin. destruct (decide (a ∈ Y)) as [|HnY]; [done|]. exfalso.
  apply Hc. unfold conds'. apply elem_of_add_selection_conds. left.
  apply list_elem_of_filter. split; [|by destruct conds].
  apply negb_True. rewrite Is_true_true, py_in_true. done.
Qed.

Lemma ancestor_search_sound_witness :
  _get_non_blocked_ancestors 3 oracle_chain [(1, 0)] (Some []) non_repeating
    None = Ok ({[ (1, 0) := [(0, -1)] ]}, 1)
  ∧ NoDup [((0, -1) : node)]
  ∧ ancestor_of oracle_chain (0, -1) (1, 0).
Proof.
  assert (_get_non_blocked_ancestors 3 oracle_chain [(1, 0)] (Some [])
            non_repeating None
          = Ok (({[ (1, 0) := [(0, -1)] ]} : gmap node (list node)), 1))
    as H by (vm_compute; reflexivity).
  split; [exact H|].
  destruct (ancestor_search_sound _ _ _ _ _ _ _ _ H (1, 0) [(0, -1)])
    as [Hnd Hall]; [apply lookup_singleton_eq|].
  split; [exact Hnd|].
  destruct (Hall (0, -1)) as (Hanc & _); [left | exact Hanc].
Defined.

(** *** The search for the horizon ends *)

Lemma for_each_not_out_of_fuel {A S : Type} (body : S → A → res S)
    (l : list A) (st : S) :
  (∀ s a, body s a ≠ OutOfFuel) → for_each body l st ≠ OutOfFuel.
Proof.
  intros Hb. revert st. induction l as [|a l IH]; intros st; simpl; [done|].
  destruct (body st a) as [s1| |] eqn:E; simpl; [apply IH | done |].
  by apply Hb in E.
Qed.

Lemma _get_lagged_parents_not_out_of_fuel (self : OracleCI) (v : node)
    (b : bool) :
  _get_lagged_parents self v b ≠ OutOfFuel.
Proof.
  unfold _get_lagged_parents, py_getitem. destruct v as [var lag].
  by destruct (links self !! var).
Qed.

Lemma anc_visit_not_out_of_fuel (md : mode) (conds : list node)
    (y varlag : node) (st : anc_state) (par : node) :
  anc_visit md conds y varlag st par ≠ OutOfFuel.
Proof.
  unfold anc_visit, py_getitem. destruct par as [i tau].
  destruct (ancestors st !! y); simpl; [|done].
  destruct (negb _ && negb _); [|done]. by destruct (_ || _).
Qed.

Lemma anc_level_not_out_of_fuel (self : OracleCI) (md : mode)
    (conds : list node) (y : node) (st : anc_state) (varlag : node) :
  anc_level self md conds y st varlag ≠ OutOfFuel.
Proof.
  unfold anc_level.
  destruct (_get_lagged_parents self varlag false) as [ps| |] eqn:E; simpl;
    [| done | by apply _get_lagged_parents_not_out_of_fuel in E].
  apply for_each_not_out_of_fuel. intros s a. apply anc_visit_not_out_of_fuel.
Qed.

Lemma repeating_link_type (link : node * node) (seen : list (node * node)) :
  _repeating link seen = true ↔ link_type link ∈ link_type <$> seen.
Proof.
  unfold _repeating. destruct link as [[i taui] [j tauj]].
  rewrite existsb_exists, list_elem_of_fmap. split.
  - intros ([[si staui] [sj stauj]] & Hin & Heq).
    exists (si, staui, (sj, stauj)). split; [|by apply list_elem_of_In].
    simpl. f_equal; [f_equal|]; lia.
  - intros ([[si staui] [sj stauj]] & Heq & Hin).
    exists (si, staui, (sj, stauj)). split; [by apply list_elem_of_In|].
    simpl in Heq. simplify_eq. lia.
Qed.

Lemma parent_link_type (self : OracleCI) (par varlag : node) :
  parent_of self par varlag →
  link_type (par, varlag) ∈ all_link_types self.
Proof.
  intros (ps & Hps & Hin). destruct varlag as [j lag].
  apply (elem_of_lagged_parents _ _ _ _ _ Hps) in Hin
    as (l & lp & Hl & Hlp & _ & ->).
  unfold all_link_types. apply list_elem_of_bind. exists (j, l).
  split; [|by apply elem_of_map_to_list].
  apply list_elem_of_bind. exists lp. split; [|done].
  simpl. replace (lag - (lag + (link_source lp).2)) with (- (link_source lp).2)
    by lia.
  rewrite Z.abs_opp. by left.
Qed.

(** One visit in mode ['non_repeating']: the seen links keep their
    invariant, and a link is seen for every node that joins the next
    level. *)
Lemma anc_visit_seen (self : OracleCI) (conds : list node)
    (y varlag par : node) (st st' : anc_state) :
  parent_of self par varlag → seen_inv self st →
  anc_visit non_repeating conds y varlag st par = Ok st' →
  seen_inv self st'
  ∧ (length (seen_links st') + length (next_level st)
     = length (seen_links st) + length (next_level st'))%nat
  ∧ (length (seen_links st) <= length (seen_links st'))%nat.
Proof.
  intros Hpar Hinv. pose proof Hinv as [Hnd Hty]. unfold anc_visit.
  destruct par as [i tau].
  destruct (py_getitem (ancestors st) y) as [anc_y| |]; [|done ..].
  cbn [res_bind is_non_repeating].
  destruct (negb _ && negb _);
    [|intros; simplify_eq; split_and!; [done | lia | lia]].
  destruct (_repeating _ _) eqn:Er; cbn [negb andb orb];
    [intros; simplify_eq; split_and!; [done | lia | lia]|].
  intros; simplify_eq. simpl. rewrite !length_app. simpl.
  split_and!; [|lia|lia].
  assert (link_type (i, tau, varlag) ∉ link_type <$> seen_links st) as Hnew.
  { intros Hin. apply repeating_link_type in Hin.
    pose proof (eq_trans (eq_sym Hin) Er). discriminate. }
  split; cbn [seen_links].
  - rewrite fmap_app. apply NoDup_app. split_and!; [done | |].
    + intros t Ht Ht'. apply list_elem_of_singleton in Ht'. by subst.
    + apply NoDup_singleton.
  - intros t Ht. rewrite fmap_app in Ht. apply elem_of_app in Ht as [Ht | Ht];
      [by auto|].
    apply list_elem_of_singleton in Ht as ->.
    by apply parent_link_type.
Qed.

Lemma anc_level_seen (self : OracleCI) (conds : list node) (y varlag : node)
    (st st' : anc_state) :
  seen_inv self st →
  anc_level self non_repeating conds y st varlag = Ok st' →
  seen_inv self st'
  ∧ (length (seen_links st') + length (next_level st)
     = length (seen_links st) + length (next_level st'))%nat
  ∧ (length (seen_links st) <= length (seen_links st'))%nat.
Proof.
  intros Hinv. unfold anc_level.
  destruct (_get_lagged_parents self varlag false) as [ps| |] eqn:Eps; simpl;
    try done.
  assert (∀ par, par ∈ ps → parent_of self par varlag) as Hps.
  { intros par Hin. exists ps. done. }
  clear Eps. revert st Hinv. induction ps as [|par ps IH]; intros st Hinv.
  - simpl. intros; simplify_eq. split_and!; [done | lia | lia].
  - rewrite for_each_cons.
    destruct (anc_visit _ _ _ _ st par) as [s1| |] eqn:E; [|done ..].
    cbn [res_bind]. intros Hrest.
    apply (anc_visit_seen self) in E as (Hinv1 & Hd1 & Hle1);
      [| apply Hps; by left | done].
    apply IH in Hrest as (Hinv2 & Hd2 & Hle2);
      [| intros p Hp; apply Hps; by right | done].
    split_and!; [done | lia | lia].
Qed.

Lemma anc_levels_seen (self : OracleCI) (conds : list node) (y : node)
    (lv : list node) (st st' : anc_state) :
  seen_inv self st →
  for_each (anc_level self non_repeating conds y) lv st = Ok st' →
  seen_inv self st'
  ∧ (length (seen_links st') + length (next_level st)
     = length (seen_links st) + length (next_level st'))%nat
  ∧ (length (seen_links st) <= length (seen_links st'))%nat.
Proof.
  revert st. induction lv as [|v lv IH]; intros st Hinv.
  - simpl. intros; simplify_eq. split_and!; [done | lia | lia].
  - rewrite for_each_cons.
    destruct (anc_level _ _ _ _ st v) as [s1| |] eqn:E; [|done ..].
    cbn [res_bind]. intros Hrest.
    apply anc_level_seen in E as (Hinv1 & Hd1 & Hle1); [|done].
    apply IH in Hrest as (Hinv2 & Hd2 & Hle2); [|done].
    split_and!; [done | lia | lia].
Qed.

Lemma seen_bounded (self : OracleCI) (st : anc_state) :
  seen_inv self st → (length (seen_links st) <= links_count self)%nat.
Proof.
  intros [Hnd Hty]. unfold links_count.
  rewrite <- (length_fmap link_type).
  apply submseteq_length, NoDup_submseteq; done.
Qed.

Lemma anc_while_terminates (fuel : nat) (self : OracleCI)
    (conds : list node) (y : node) (this_level : list node)
    (st : anc_state) :
  seen_inv self st →
  (links_count self - length (seen_links st) < fuel)%nat →
  anc_while fuel self non_repeating conds y this_level st ≠ OutOfFuel.
Proof.
  revert this_level st. induction fuel as [|fuel IH]; intros lv st Hinv Hf;
    [lia|].
  simpl. destruct lv as [|v lv]; [done|].
  destruct (for_each _ (v :: lv) _) as [s1| |] eqn:E; simpl; [|done|].
  2:{ apply for_each_not_out_of_fuel in E; [done|].
      intros s a. apply anc_level_not_out_of_fuel. }
  apply anc_levels_seen in E as (Hinv1 & Hd & Hle); [|done].
  simpl in Hd, Hle.
  destruct (next_level s1) as [|w lv'] eqn:En.
  { destruct fuel; done. }
  apply IH; [done|]. pose proof (seen_bounded self s1 Hinv1).
  simpl in Hd. lia.
Qed.

Lemma non_repeating_search_terminates (self : OracleCI) (Y : list node)
    (conds : option (list node)) (ml : option Z) :
  _get_non_blocked_ancestors (S (links_count self)) self Y conds
    non_repeating ml ≠ OutOfFuel.
Proof.
  unfold _get_non_blocked_ancestors. simpl.
  apply for_each_not_out_of_fuel. intros [ancs m] [j tau].
  unfold anc_seed.
  destruct (anc_while _ _ _ _ _ _ _) as [s1| |] eqn:E; simpl; [done..|].
  apply anc_while_terminates in E; [done | | simpl; lia].
  split; simpl; [constructor|]. intros t Ht. inversion Ht.
Qed.

(** X20.  The search for the horizon of a query always ends: with a step
    budget above the number of entries of [links], [_get_max_lag_from_XYZ]
    returns or raises, whatever the query. *)
Theorem horizon_search_terminates (self : OracleCI) (X Y Zs : list node)
    (k : nat) :
  _get_max_lag_from_XYZ (S (links_count self) + k) self X Y Zs ≠ OutOfFuel.
Proof.
  unfold _get_max_lag_from_XYZ.
  pose proof (non_repeating_search_terminates self X (Some Zs) None) as HX.
  pose proof (non_repeating_search_terminates self Y (Some Zs) None) as HY.
  pose proof (non_repeating_search_terminates self Zs (Some Zs) None) as HZ.
  rewrite (_get_non_blocked_ancestors_more _ k _ _ _ _ _ _ eq_refl HX).
  destruct (_get_non_blocked_ancestors _ self X _ _ _) as [rX| |];
    [|done ..]. cbn [res_bind].
  rewrite (_get_non_blocked_ancestors_more _ k _ _ _ _ _ _ eq_refl HY).
  destruct (_get_non_blocked_ancestors _ self Y _ _ _) as [rY| |];
    [|done ..]. cbn [res_bind].
  rewrite (_get_non_blocked_ancestors_more _ k _ _ _ _ _ _ eq_refl HZ).
  destruct (_get_non_blocked_ancestors _ self Zs _ _ _) as [rZ| |]; simpl;
    done.
Qed.

(** *** The search for the horizon returns *)

Lemma for_each_safe {A S : Type} (P : S → Prop) (body : S → A → res S)
    (l : list A) (st : S) :
  (∀ s a, a ∈ l → P s → safe P (body s a)) →
  P st → safe P (for_each body l st).
Proof.
  revert st. induction l as [|a l IH]; intros st Hb HP; [done|].
  rewrite for_each_cons. pose proof (Hb st a ltac:(by left) HP) as Ha.
  destruct (body st a) as [s1| |]; simpl in *; [|done ..].
  apply IH; [|done]. intros s a' Ha'. apply Hb. by right.
Qed.

Section ancestor_search_safe.

Variable self : OracleCI.
Variable md : mode.
Variable conds : list node.
Variable y : node.
Hypothesis closed : links_closed (links self).

Lemma anc_visit_safe (keys : list node) (varlag par : node)
    (st : anc_state) :
  is_Some (links self !! par.1) → anc_keys self y keys st →
  safe (anc_keys self y keys) (anc_visit md conds y varlag st par).
Proof using Type.
  intros Hpar Hk. pose proof Hk as (Hkeys & [anc_y Hy] & Hn).
  unfold anc_visit, py_getitem. destruct par as [i tau]. rewrite Hy.
  cbn [res_bind]. destruct (negb _ && negb _); [|done].
  destruct (_ || _); [|done]. simpl. split_and!; simpl.
  - intros k Hin. rewrite lookup_insert. case_decide; [by eauto | by auto].
  - rewrite lookup_insert_eq. by eauto.
  - intros v Hv. apply elem_of_app in Hv as [Hv | Hv]; [by auto|].
    apply list_elem_of_singleton in Hv as ->. done.
Qed.

Lemma lagged_parents_closed (v : node) :
  is_Some (links self !! v.1) →
  ∃ ps, _get_lagged_parents self v false = Ok ps
        ∧ ∀ p, p ∈ ps → is_Some (links self !! p.1).
Proof using closed.
  intros [l Hl]. destruct v as [var lag]. simpl in Hl.
  destruct (_get_lagged_parents self (var, lag) false) as [ps| |] eqn:E.
  - exists ps. split; [done|]. intros p Hp.
    apply (elem_of_lagged_parents _ _ _ _ _ E) in Hp
      as (l' & lp & Hl' & Hlp & _ & ->).
    simpl. destruct closed as [_ Hc]. by eapply Hc.
  - unfold _get_lagged_parents, py_getitem in E. rewrite Hl in E. done.
  - by apply _get_lagged_parents_not_out_of_fuel in E.
Qed.

Lemma anc_level_safe (keys : list node) (varlag : node) (st : anc_state) :
  is_Some (links self !! varlag.1) → anc_keys self y keys st →
  safe (anc_keys self y keys) (anc_level self md conds y st varlag).
Proof using closed.
  intros Hv Hk. unfold anc_level.
  destruct (lagged_parents_closed varlag Hv) as (ps & -> & Hps).
  cbn [res_bind]. apply for_each_safe; [|done].
  intros s par Hpar Hs. apply anc_visit_safe; [by apply Hps | done].
Qed.

Lemma anc_while_safe (fuel : nat) (keys : list node)
    (this_level : list node) (st : anc_state) :
  (∀ v, v ∈ this_level → is_Some (links self !! v.1)) →
  anc_keys self y keys st →
  safe (anc_keys self y keys) (anc_while fuel self md conds y this_level st).
Proof using closed.
  revert this_level st. induction fuel as [|fuel IH]; intros lv st Hlv Hk;
    simpl.
  - by destruct lv.
  - destruct lv as [|v lv]; [done|].
    assert (safe (anc_keys self y keys)
              (for_each (anc_level self md conds y) (v :: lv)
                 {| ancestors := ancestors st; anc_max_lag := anc_max_lag st;
                    next_level := []; seen_links := seen_links st |}))
      as Hfor.
    { apply for_each_safe.
      - intros s a Ha Hs. apply anc_level_safe; [by apply Hlv | done].
      - destruct Hk as (H1 & H2 & _). split_and!; simpl; [done | done |].
        intros w Hw. inversion Hw. }
    destruct (for_each _ (v :: lv) _) as [s1| |]; simpl in *; [|done ..].
    apply IH; [|done]. by destruct Hfor as (_ & _ & Hn).
Qed.

End ancestor_search_safe.

Lemma non_repeating_search_safe (fuel : nat) (self : OracleCI)
    (Y : list node) (conds : option (list node)) (md : mode) (m0 : Z) :
  links_closed (links self) →
  (∀ y, y ∈ Y → is_Some (links self !! y.1)) →
  safe (fun _ => True)
       (_get_non_blocked_ancestors fuel self Y conds md (Some m0)).
Proof.
  intros Hclosed HY. unfold _get_non_blocked_ancestors.
  assert (∃ m, (if is_non_repeating md then Ok 0 else Ok m0) = Ok m)
    as [m ->] by (destruct md; simpl; eauto).
  cbn [res_bind].
  set (conds' := add_selection_conds self _ m).
  assert (safe (fun st : gmap node (list node) * Z =>
                  ∀ k, k ∈ Y → is_Some (st.1 !! k))
               (for_each (anc_seed fuel self md conds') Y
                  (list_to_map (map (fun y => (y, [])) Y), m))) as Hs.
  { apply for_each_safe.
    - intros [ancs m1] y Hy Hkeys. unfold anc_seed. destruct y as [j tau].
      pose proof (anc_while_safe self md conds' (j, tau) Hclosed fuel Y
                    [(j, tau)]
                    {| ancestors := ancs;
                       anc_max_lag := if is_non_repeating md
                                      then m1 `max` Z.abs tau else m1;
                       next_level := []; seen_links := [] |}) as Hw.
      destruct (anc_while _ _ _ _ _ _ _) as [s1| |]; simpl in *; [| |done].
      + apply Hw.
        * intros v Hv. apply list_elem_of_singleton in Hv as ->.
          by apply (HY (j, tau)).
        * split_and!; simpl; [done | by apply Hkeys |].
          intros w Hw'. inversion Hw'.
      + apply Hw.
        * intros v Hv. apply list_elem_of_singleton in Hv as ->.
          by apply (HY (j, tau)).
        * split_and!; simpl; [done | by apply Hkeys |].
          intros w Hw'. inversion Hw'.
    - simpl. intros k Hk. apply elem_of_dom. rewrite dom_list_to_map_L.
      rewrite elem_of_list_to_set, <- list_fmap_compose, list_elem_of_fmap.
      by exists k. }
  destruct (for_each _ Y _); simpl in *; done.
Qed.

Lemma non_repeating_search_returns (self : OracleCI) (W Zs : list node)
    (k : nat) :
  links_closed (links self) →
  (∀ n, n ∈ W → is_Some (links self !! n.1)) →
  ∃ r, _get_non_blocked_ancestors (S (links_count self) + k) self W (Some Zs)
         non_repeating None = Ok r.
Proof.
  intros Hclosed HW.
  pose proof (non_repeating_search_terminates self W (Some Zs) None) as Ht.
  rewrite (_get_non_blocked_ancestors_more _ k _ _ _ _ _ _ eq_refl Ht).
  assert (_get_non_blocked_ancestors (S (links_count self)) self W (Some Zs)
            non_repeating None
          = _get_non_blocked_ancestors (S (links_count self)) self W (Some Zs)
              non_repeating (Some 0)) as Heq by done.
  pose proof (non_repeating_search_safe (S (links_count self)) self W
                (Some Zs) non_repeating 0 Hclosed HW) as Hs.
  rewrite <- Heq in Hs.
  destruct (_get_non_blocked_ancestors _ self W _ _ _) as [r| |];
    [by exists r | done | done].
Qed.

(** X21.  On a closed links dictionary the horizon of a query whose variables
    are keys of [links] is always found: with a step budget above the number
    of entries of [links], [_get_max_lag_from_XYZ] returns a bound. *)
Theorem horizon_search_returns (self : OracleCI) (X Y Zs : list node)
    (k : nat) :
  links_closed (links self) →
  (∀ n, n ∈ X ++ Y ++ Zs → is_Some (links self !! n.1)) →
  ∃ m, _get_max_lag_from_XYZ (S (links_count self) + k) self X Y Zs = Ok m.
Proof.
  intros Hclosed Hq. unfold _get_max_lag_from_XYZ.
  destruct (non_repeating_search_returns self X Zs k Hclosed) as [rX ->].
  { intros n Hn. apply Hq. rewrite !elem_of_app. tauto. }
  destruct (non_repeating_search_returns self Y Zs k Hclosed) as [rY ->].
  { intros n Hn. apply Hq. rewrite !elem_of_app. tauto. }
  destruct (non_repeating_search_returns self Zs Zs k Hclosed) as [rZ ->].
  { intros n Hn. apply Hq. rewrite !elem_of_app. tauto. }
  simpl. eauto.
Qed.

(** ** The path search *)

(** *** The search loop of [_has_any_path] terminates *)

Lemma elem_of_window_states (vs : list Z) (max_lag : Z) (w : node)
    (m : mark) :
  w.1 ∈ vs → w.2 <= 0 → Z.abs w.2 <= max_lag → m ≠ Start →
  (w, m) ∈ window_states vs max_lag.
Proof.
  intros Hv H0 Hm Hs. destruct w as [i t]. simpl in *.
  unfold window_states. apply list_elem_of_bind. exists i. split; [|done].
  apply list_elem_of_bind. exists (- t). split; [|apply elem_of_py_range; lia].
  apply list_elem_of_bind. exists m.
  split; [|destruct m; [by left | by right; left | done]].
  replace (- - t) with t by lia. by left.
Qed.

Lemma unvisited_not_marked (P : gmap node marks) (w : node) (m : mark) :
  unvisited P w m = true → ¬ marked P (w, m).
Proof.
  unfold unvisited. intros Hu (d & Hd & Hm). simpl in *. rewrite Hd in Hu.
  rewrite Hm in Hu. done.
Qed.

Lemma marked_insert_tail (P : gmap node marks) (w : node) (e : node * mark)
    (s : node * mark) :
  marked P s ∨ s = (w, Tail) →
  marked (match P !! w with
          | None => <[w := {| m_tail := Some e; m_arrowhead := None;
                              m_start := false |}]> P
          | Some d => <[w := marks_set_tail d e]> P
          end) s.
Proof.
  intros [(d & Hd & Hm) | ->].
  - destruct (decide (s.1 = w)) as [<- | Hne].
    + rewrite Hd. exists (marks_set_tail d e). rewrite lookup_insert_eq.
      split; [done|]. destruct s as [n []]; simpl in *; done.
    + exists d. split; [|done]. destruct (P !! w); by rewrite lookup_insert_ne.
  - destruct (P !! w) as [d|]; eexists; simpl; by rewrite lookup_insert_eq.
Qed.

Lemma marked_insert_arrowhead (P : gmap node marks) (w : node)
    (e : node * mark) (s : node * mark) :
  marked P s ∨ s = (w, Arrowhead) →
  marked (match P !! w with
          | None => <[w := {| m_tail := None; m_arrowhead := Some e;
                              m_start := false |}]> P
          | Some d => <[w := marks_set_arrowhead d e]> P
          end) s.
Proof.
  intros [(d & Hd & Hm) | ->].
  - destruct (decide (s.1 = w)) as [<- | Hne].
    + rewrite Hd. exists (marks_set_arrowhead d e). rewrite lookup_insert_eq.
      split; [done|]. destruct s as [n []]; simpl in *; done.
    + exists d. split; [|done]. destruct (P !! w); by rewrite lookup_insert_ne.
  - destruct (P !! w) as [d|]; eexists; simpl; by rewrite lookup_insert_eq.
Qed.

Lemma walk_inv_snoc (U L : list (node * mark)) (P P' : gmap node marks)
    (s : node * mark) :
  walk_inv U L P → ¬ marked P s → s ∈ U →
  (∀ s', marked P s' ∨ s' = s → marked P' s') →
  walk_inv U (L ++ [s]) P'.
Proof.
  intros [Hnd HL] Hnew HU Hstep. split.
  - apply NoDup_app. split_and!; [done | | by apply NoDup_singleton].
    intros s' Hin Hs'. apply list_elem_of_singleton in Hs' as ->.
    by apply Hnew, HL.
  - intros s' Hin. apply elem_of_app in Hin as [Hin | Hin].
    + split; [apply Hstep; left|]; by apply HL.
    + apply list_elem_of_singleton in Hin as ->. split; [|done].
      apply Hstep. by right.
Qed.

Section search_terminates.

Variable self : OracleCI.
Variable conds : list node.
Variable max_lag : Z.
Variable backdoor : bool.
Variable children : gmap Z (list node).
Variable x : node.

Local Abbreviation U := (window_states (search_vars self children) max_lag).

Lemma walk_parents_loop_inv (v : node) (ws : list node)
    (fringe : list (node * mark)) (P O : gmap node marks)
    (L : list (node * mark)) :
  (∀ w, w ∈ ws → w.1 ∈ search_vars self children) →
  walk_inv U L P →
  ∃ new,
    walk_fringe (walk_parents_loop conds max_lag backdoor x v ws fringe P O)
    = fringe ++ new
    ∧ walk_inv U (L ++ new)
        (walk_path (walk_parents_loop conds max_lag backdoor x v ws fringe P O)).
Proof using Type.
  revert fringe P L. induction ws as [|w ws IH]; intros fringe P L Hws HL.
  { exists []. simpl. by rewrite !app_nil_r. }
  assert (∀ w', w' ∈ ws → w'.1 ∈ search_vars self children) as Hws'
    by (intros w' Hw'; apply Hws; by right).
  pose proof (Hws w ltac:(by left)) as Hw.
  simpl. destruct w as [i t].
  destruct (backdoor && _); [by apply IH|].
  destruct (negb (py_in _ conds)); simpl; [|by apply IH].
  destruct (t <=? 0) eqn:Et; simpl; [|by apply IH].
  destruct (Z.abs t <=? max_lag) eqn:Em; simpl; [|by apply IH].
  destruct (unvisited P (i, t) Tail) eqn:Eu; cbn beta iota.
  - assert (walk_inv U (L ++ [((i, t), Tail)])
              (match P !! (i, t) with
               | None => <[(i, t) := {| m_tail := Some (v, Arrowhead);
                                        m_arrowhead := None;
                                        m_start := false |}]> P
               | Some d => <[(i, t) := marks_set_tail d (v, Arrowhead)]> P
               end)) as HL'.
    { eapply walk_inv_snoc; [done | by apply unvisited_not_marked | |].
      - apply elem_of_window_states; simpl; [done | lia | lia | done].
      - intros s'. apply marked_insert_tail. }
    destruct (bool_decide (is_Some _)).
    + exists [((i, t), Tail)]. simpl. split; [done | exact HL'].
    + destruct (IH (fringe ++ [((i, t), Tail)]) _ _ Hws' HL')
        as (new & Hf & Hinv).
      exists (((i, t), Tail) :: new). rewrite <- app_assoc in Hf, Hinv.
      split; [exact Hf | exact Hinv].
  - destruct (bool_decide (is_Some _)); [|by apply IH].
    exists []. simpl. by rewrite !app_nil_r.
Qed.

Lemma walk_children_loop_inv (v : node) (ws : list node)
    (fringe : list (node * mark)) (P O : gmap node marks)
    (L : list (node * mark)) :
  (∀ w, w ∈ ws → w.1 ∈ search_vars self children) →
  walk_inv U L P →
  ∃ new,
    walk_fringe (walk_children_loop conds max_lag v ws fringe P O)
    = fringe ++ new
    ∧ walk_inv U (L ++ new)
        (walk_path (walk_children_loop conds max_lag v ws fringe P O)).
Proof using Type.
  revert fringe P L. induction ws as [|w ws IH]; intros fringe P L Hws HL.
  { exists []. simpl. by rewrite !app_nil_r. }
  assert (∀ w', w' ∈ ws → w'.1 ∈ search_vars self children) as Hws'
    by (intros w' Hw'; apply Hws; by right).
  pose proof (Hws w ltac:(by left)) as Hw.
  simpl. destruct w as [i t].
  destruct (t <=? 0) eqn:Et; simpl; [|by apply IH].
  destruct (Z.abs t <=? max_lag) eqn:Em; simpl; [|by apply IH].
  destruct (unvisited P (i, t) Arrowhead) eqn:Eu; cbn beta iota.
  - assert (walk_inv U (L ++ [((i, t), Arrowhead)])
              (match P !! (i, t) with
               | None => <[(i, t) := {| m_tail := None;
                                        m_arrowhead := Some (v, Tail);
                                        m_start := false |}]> P
               | Some d => <[(i, t) := marks_set_arrowhead d (v, Tail)]> P
               end)) as HL'.
    { eapply walk_inv_snoc; [done | by apply unvisited_not_marked | |].
      - apply elem_of_window_states; simpl; [done | lia | lia | done].
      - intros s'. apply marked_insert_arrowhead. }
    destruct (IH (fringe ++ [((i, t), Arrowhead)]) _ _ Hws' HL')
      as (new & Hf & Hinv).
    rewrite <- app_assoc in Hf, Hinv.
    destruct (O !! _) as [d|];
      [|exists (((i, t), Arrowhead) :: new); split; [exact Hf | exact Hinv]].
    destruct (_ || _).
    + exists [((i, t), Arrowhead)]. simpl. split; [done | exact HL'].
    + exists (((i, t), Arrowhead) :: new). split; [exact Hf | exact Hinv].
  - destruct (O !! _) as [d|]; [|by apply IH].
    destruct (_ || _); [|by apply IH].
    exists []. simpl. by rewrite !app_nil_r.
Qed.

Lemma parents_in_search_vars (v : node) (ps : list node) (w : node) :
  _get_lagged_parents self v false = Ok ps → w ∈ ps →
  w.1 ∈ search_vars self children.
Proof using Type.
  intros Hps Hw. apply elem_of_remove_dups, elem_of_app. left.
  pose proof (parent_link_type self w v ltac:(by exists ps)) as Ht.
  apply list_elem_of_fmap. exists (link_type (w, v)). split; [|done].
  by destruct w, v.
Qed.

Lemma children_in_search_vars (v : node) (cs : list node) (w : node) :
  _get_lagged_children v children false = Ok cs → w ∈ cs →
  w.1 ∈ search_vars self children.
Proof using Type.
  intros Hcs Hw. destruct v as [var lag].
  apply (elem_of_lagged_children _ _ _ _ _ Hcs) in Hw
    as (l & t & Hl & Hin & _).
  apply elem_of_remove_dups, elem_of_app. right.
  apply list_elem_of_bind. exists (var, l).
  split; [|by apply elem_of_map_to_list].
  apply list_elem_of_bind. exists (w.1, t). split; [by left | done].
Qed.

Lemma _walk_to_parents_inv (v : node) (fringe : list (node * mark))
    (P O : gmap node marks) (L : list (node * mark)) :
  walk_inv U L P →
  walk_ok U fringe L
    (_walk_to_parents self conds max_lag backdoor x v fringe P O).
Proof using Type.
  intros HL. unfold _walk_to_parents.
  destruct (_get_lagged_parents self v false) as [ps| |] eqn:E; simpl;
    [| done | by apply _get_lagged_parents_not_out_of_fuel in E].
  apply walk_parents_loop_inv; [|done].
  intros w Hw. by eapply parents_in_search_vars.
Qed.

Lemma _walk_to_children_inv (v : node) (fringe : list (node * mark))
    (P O : gmap node marks) (L : list (node * mark)) :
  walk_inv U L P →
  walk_ok U fringe L (_walk_to_children conds max_lag children v fringe P O).
Proof using Type.
  intros HL. unfold _walk_to_children.
  destruct (_get_lagged_children v children false) as [cs| |] eqn:E; simpl;
    [| done |].
  - apply walk_children_loop_inv; [|done].
    intros w Hw. by eapply children_in_search_vars.
  - destruct v. unfold _get_lagged_children, py_getitem in E.
    destruct (children !! _); done.
Qed.

Lemma walk_ok_trans (fringe : list (node * mark)) (L : list (node * mark))
    (w : walk) (r : res walk) (new : list (node * mark)) :
  walk_fringe w = fringe ++ new →
  walk_ok U (walk_fringe w) (L ++ new) r → walk_ok U fringe L r.
Proof using Type.
  intros Hf Hr. destruct r as [w'| |]; simpl in *; [|done ..].
  destruct Hr as (new' & Hf' & Hinv). exists (new ++ new').
  rewrite Hf', Hf. by rewrite <- !app_assoc in *.
Qed.

Lemma walk_level_inv (this_level fringe : list (node * mark))
    (P O : gmap node marks) (L : list (node * mark)) :
  walk_inv U L P →
  walk_ok U fringe L
    (walk_level self conds max_lag backdoor children x this_level fringe P O).
Proof using Type.
  revert fringe P L.
  induction this_level as [|[v mk] rest IH]; intros fringe P L HL.
  { exists []. simpl. by rewrite !app_nil_r. }
  simpl.
  assert (∀ fringe L (r : res walk), walk_ok U fringe L r →
            walk_ok U fringe L
              (w <-- r ;;
               match walk_found w with
               | Some _ => Ok w
               | None =>
                   walk_level self conds max_lag backdoor children x rest
                     (walk_fringe w) (walk_path w) O
               end)) as Hthen.
  { intros fringe' L' [w| |] Hr; simpl in *; [|done ..].
    destruct (walk_found w); [done|]. destruct Hr as (new & Hf & Hinv).
    eapply walk_ok_trans; [done|]. by apply IH. }
  destruct (py_in v conds).
  - destruct (_ || _); [|by apply IH].
    by apply Hthen, _walk_to_parents_inv.
  - destruct (_ || _).
    + pose proof (_walk_to_parents_inv v fringe P O L HL) as Hp.
      destruct (_walk_to_parents _ _ _ _ _ _ _ _ _) as [w| |]; simpl in *;
        [|done ..].
      destruct (walk_found w); [done|]. destruct Hp as (new & Hf & Hinv).
      eapply walk_ok_trans; [done|].
      by apply Hthen, _walk_to_children_inv.
    + destruct (bool_decide (mk = Arrowhead)); [|by apply IH].
      by apply Hthen, _walk_to_children_inv.
Qed.

Lemma _walk_fringe_inv (this_level fringe : list (node * mark))
    (P O : gmap node marks) (L : list (node * mark)) :
  walk_inv U L P →
  walk_ok U fringe L
    (_walk_fringe self conds max_lag backdoor children x this_level fringe
       P O).
Proof using Type.
  intros HL. unfold _walk_fringe. destruct (_ && _).
  - by apply _walk_to_parents_inv.
  - by apply walk_level_inv.
Qed.

Lemma walk_inv_bounded (L : list (node * mark)) (P : gmap node marks) :
  walk_inv U L P → (length L <= length U)%nat.
Proof using Type.
  intros [Hnd HL]. apply submseteq_length, NoDup_submseteq; [done|].
  intros s Hs. by apply HL.
Qed.

Lemma search_while_terminates (fuel : nat)
    (ff rf : list (node * mark)) (pred succ : gmap node marks)
    (Lf Lr : list (node * mark)) :
  walk_inv U Lf pred → walk_inv U Lr succ →
  (2 * length U < fuel + length Lf + length Lr)%nat →
  search_while self conds max_lag backdoor children x fuel ff rf pred succ
  ≠ OutOfFuel.
Proof using Type.
  revert ff rf pred succ Lf Lr.
  induction fuel as [|fuel IH]; intros ff rf pred succ Lf Lr Hf Hr Hlt.
  { apply walk_inv_bounded in Hf, Hr. lia. }
  simpl. destruct ff as [|f ff]; [done|]. destruct rf as [|r rf]; [done|].
  destruct (_ <=? _)%nat.
  - pose proof (_walk_fringe_inv (f :: ff) [] pred succ Lf Hf) as Hw.
    destruct (_walk_fringe _ _ _ _ _ _ _ _ _ _) as [w| |]; simpl in *;
      [|done ..].
    destruct (walk_found w); [done|]. destruct Hw as (new & Hnew & Hinv).
    rewrite Hnew. destruct new as [|n new]; [by destruct fuel|].
    eapply IH; [done | done |]. rewrite length_app. simpl. lia.
  - pose proof (_walk_fringe_inv (r :: rf) [] succ pred Lr Hr) as Hw.
    destruct (_walk_fringe _ _ _ _ _ _ _ _ _ _) as [w| |]; simpl in *;
      [|done ..].
    destruct (walk_found w); [done|]. destruct Hw as (new & Hnew & Hinv).
    rewrite Hnew. destruct new as [|n new]; [by destruct fuel|].
    eapply IH; [done | done |]. rewrite length_app. simpl. lia.
Qed.

End search_terminates.

Lemma window_states_NoDup (vs : list Z) (max_lag : Z) :
  NoDup vs → NoDup (window_states vs max_lag).
Proof.
  intros Hvs. unfold window_states. apply NoDup_bind; [| |done].
  - intros v1 v2 s _ _ H1 H2.
    apply list_elem_of_bind in H1 as (t1 & H1 & _).
    apply list_elem_of_bind in H1 as (m1 & H1 & _).
    apply list_elem_of_bind in H2 as (t2 & H2 & _).
    apply list_elem_of_bind in H2 as (m2 & H2 & _).
    apply list_elem_of_singleton in H1, H2. by simplify_eq.
  - intros v _. apply NoDup_bind; [| |apply py_range_NoDup].
    + intros t1 t2 s _ _ H1 H2.
      apply list_elem_of_bind in H1 as (m1 & H1 & _).
      apply list_elem_of_bind in H2 as (m2 & H2 & _).
      apply list_elem_of_singleton in H1, H2. simplify_eq. lia.
    + intros t _. apply NoDup_bind.
      * intros m1 m2 s _ _ H1 H2.
        apply list_elem_of_singleton in H1, H2. by simplify_eq.
      * intros m _. apply NoDup_singleton.
      * repeat constructor; set_solver.
Qed.

(** X22.  The search loop of [_has_any_path] always comes to an end.  The
    states of the window (a node whose variable occurs in [links] as a
    source or in [children] as a child, at a lag from [0] to [max_lag],
    reached through a tail or an arrowhead) are listed without repetition;
    started from [x] and [y], within twice as many rounds as there are such
    states, plus one, the loop has found a connection, emptied a fringe or
    raised an exception. *)
Theorem path_search_loop_terminates (self : OracleCI) (conds : list node)
    (max_lag : Z) (backdoor : bool) (children : gmap Z (list node))
    (x y : node) (k : nat) :
  NoDup (window_states (search_vars self children) max_lag)
  ∧ search_while self conds max_lag backdoor children x
      (S (2 * length (window_states (search_vars self children) max_lag)) + k)
      [(x, Start)] [(y, Start)] {[ x := marks_start ]} {[ y := marks_start ]}
    ≠ OutOfFuel.
Proof.
  split; [apply window_states_NoDup, NoDup_remove_dups|].
  apply (search_while_terminates self conds max_lag backdoor children x _ _ _
           _ _ [] []).
  - split; [by apply NoDup_nil | intros s Hs; inversion Hs].
  - split; [by apply NoDup_nil | intros s Hs; inversion Hs].
  - simpl. lia.
Qed.

(** *** The search loop of [_has_any_path] returns *)

Section search_safe.

Variable self : OracleCI.
Variable conds : list node.
Variable max_lag : Z.
Variable backdoor : bool.
Variable children : gmap Z (list node).
Variable x : node.
Hypothesis closed : links_closed (links self).
Hypothesis children_keys :
  ∀ i, is_Some (children !! i) ↔ is_Some (links self !! i).
Hypothesis children_entries :
  ∀ i cs c, children !! i = Some cs → c ∈ cs → is_Some (links self !! c.1).

Lemma key_nodes_snoc (l : list (node * mark)) (s : node * mark) :
  key_nodes self l → is_Some (links self !! s.1.1) → key_nodes self (l ++ [s]).
Proof using Type.
  intros Hl Hs s' Hin. apply elem_of_app in Hin as [Hin | Hin]; [by apply Hl|].
  by apply list_elem_of_singleton in Hin as ->.
Qed.

Lemma walk_parents_loop_keys (v : node) (ws : list node)
    (fringe : list (node * mark)) (P O : gmap node marks) :
  (∀ w, w ∈ ws → is_Some (links self !! w.1)) → key_nodes self fringe →
  key_nodes self
    (walk_fringe (walk_parents_loop conds max_lag backdoor x v ws fringe P O)).
Proof using Type.
  revert fringe P. induction ws as [|w ws IH]; intros fringe P Hws Hf; [done|].
  assert (∀ w', w' ∈ ws → is_Some (links self !! w'.1)) as Hws'
    by (intros w' Hw'; apply Hws; by right).
  pose proof (Hws w ltac:(by left)) as Hw.
  simpl. destruct w as [i t].
  destruct (backdoor && _); [by apply IH|].
  destruct (negb (py_in _ conds) && _ && _); [|by apply IH].
  destruct (unvisited P (i, t) Tail); cbn beta iota.
  - destruct (bool_decide (is_Some _)); [by apply key_nodes_snoc|].
    apply IH; [done|]. by apply key_nodes_snoc.
  - destruct (bool_decide (is_Some _)); [done | by apply IH].
Qed.

Lemma walk_children_loop_keys (v : node) (ws : list node)
    (fringe : list (node * mark)) (P O : gmap node marks) :
  (∀ w, w ∈ ws → is_Some (links self !! w.1)) → key_nodes self fringe →
  key_nodes self
    (walk_fringe (walk_children_loop conds max_lag v ws fringe P O)).
Proof using Type.
  revert fringe P. induction ws as [|w ws IH]; intros fringe P Hws Hf; [done|].
  assert (∀ w', w' ∈ ws → is_Some (links self !! w'.1)) as Hws'
    by (intros w' Hw'; apply Hws; by right).
  pose proof (Hws w ltac:(by left)) as Hw.
  simpl. destruct w as [i t].
  destruct ((t <=? 0) && _); [|by apply IH].
  destruct (unvisited P (i, t) Arrowhead); cbn beta iota.
  - destruct (O !! _) as [d|];
      [|apply IH; [done | by apply key_nodes_snoc]].
    destruct (_ || _); [by apply key_nodes_snoc|].
    apply IH; [done | by apply key_nodes_snoc].
  - destruct (O !! _) as [d|]; [|by apply IH].
    destruct (_ || _); [done | by apply IH].
Qed.

Lemma _walk_to_parents_safe (v : node) (fringe : list (node * mark))
    (P O : gmap node marks) :
  is_Some (links self !! v.1) → key_nodes self fringe →
  safe (fun w => key_nodes self (walk_fringe w))
       (_walk_to_parents self conds max_lag backdoor x v fringe P O).
Proof using closed.
  intros Hv Hf. unfold _walk_to_parents.
  destruct (lagged_parents_closed self closed v Hv) as (ps & -> & Hps).
  simpl. by apply walk_parents_loop_keys.
Qed.

Lemma _walk_to_children_safe (v : node) (fringe : list (node * mark))
    (P O : gmap node marks) :
  is_Some (links self !! v.1) → key_nodes self fringe →
  safe (fun w => key_nodes self (walk_fringe w))
       (_walk_to_children conds max_lag children v fringe P O).
Proof using children_keys children_entries.
  intros Hv Hf. unfold _walk_to_children.
  apply children_keys in Hv as [cs Hcs].
  destruct (_get_lagged_children v children false) as [ws| |] eqn:E.
  - simpl. apply walk_children_loop_keys; [|done]. intros w Hw.
    destruct v as [var lag].
    apply (elem_of_lagged_children _ _ _ _ _ E) in Hw
      as (l & t & Hl & Hin & _).
    by apply (children_entries var l (w.1, t)).
  - destruct v. unfold _get_lagged_children, py_getitem in E. simpl in Hcs.
    rewrite Hcs in E. done.
  - destruct v. unfold _get_lagged_children, py_getitem in E. simpl in Hcs.
    rewrite Hcs in E. done.
Qed.

Lemma walk_level_safe (this_level fringe : list (node * mark))
    (P O : gmap node marks) :
  key_nodes self this_level → key_nodes self fringe →
  safe (fun w => key_nodes self (walk_fringe w))
       (walk_level self conds max_lag backdoor children x this_level fringe
          P O).
Proof using closed children_keys children_entries.
  revert fringe P.
  induction this_level as [|[v mk] rest IH]; intros fringe P Hlv Hf; [done|].
  assert (key_nodes self rest) as Hrest by (intros s Hs; apply Hlv; by right).
  pose proof (Hlv (v, mk) ltac:(by left)) as Hv. simpl in Hv.
  simpl.
  assert (∀ r : res walk, safe (fun w => key_nodes self (walk_fringe w)) r →
            safe (fun w => key_nodes self (walk_fringe w))
              (w <-- r ;;
               match walk_found w with
               | Some _ => Ok w
               | None =>
                   walk_level self conds max_lag backdoor children x rest
                     (walk_fringe w) (walk_path w) O
               end)) as Hthen.
  { intros [w| |] Hr; simpl in *; [|done ..].
    destruct (walk_found w); [done|]. by apply IH. }
  destruct (py_in v conds).
  - destruct (_ || _); [|by apply IH].
    by apply Hthen, _walk_to_parents_safe.
  - destruct (_ || _).
    + pose proof (_walk_to_parents_safe v fringe P O Hv Hf) as Hp.
      destruct (_walk_to_parents _ _ _ _ _ _ _ _ _) as [w| |]; simpl in *;
        [|done ..].
      destruct (walk_found w); [done|].
      by apply Hthen, _walk_to_children_safe.
    + destruct (bool_decide (mk = Arrowhead)); [|by apply IH].
      by apply Hthen, _walk_to_children_safe.
Qed.

Lemma _walk_fringe_safe (this_level fringe : list (node * mark))
    (P O : gmap node marks) :
  key_nodes self this_level → key_nodes self fringe →
  safe (fun w => key_nodes self (walk_fringe w))
       (_walk_fringe self conds max_lag backdoor children x this_level fringe
          P O).
Proof using closed children_keys children_entries.
  intros Hlv Hf. unfold _walk_fringe.
  destruct (backdoor && _) eqn:E; [|by apply walk_level_safe].
  apply andb_true_iff in E as [_ E]. apply bool_decide_eq_true in E.
  apply _walk_to_parents_safe; [|done].
  apply (Hlv (x, Start)). rewrite E. by left.
Qed.

Lemma search_while_safe (fuel : nat) (ff rf : list (node * mark))
    (pred succ : gmap node marks) :
  key_nodes self ff → key_nodes self rf →
  safe (fun _ => True)
       (search_while self conds max_lag backdoor children x fuel ff rf pred
          succ).
Proof using closed children_keys children_entries.
  revert ff rf pred succ.
  induction fuel as [|fuel IH]; intros ff rf pred succ Hf Hr; simpl.
  { by destruct ff, rf. }
  destruct ff as [|f ff]; [done|]. destruct rf as [|r rf]; [done|].
  destruct (_ <=? _)%nat.
  - pose proof (_walk_fringe_safe (f :: ff) [] pred succ Hf
                  ltac:(intros s Hs; inversion Hs)) as Hw.
    destruct (_walk_fringe _ _ _ _ _ _ _ _ _ _) as [w| |]; simpl in *;
      [|done ..].
    destruct (walk_found w); [done|]. by apply IH.
  - pose proof (_walk_fringe_safe (r :: rf) [] succ pred Hr
                  ltac:(intros s Hs; inversion Hs)) as Hw.
    destruct (_walk_fringe _ _ _ _ _ _ _ _ _ _) as [w| |]; simpl in *;
      [|done ..].
    destruct (walk_found w); [done|]. by apply IH.
Qed.

End search_safe.

(** X23.  On a closed links dictionary, with the table [_get_children] makes
    of it, the search loop of [_has_any_path] between two nodes whose
    variables are keys of [links] returns: within twice as many rounds as
    there are states in the window, plus one, it hands back a connection or
    none, and it raises no exception. *)
Theorem path_search_loop_returns (self : OracleCI) (conds : list node)
    (max_lag : Z) (backdoor : bool) (children : gmap Z (list node))
    (x y : node) (k : nat) :
  links_closed (links self) →
  _get_children self = Ok children →
  is_Some (links self !! x.1) → is_Some (links self !! y.1) →
  ∃ r, search_while self conds max_lag backdoor children x
         (S (2 * length (window_states (search_vars self children) max_lag))
          + k)
         [(x, Start)] [(y, Start)] {[ x := marks_start ]}
         {[ y := marks_start ]}
       = Ok r.
Proof.
  intros Hclosed Hch Hx Hy.
  destruct (get_children_closed self Hclosed) as (ch & Hch' & Hkeys & Hent).
  rewrite Hch in Hch'. injection Hch' as <-.
  assert (∀ i cs c, children !! i = Some cs → c ∈ cs →
            is_Some (links self !! c.1)) as Hentries.
  { intros i cs [j t] Hcs Hin.
    destruct (proj1 (Hent i j t) ltac:(by exists cs)) as (l & lp & Hl & _).
    simpl. by eauto. }
  pose proof (search_while_terminates self conds max_lag backdoor children x
                (S (2 * length (window_states (search_vars self children)
                                  max_lag)) + k)
                [(x, Start)] [(y, Start)] {[ x := marks_start ]}
                {[ y := marks_start ]} [] []) as Hterm.
  pose proof (search_while_safe self conds max_lag backdoor children x Hclosed
                Hkeys Hentries
                (S (2 * length (window_states (search_vars self children)
                                  max_lag)) + k)
                [(x, Start)] [(y, Start)] {[ x := marks_start ]}
                {[ y := marks_start ]}) as Hsafe.
  destruct (search_while _ _ _ _ _ _ _ _ _ _ _) as [r| |].
  - by exists r.
  - exfalso. apply Hsafe.
    + intros s Hs. by apply list_elem_of_singleton in Hs as ->.
    + intros s Hs. by apply list_elem_of_singleton in Hs as ->.
  - exfalso. apply Hterm; [| | simpl; lia | done].
    + split; [by apply NoDup_nil | intros s Hs; inversion Hs].
    + split; [by apply NoDup_nil | intros s Hs; inversion Hs].
Qed.

(** ** Queries at the edges *)

Lemma closed_range_keys (self : OracleCI) (n : node) :
  links_closed (links self) → N self = Z.of_nat (size (links self)) →
  0 <= n.1 < N self → is_Some (links self !! n.1).
Proof. intros [Hk _] HN Hn. apply Hk. lia. Qed.

(** X24.  A query with an empty [X] is not rejected: on a closed links
    dictionary with [N = len(links)], when the query is not in the cache,
    [run_test] searches no path and reports independence, [(0, 1)]. *)
Theorem run_test_empty_X_reports_independence (self : OracleCI)
    (Y : list raw_node) (Zs : option (list raw_node)) (tau_max : Z)
    (cut_off : string) (verbosity : Z) (st : OracleState) (q : query)
    (k : nat) :
  links_closed (links self) → N self = Z.of_nat (size (links self)) →
  canonical self [] Y Zs = Ok q → dsepsets st !! q = None →
  (run_test (S (links_count self) + k) self [] Y Zs tau_max cut_off verbosity
     st).1
  = Ok (0%Q, 1%Q).
Proof.
  intros Hclosed HN Hq Hc. unfold run_test. rewrite Hq.
  unfold cached_dsep. rewrite Hc. destruct q as [[X' Y'] Z'].
  assert (X' = [] ∧ ∀ n, n ∈ X' ++ Y' ++ Z' → is_Some (links self !! n.1))
    as [-> Hkeys].
  { unfold canonical in Hq. simpl in Hq.
    destruct (translate self Y) as [Y1| |]; simpl in Hq; [|done ..].
    destruct (translate_opt self Zs) as [Z1| |]; simpl in Hq; [|done ..].
    split.
    - by apply check_XYZ_ok_inv in Hq as (-> & _).
    - intros n Hn. apply closed_range_keys; [done | done |].
      by apply (check_XYZ_ok_range _ _ _ _ _ _ _ Hq). }
  unfold _is_dsep, _get_max_lag_from_XYZ.
  destruct (non_repeating_search_returns self [] Z' k Hclosed) as [rX ->].
  { intros n Hn. inversion Hn. }
  destruct (non_repeating_search_returns self Y' Z' k Hclosed) as [rY ->].
  { intros n Hn. apply Hkeys. rewrite !elem_of_app. tauto. }
  destruct (non_repeating_search_returns self Z' Z' k Hclosed) as [rZ ->].
  { intros n Hn. apply Hkeys. rewrite !elem_of_app. tauto. }
  cbn [res_bind]. unfold _has_any_path.
  destruct (get_children_closed self Hclosed) as (ch & -> & _).
  done.
Qed.

Lemma run_test_empty_X_reports_independence_witness :
  links_closed (links oracle_chain)
  ∧ N oracle_chain = Z.of_nat (size (links oracle_chain))
  ∧ canonical oracle_chain [] [[1; 0]] (Some [[0; -1]])
    = Ok ([], [(1, 0)], [(0, -1)])
  ∧ dsepsets fresh_state !! (([], [(1, 0)], [(0, -1)]) : query) = None
  ∧ (run_test (S (links_count oracle_chain) + 0) oracle_chain [] [[1; 0]]
       (Some [[0; -1]]) 0 "2xtau_max" 0 fresh_state).1
    = Ok (0%Q, 1%Q).
Proof.
  assert (N oracle_chain = Z.of_nat (size (links oracle_chain))) as HN
    by (vm_compute; reflexivity).
  assert (canonical oracle_chain [] [[1; 0]] (Some [[0; -1]])
          = Ok ([], [(1, 0)], [(0, -1)])) as Hq by (vm_compute; reflexivity).
  assert (dsepsets fresh_state !! (([], [(1, 0)], [(0, -1)]) : query) = None)
    as Hc by (vm_compute; reflexivity).
  split; [exact links_closed_chain|]. split; [exact HN|].
  split; [exact Hq|]. split; [exact Hc|].
  exact (run_test_empty_X_reports_independence oracle_chain [[1; 0]]
           (Some [[0; -1]]) 0 "2xtau_max" 0 fresh_state _ 0
           links_closed_chain HN Hq Hc).
Defined.

(** ** [get_shortest_path] against [run_test] *)

(** X25.  [get_shortest_path] with its defaults and [run_test] agree on a
    query that is not in the cache: the test reports independence, [(0, 1)],
    exactly when no path is handed back, and dependence, [(1, 0)], exactly
    when a path is; and [get_shortest_path] leaves the cache as it is. *)
Theorem get_shortest_path_agrees_with_run_test (fuel : nat)
    (self : OracleCI) (X Y Zs : list raw_node) (tau_max : Z)
    (cut_off : string) (verbosity : Z) (st : OracleState) (a : anc_attrs)
    (q : query) :
  canonical self X Y (Some Zs) = Ok q → dsepsets st !! q = None →
  ((run_test fuel self X Y (Some Zs) tau_max cut_off verbosity st).1
   = Ok (0%Q, 1%Q)
   ↔ (get_shortest_path fuel self X Y Zs None false false st a).1 = Ok None)
  ∧ ((run_test fuel self X Y (Some Zs) tau_max cut_off verbosity st).1
     = Ok (1%Q, 0%Q)
     ↔ ∃ p, (get_shortest_path fuel self X Y Zs None false false st a).1
            = Ok (Some p))
  ∧ dsepsets (get_shortest_path fuel self X Y Zs None false false st a).2.1
    = dsepsets st.
Proof.
  intros Hq Hc. unfold run_test, get_shortest_path. rewrite Hq.
  unfold canonical, translate_opt in Hq. rewrite Hq.
  unfold cached_dsep. rewrite Hc. destruct q as [[X' Y'] Z'].
  unfold _is_dsep.
  destruct (_get_max_lag_from_XYZ fuel self X' Y' Z') as [m| |]; simpl.
  2,3: split_and!; [split; [done | done] | split; [done | by intros []]
                    | done].
  destruct (_has_any_path fuel self X' Y' (Some Z') m false) as [p| |]; simpl.
  2,3: split_and!; [split; [done | done] | split; [done | by intros []]
                    | done].
  destruct p as [p|]; simpl.
  - destruct (bool_decide (p = [])); simpl.
    + split_and!; [done | split; [done | by intros []] | done].
    + split_and!; [split; done | split; [by eauto | done] | done].
  - split_and!; [done | split; [done | by intros []] | done].
Qed.

Lemma get_shortest_path_agrees_with_run_test_witness :
  canonical oracle_chain [[0; -1]] [[1; 0]] (Some [])
  = Ok ([(0, -1)], [(1, 0)], [])
  ∧ dsepsets fresh_state !! (([(0, -1)], [(1, 0)], []) : query) = None
  ∧ (run_test 3 oracle_chain [[0; -1]] [[1; 0]] (Some []) 0 "2xtau_max" 0
       fresh_state).1 = Ok (1%Q, 0%Q)
  ∧ ∃ p, (get_shortest_path 3 oracle_chain [[0; -1]] [[1; 0]] [] None false
            false fresh_state no_attrs).1 = Ok (Some p).
Proof.
  assert (canonical oracle_chain [[0; -1]] [[1; 0]] (Some [])
          = Ok ([(0, -1)], [(1, 0)], [])) as Hq by (vm_compute; reflexivity).
  assert (dsepsets fresh_state !! (([(0, -1)], [(1, 0)], []) : query) = None)
    as Hc by (vm_compute; reflexivity).
  assert ((run_test 3 oracle_chain [[0; -1]] [[1; 0]] (Some []) 0 "2xtau_max"
             0 fresh_state).1 = Ok (1%Q, 0%Q)) as Hr
    by (vm_compute; reflexivity).
  split; [exact Hq|]. split; [exact Hc|]. split; [exact Hr|].
  exact (proj1 (proj1 (proj2
           (get_shortest_path_agrees_with_run_test 3 oracle_chain [[0; -1]]
              [[1; 0]] [] 0 "2xtau_max" 0 fresh_state no_attrs _ Hq Hc)))
           Hr).
Defined.

(** ** The path that [_has_any_path] hands back *)

Lemma marks_linked_insert_tail (self : OracleCI)
    (children : gmap Z (list node)) (P : gmap node marks) (w : node)
    (e : node * mark) :
  marks_linked self children P → parent_of self w e.1 →
  marks_linked self children
    (match P !! w with
     | None => <[w := {| m_tail := Some e; m_arrowhead := None;
                         m_start := false |}]> P
     | Some d => <[w := marks_set_tail d e]> P
     end).
Proof.
  intros HP Hpar w' d'. destruct (P !! w) as [d|] eqn:Ed.
  - destruct (decide (w' = w)) as [->|Hne].
    + rewrite lookup_insert_eq. intros [= <-]. simpl. split.
      * by intros e' [= <-].
      * by apply (HP w d).
    + rewrite lookup_insert_ne by done. apply HP.
  - destruct (decide (w' = w)) as [->|Hne].
    + rewrite lookup_insert_eq. intros [= <-]. simpl. split; [|done].
      by intros e' [= <-].
    + rewrite lookup_insert_ne by done. apply HP.
Qed.

Lemma marks_linked_insert_arrowhead (self : OracleCI)
    (children : gmap Z (list node)) (P : gmap node marks) (w : node)
    (e : node * mark) :
  marks_linked self children P → child_of children w e.1 →
  marks_linked self children
    (match P !! w with
     | None => <[w := {| m_tail := None; m_arrowhead := Some e;
                         m_start := false |}]> P
     | Some d => <[w := marks_set_arrowhead d e]> P
     end).
Proof.
  intros HP Hch w' d'. destruct (P !! w) as [d|] eqn:Ed.
  - destruct (decide (w' = w)) as [->|Hne].
    + rewrite lookup_insert_eq. intros [= <-]. simpl. split.
      * by apply (HP w d).
      * by intros e' [= <-].
    + rewrite lookup_insert_ne by done. apply HP.
  - destruct (decide (w' = w)) as [->|Hne].
    + rewrite lookup_insert_eq. intros [= <-]. simpl. split; [done|].
      by intros e' [= <-].
    + rewrite lookup_insert_ne by done. apply HP.
Qed.

Lemma Sorted_mono {A : Type} (R1 R2 : relation A) (l : list A) :
  (∀ a b, R1 a b → R2 a b) → Sorted R1 l → Sorted R2 l.
Proof.
  intros HR. induction 1 as [|a l Hs IH Hhd]; constructor; [done|].
  destruct Hhd; constructor. by apply HR.
Qed.

Lemma adjacent_sym (self : OracleCI) (children : gmap Z (list node))
    (a b : node) :
  adjacent self children a b → adjacent self children b a.
Proof. unfold adjacent. tauto. Qed.

Section path_sound.

Variable self : OracleCI.
Variable conds : list node.
Variable max_lag : Z.
Variable backdoor : bool.
Variable children : gmap Z (list node).
Variable x : node.

Lemma walk_parents_loop_linked (v : node) (ws : list node)
    (fringe : list (node * mark)) (P O : gmap node marks) :
  (∀ w, w ∈ ws → parent_of self w v) → marks_linked self children P →
  marks_linked self children
    (walk_path (walk_parents_loop conds max_lag backdoor x v ws fringe P O)).
Proof using Type.
  revert fringe P. induction ws as [|w ws IH]; intros fringe P Hws HP; [done|].
  assert (∀ w', w' ∈ ws → parent_of self w' v) as Hws'
    by (intros w' Hw'; apply Hws; by right).
  pose proof (Hws w ltac:(by left)) as Hw.
  simpl. destruct w as [i t].
  destruct (backdoor && _); [by apply IH|].
  destruct (negb (py_in _ conds) && _ && _); [|by apply IH].
  pose proof (marks_linked_insert_tail self children P (i, t) (v, Arrowhead)
                HP Hw) as HP'.
  destruct (unvisited P (i, t) Tail); cbn beta iota.
  - destruct (bool_decide (is_Some _)); [exact HP'|]. apply IH; [done|].
    exact HP'.
  - destruct (bool_decide (is_Some _)); [done | by apply IH].
Qed.

Lemma walk_children_loop_linked (v : node) (ws : list node)
    (fringe : list (node * mark)) (P O : gmap node marks) :
  (∀ w, w ∈ ws → child_of children w v) → marks_linked self children P →
  marks_linked self children
    (walk_path (walk_children_loop conds max_lag v ws fringe P O)).
Proof using Type.
  revert fringe P. induction ws as [|w ws IH]; intros fringe P Hws HP; [done|].
  assert (∀ w', w' ∈ ws → child_of children w' v) as Hws'
    by (intros w' Hw'; apply Hws; by right).
  pose proof (Hws w ltac:(by left)) as Hw.
  simpl. destruct w as [i t].
  destruct ((t <=? 0) && _); [|by apply IH].
  pose proof (marks_linked_insert_arrowhead self children P (i, t) (v, Tail)
                HP Hw) as HP'.
  destruct (unvisited P (i, t) Arrowhead); cbn beta iota.
  - destruct (O !! _) as [d|]; [|apply IH; [done | exact HP']].
    destruct (_ || _); [exact HP'|]. apply IH; [done | exact HP'].
  - destruct (O !! _) as [d|]; [|by apply IH].
    destruct (_ || _); [done | by apply IH].
Qed.

Lemma _walk_to_parents_linked (v : node) (fringe : list (node * mark))
    (P O : gmap node marks) :
  marks_linked self children P →
  walk_linked self children (_walk_to_parents self conds max_lag backdoor x v fringe P O).
Proof using Type.
  intros HP w. unfold _walk_to_parents.
  destruct (_get_lagged_parents self v false) as [ps| |] eqn:E; simpl;
    [|done ..].
  intros [= <-]. apply walk_parents_loop_linked; [|done].
  intros w Hw. by exists ps.
Qed.

Lemma _walk_to_children_linked (v : node) (fringe : list (node * mark))
    (P O : gmap node marks) :
  marks_linked self children P →
  walk_linked self children (_walk_to_children conds max_lag children v fringe P O).
Proof using Type.
  intros HP w. unfold _walk_to_children.
  destruct (_get_lagged_children v children false) as [cs| |] eqn:E; simpl;
    [|done ..].
  intros [= <-]. apply walk_children_loop_linked; [|done].
  intros w Hw. by exists cs.
Qed.

Lemma walk_level_linked (this_level fringe : list (node * mark))
    (P O : gmap node marks) :
  marks_linked self children P →
  walk_linked self children
    (walk_level self conds max_lag backdoor children x this_level fringe P O).
Proof using Type.
  revert fringe P.
  induction this_level as [|[v mk] rest IH]; intros fringe P HP.
  { intros w [= <-]. done. }
  simpl.
  assert (∀ r : res walk, walk_linked self children r →
            walk_linked self children
              (w <-- r ;;
               match walk_found w with
               | Some _ => Ok w
               | None =>
                   walk_level self conds max_lag backdoor children x rest
                     (walk_fringe w) (walk_path w) O
               end)) as Hthen.
  { intros [w| |] Hr; simpl; [|done ..].
    destruct (walk_found w); [done|]. apply IH. by apply Hr. }
  destruct (py_in v conds).
  - destruct (_ || _); [|by apply IH].
    by apply Hthen, _walk_to_parents_linked.
  - destruct (_ || _).
    + pose proof (_walk_to_parents_linked v fringe P O HP) as Hp.
      destruct (_walk_to_parents _ _ _ _ _ _ _ _ _) as [w| |]; simpl;
        [|done ..].
      destruct (walk_found w); [done|].
      apply Hthen, _walk_to_children_linked. by apply Hp.
    + destruct (bool_decide (mk = Arrowhead)); [|by apply IH].
      by apply Hthen, _walk_to_children_linked.
Qed.

Lemma _walk_fringe_linked (this_level fringe : list (node * mark))
    (P O : gmap node marks) :
  marks_linked self children P →
  walk_linked self children
    (_walk_fringe self conds max_lag backdoor children x this_level fringe
       P O).
Proof using Type.
  intros HP. unfold _walk_fringe. destruct (_ && _).
  - by apply _walk_to_parents_linked.
  - by apply walk_level_linked.
Qed.

Lemma search_while_linked (fuel : nat) (ff rf : list (node * mark))
    (pred succ : gmap node marks) (fc : node * mark)
    (pred' succ' : gmap node marks) :
  marks_linked self children pred → marks_linked self children succ →
  search_while self conds max_lag backdoor children x fuel ff rf pred succ
  = Ok (Some (fc, pred', succ')) →
  marks_linked self children pred' ∧ marks_linked self children succ'.
Proof using Type.
  revert ff rf pred succ.
  induction fuel as [|fuel IH]; intros ff rf pred succ Hp Hs; simpl.
  { by destruct ff, rf. }
  destruct ff as [|f ff]; [done|]. destruct rf as [|r rf]; [done|].
  destruct (_ <=? _)%nat.
  - pose proof (_walk_fringe_linked (f :: ff) [] pred succ Hp) as Hw.
    destruct (_walk_fringe _ _ _ _ _ _ _ _ _ _) as [w| |]; simpl;
      [|done ..].
    specialize (Hw w eq_refl). destruct (walk_found w).
    + intros [= <- <- <-]. done.
    + by apply IH.
  - pose proof (_walk_fringe_linked (r :: rf) [] succ pred Hs) as Hw.
    destruct (_walk_fringe _ _ _ _ _ _ _ _ _ _) as [w| |]; simpl;
      [|done ..].
    specialize (Hw w eq_refl). destruct (walk_found w).
    + intros [= <- <- <-]. done.
    + by apply IH.
Qed.

Lemma trace_while_sound (fuel : nat) (d : gmap node marks) (goal : node)
    (path : list node) (nd : node) (mk : mark) (p : list node) :
  marks_linked self children d → last path = Some nd →
  Sorted (adjacent self children) path →
  trace_while conds fuel d goal path nd mk = Ok p →
  Sorted (adjacent self children) p ∧ last p = Some goal
  ∧ head p = head path.
Proof using Type.
  intros Hd. revert path nd mk.
  induction fuel as [|fuel IH]; intros path nd mk Hlast Hs; simpl;
    rewrite Hlast.
  { case_bool_decide as Hg; [|done]. intros [= <-]. by subst. }
  case_bool_decide as Hg; [intros [= <-]; by subst|].
  unfold py_getitem. destruct (d !! nd) as [ms|] eqn:Ems; simpl; [|done].
  destruct (marks_get ms mk) as [[prev_node prev_mark]| |] eqn:Ee; simpl;
    [|done ..].
  destruct (next_mark _ _ _ _ _ _) as [mk'| |]; simpl; [|done ..].
  intros Ht. apply IH in Ht as (H1 & H2 & H3).
  - split_and!; [done | done |]. rewrite H3.
    destruct path; [done | done].
  - apply last_snoc.
  - apply Sorted_snoc; [done|].
    assert (adjacent self children nd prev_node) as Hadj.
    { destruct (Hd nd ms Ems) as [Htail Harrow]. unfold marks_get in Ee.
      destruct mk.
      - destruct (m_tail ms) as [e|] eqn:Et; [|done]. simplify_eq.
        left. left. by apply (Htail (prev_node, prev_mark)).
      - destruct (m_arrowhead ms) as [e|] eqn:Et; [|done]. simplify_eq.
        left. right. by apply (Harrow (prev_node, prev_mark)).
      - by destruct (m_start ms). }
    destruct (last_Some path nd) as [[l' ->] _]; [done|].
    by constructor.
Qed.

Lemma backtrace_path_sound (fuel : nat) (found : node * mark)
    (pred succ : gmap node marks) (y : node) (p : list node) :
  marks_linked self children pred → marks_linked self children succ →
  backtrace_path conds x fuel found pred succ y = Ok p →
  head p = Some x ∧ last p = Some y ∧ Sorted (adjacent self children) p.
Proof using Type.
  intros Hp Hs. unfold backtrace_path. destruct found as [nd fm].
  destruct (first_mark pred nd) as [mk| |]; simpl; [|done ..].
  destruct (trace_while conds fuel pred x [nd] nd mk) as [p1| |] eqn:E1;
    simpl; [|done ..].
  apply trace_while_sound in E1 as (S1 & L1 & H1);
    [| done | done | by repeat constructor].
  destruct (first_mark succ nd) as [mk2| |]; simpl; [|done ..].
  intros E2. apply trace_while_sound in E2 as (S2 & L2 & H2); [|done | |].
  - split_and!; [|done ..]. rewrite H2, rev_alt.
    change (rev_append p1 []) with (reverse p1). by rewrite head_reverse.
  - rewrite rev_alt. change (rev_append p1 []) with (reverse p1).
    by rewrite last_reverse.
  - rewrite rev_alt. change (rev_append p1 []) with (reverse p1).
    apply Sorted_reverse in S1. revert S1. apply Sorted_mono.
    intros a b. apply adjacent_sym.
Qed.

Lemma search_pair_sound (fuel : nat) (y : node) (p : list node) :
  search_pair self conds max_lag backdoor children x fuel y = Ok (Some p) →
  head p = Some x ∧ last p = Some y ∧ Sorted (adjacent self children) p.
Proof using Type.
  unfold search_pair.
  destruct (search_while _ _ _ _ _ _ _ _ _ _ _) as [[[[fc pred] succ]|]| |]
    eqn:E; simpl; [| done ..].
  apply search_while_linked in E as [Hp Hs].
  - destruct (backtrace_path _ _ _ _ _ _ _) as [p'| |] eqn:Eb; simpl;
      [|done ..].
    intros [= <-]. exact (backtrace_path_sound fuel fc pred succ y p' Hp Hs Eb).
  - intros w d Hw. apply lookup_singleton_Some in Hw as [_ <-]. done.
  - intros w d Hw. apply lookup_singleton_Some in Hw as [_ <-]. done.
Qed.

End path_sound.

Lemma first_path_found {A : Type} (f : A → res (option (list node)))
    (l : list A) (p : list node) :
  first_path f l = Ok (Some p) → ∃ a, a ∈ l ∧ f a = Ok (Some p).
Proof.
  induction l as [|a l IH]; simpl; [done|].
  destruct (f a) as [[p'|]| |] eqn:E; simpl; [| | done ..].
  - intros [= <-]. exists a. split; [by left | done].
  - intros H. destruct (IH H) as (a' & Ha' & Hf). exists a'.
    split; [by right | done].
Qed.

Lemma child_is_parent (self : OracleCI) (children : gmap Z (list node))
    (w v : node) :
  links_closed (links self) → links_lag_nonpos (links self) →
  _get_children self = Ok children →
  child_of children w v → parent_of self v w.
Proof.
  intros Hclosed Hlag Hch (cs & Hcs & Hw).
  destruct (get_children_closed self Hclosed) as (ch & Hch' & _ & Hinv).
  rewrite Hch in Hch'. simplify_eq.
  destruct v as [i lag].
  apply (elem_of_lagged_children _ _ _ _ _ Hcs) in Hw
    as (l & t & Hl & Hin & Ht).
  destruct (proj1 (Hinv i w.1 t)) as (l' & lp & Hl' & Hin' & Ec & Hs & Habs);
    [by eauto|].
  pose proof (Hlag w.1 l' lp Hl' Hin') as Hneg.
  destruct (lagged_parents_closed self Hclosed w ltac:(by eauto))
    as (ps & Hps & _).
  exists ps. split; [done|]. destruct w as [j lagw]. simpl in *.
  apply (elem_of_lagged_parents _ _ _ _ _ Hps). exists l', lp.
  split_and!; [done | done | done |]. f_equal; [done | lia].
Qed.

(** X26.  A path that [_has_any_path] hands back is a path of the time series
    graph between the two sets: on a closed links dictionary without positive
    lags it starts at a node of [X], ends at a node of [Y], and any two
    consecutive nodes are joined by a link, one being a lagged parent of the
    other. *)
Theorem returned_path_follows_links (fuel : nat) (self : OracleCI)
    (X Y : list node) (conds : option (list node)) (max_lag : Z)
    (backdoor : bool) (p : list node) :
  links_closed (links self) → links_lag_nonpos (links self) →
  _has_any_path fuel self X Y conds max_lag backdoor = Ok (Some p) →
  (∃ x y, x ∈ X ∧ y ∈ Y ∧ head p = Some x ∧ last p = Some y)
  ∧ Sorted (linked self) p.
Proof.
  intros Hclosed Hlag. unfold _has_any_path.
  destruct (_get_children self) as [children| |] eqn:Hch; simpl; [|done ..].
  intros H. apply first_path_found in H as (x & Hx & H).
  apply first_path_found in H as (y & Hy & H).
  apply search_pair_sound in H as (Hh & Hl & Hs). split; [by eauto 6|].
  revert Hs. apply Sorted_mono. intros a b [[Hab | Hab] | [Hba | Hba]].
  - by left.
  - right. by eapply child_is_parent.
  - by right.
  - left. by eapply child_is_parent.
Qed.

Lemma links_lag_nonpos_chain : links_lag_nonpos (links oracle_chain).
Proof.
  intros k l lp Hl Hin. simpl in *.
  destruct (decide (k = 0)) as [->|H0].
  { rewrite lookup_insert_eq in Hl. simplify_eq. inversion Hin. }
  destruct (decide (k = 1)) as [->|H1].
  { rewrite lookup_insert_ne, lookup_singleton_eq in Hl by done.
    simplify_eq. apply list_elem_of_singleton in Hin as ->. simpl. lia. }
  rewrite lookup_insert_ne, lookup_singleton_ne in Hl by done. done.
Qed.

Lemma chain_query_keys :
  ∀ n : node, n ∈ [(0, -1)] ++ [(1, 0)] ++ [] →
              is_Some (links oracle_chain !! n.1).
Proof.
  intros n Hn. simpl in Hn.
  apply elem_of_cons in Hn as [-> | Hn]; [by eexists|].
  apply list_elem_of_singleton in Hn as ->. by eexists.
Qed.

Lemma horizon_search_returns_witness :
  links_closed (links oracle_chain)
  ∧ (∀ n : node, n ∈ [(0, -1)] ++ [(1, 0)] ++ [] →
                 is_Some (links oracle_chain !! n.1))
  ∧ ∃ m, _get_max_lag_from_XYZ (S (links_count oracle_chain) + 0)
           oracle_chain [(0, -1)] [(1, 0)] [] = Ok m.
Proof.
  split; [exact links_closed_chain|]. split; [exact chain_query_keys|].
  exact (horizon_search_returns oracle_chain [(0, -1)] [(1, 0)] [] 0
           links_closed_chain chain_query_keys).
Defined.

Lemma path_search_loop_returns_witness :
  links_closed (links oracle_chain)
  ∧ _get_children oracle_chain = Ok {[ 0 := [(1, 1)]; 1 := [] ]}
  ∧ is_Some (links oracle_chain !! 0) ∧ is_Some (links oracle_chain !! 1)
  ∧ ∃ r, search_while oracle_chain [] 1 false {[ 0 := [(1, 1)]; 1 := [] ]}
           (0, -1)
           (S (2 * length (window_states
                             (search_vars oracle_chain
                                {[ 0 := [(1, 1)]; 1 := [] ]}) 1)) + 0)
           [((0, -1), Start)] [((1, 0), Start)]
           {[ (0, -1) := marks_start ]} {[ (1, 0) := marks_start ]}
         = Ok r.
Proof.
  assert (_get_children oracle_chain
          = Ok ({[ 0 := [(1, 1)]; 1 := [] ]} : gmap Z (list node))) as Hch
    by (vm_compute; reflexivity).
  assert (is_Some (links oracle_chain !! 0)) as H0 by (by eexists).
  assert (is_Some (links oracle_chain !! 1)) as H1 by (by eexists).
  split; [exact links_closed_chain|]. split; [exact Hch|].
  split; [exact H0|]. split; [exact H1|].
  exact (path_search_loop_returns oracle_chain [] 1 false
           {[ 0 := [(1, 1)]; 1 := [] ]} (0, -1) (1, 0) 0
           links_closed_chain Hch H0 H1).
Defined.

Lemma returned_path_follows_links_witness :
  links_closed (links oracle_chain) ∧ links_lag_nonpos (links oracle_chain)
  ∧ _has_any_path 3 oracle_chain [(0, -1)] [(1, 0)] (Some []) 1 false
    = Ok (Some [(0, -1); (1, 0)])
  ∧ Sorted (linked oracle_chain) [(0, -1); (1, 0)].
Proof.
  assert (_has_any_path 3 oracle_chain [(0, -1)] [(1, 0)] (Some []) 1 false
          = Ok (Some [(0, -1); (1, 0)])) as H by (vm_compute; reflexivity).
  split; [exact links_closed_chain|]. split; [exact links_lag_nonpos_chain|].
  split; [exact H|].
  exact (proj2 (returned_path_follows_links 3 oracle_chain [(0, -1)] [(1, 0)]
                  (Some []) 1 false _ links_closed_chain
                  links_lag_nonpos_chain H)).
Defined.

